(** * FrEIA reversible graph net: nodes, scheduler and execution engine

    A shallow embedding of [FrEIA/framework/reversible_graph_net.py]:
    the [Node] constructor with its input canonicalisation and dynamic
    [out<k>] attributes, the scheduler [topological_order], the
    constructor of [ReversibleGraphNet] and its [forward] method.

    Python objects live in a heap indexed by references; Python values
    that cross an untyped boundary (input specifications, what a module
    returns, the entries of the edge-value table) are terms of [pyval].
    Exceptions are values of [pyerr] carried by the [result] monad. *)

From Stdlib Require Import ZArith String Ascii List DecimalString DecimalNat.
From stdpp Require Import gmap strings list fin_maps.

Set Warnings "-register-all,-clear-no-such-hyp".
Local Open Scope Z_scope.

(** ** Python values, exceptions and the error monad *)

(** Nodes are compared and hashed by identity; a reference stands for
    that identity. *)
Abbreviation node_ref := nat (only parsing).

(** The transformation contract a module can break in [forward]. *)
Inductive violation :=
| ReturnedTensorOnly
| PairLengthMismatch (got : nat)
| OutputIsTensor
| OutputCountMismatch (got expected : nat)
| JacobianNotTensor
| JacobianNeitherNoneNorTensor.

(** Which assertion failed. *)
Inductive assertion :=
| InvalidInputType
| NoInputNodes
| NoOutputNodes
| ForbiddenByConstructor
| NotConnected (n : node_ref).

Inductive pyerr :=
| RuntimeError_CannotParse (name : string)
| AssertionError (a : assertion)
| ValueError_Contract (n : node_ref) (v : violation)
| ValueError_Cyclic
| ValueError_NoConditions
| ValueError
| KeyError
| TypeError
| AttributeError (item : string)
| IndexError.

Inductive result (A : Type) :=
| Ok (a : A)
| Err (e : pyerr).
Arguments Ok {A} a.
Arguments Err {A} e.

Definition bind {A B} (m : result A) (k : A → result B) : result B :=
  match m with
  | Ok a => k a
  | Err e => Err e
  end.

Notation "'do' x <- m ; k" := (bind m (fun x => k))
  (at level 10, x name, m at level 100, k at level 200).
Notation "'do' ( x , y ) <- m ; k" := (bind m (fun '(x, y) => k))
  (at level 10, x name, y name, m at level 100, k at level 200).

Definition is_ok {A} (m : result A) : bool :=
  match m with Ok _ => true | Err _ => false end.

(** [for x in xs: body], the body threading a state and possibly raising. *)
Fixpoint foldM {A S} (body : S → A → result S) (xs : list A) (s : S) : result S :=
  match xs with
  | [] => Ok s
  | x :: xs' => do s' <- body s x; foldM body xs' s'
  end.

(** [[f(x) for x in xs]], the first exception aborting the comprehension. *)
Fixpoint mapM {A B} (f : A → result B) (xs : list A) : result (list B) :=
  match xs with
  | [] => Ok []
  | x :: xs' => do y <- f x; do ys <- mapM f xs'; Ok (y :: ys)
  end.

(** Tensors are opaque to the graph code.  Besides testing whether a
    value is one and adding Jacobians, it can come to ask a tensor for
    [t.__index__()], when a tensor is used to index a list (defined for
    an integer tensor with one element), and for [iter(t)], the
    sub-tensors along the first dimension (undefined for a scalar). *)
Class TensorOps (tensor : Type) := {
  tensor_index : tensor → option Z;
  tensor_rows : tensor → option (list tensor)
}.

Section Values.
Context {tensor : Type} `{!TensorOps tensor}.

(** [VSlice] is [slice(start, stop, step)] with integer or absent
    bounds.  [VObject] is an object of which the code can use nothing:
    it has no [output_dims], no [__index__] and no [__iter__]. *)
Inductive pyval :=
| VNone
| VInt (z : Z)
| VStr (s : string)
| VNode (n : node_ref)
| VTensor (t : tensor)
| VSlice (start stop step : option Z)
| VObject (descr : string)
| VList (l : list pyval)
| VTuple (l : list pyval).

(** [isinstance(v, (list, tuple))] with the items. *)
Definition as_list_or_tuple (v : pyval) : option (list pyval) :=
  match v with
  | VList l | VTuple l => Some l
  | _ => None
  end.

(** [torch.is_tensor(v)] *)
Definition is_tensor (v : pyval) : bool :=
  match v with VTensor _ => true | _ => false end.

Definition is_none (v : pyval) : bool :=
  match v with VNone => true | _ => false end.

(** Iterating a value: lists, tuples and strings are iterable, and so
    is a tensor that is not a scalar; everything else raises
    [TypeError]. *)
Definition py_iter (v : pyval) : result (list pyval) :=
  match v with
  | VList l | VTuple l => Ok l
  | VStr s => Ok (map (λ c, VStr (String c EmptyString)) (list_ascii_of_string s))
  | VTensor t =>
      match tensor_rows t with
      | Some rows => Ok (map VTensor rows)
      | None => Err TypeError
      end
  | _ => Err TypeError
  end.

(** Whether [hash(v)] is defined: lists and slices are unhashable
    (slices up to Python 3.11), a tuple is hashable when its items
    are, and everything else is hashed by value or by identity. *)
Fixpoint hashable (v : pyval) : bool :=
  match v with
  | VList _ | VSlice _ _ _ => false
  | VTuple l => forallb hashable l
  | _ => true
  end.

(** [len(v)] *)
Definition py_len (v : pyval) : result nat :=
  do l <- py_iter v; Ok (length l).

(** [a, b = v]: too few or too many items is a [ValueError]. *)
Definition py_unpack2 (v : pyval) : result (pyval * pyval) :=
  do l <- py_iter v;
  match l with
  | [a; b] => Ok (a, b)
  | _ => Err ValueError
  end.
End Values.
Arguments pyval : clear implicits.

(** [xs[i]] on a Python list: negative indices count from the end. *)
Definition py_index {A} (xs : list A) (i : Z) : result A :=
  let n := Z.of_nat (length xs) in
  let j := if (i <? 0)%Z then i + n else i in
  if ((j <? 0) || (n <=? j))%bool then Err IndexError
  else match xs !! Z.to_nat j with
       | Some x => Ok x
       | None => Err IndexError
       end.

(** One bound of a slice brought into range, as [slice.indices] does. *)
Definition clamp_bound (len step i : Z) : Z :=
  if i <? 0 then
    if i + len <? 0 then (if step <? 0 then -1 else 0) else i + len
  else if len <=? i then (if step <? 0 then len - 1 else len)
  else i.

(** [xs[start:stop:step]] on a Python list: a step of zero is a
    [ValueError]; bounds out of range are clamped, never an error. *)
Definition py_slice {A} (xs : list A) (start stop step : option Z)
  : result (list A) :=
  let len := Z.of_nat (length xs) in
  let st := default 1 step in
  if st =? 0 then Err ValueError else
  let lo := match start with
            | Some i => clamp_bound len st i
            | None => if st <? 0 then len - 1 else 0
            end in
  let hi := match stop with
            | Some i => clamp_bound len st i
            | None => if st <? 0 then -1 else len
            end in
  let count := if st <? 0
               then (if hi <? lo then (lo - hi - 1) / (- st) + 1 else 0)
               else (if lo <? hi then (hi - lo - 1) / st + 1 else 0) in
  Ok (omap (λ i, xs !! Z.to_nat (lo + Z.of_nat i * st)) (seq 0 (Z.to_nat count))).

(** ** Strings and integers: [str(i)] and [int(s)] *)

(** [str(i)] for a natural number: its decimal digits. *)
Definition py_str_nat (i : nat) : string :=
  NilZero.string_of_uint (Nat.to_uint i).

Definition is_space (c : ascii) : bool :=
  let n := nat_of_ascii c in
  ((n =? 32) || ((9 <=? n) && (n <=? 13)))%nat.

Definition digit_of (c : ascii) : option nat :=
  let n := nat_of_ascii c in
  if ((48 <=? n) && (n <=? 57))%nat then Some (n - 48)%nat else None.

Definition is_digit (c : ascii) : Prop := is_Some (digit_of c).

Definition is_underscore (c : ascii) : bool := (nat_of_ascii c =? 95)%nat.

(** Digits with single underscores allowed between them, as [int] reads
    them; [after_digit] records whether the previous character was a
    digit. *)
Fixpoint digits_value (after_digit : bool) (cs : list ascii) (acc : nat) : option nat :=
  match cs with
  | [] => if after_digit then Some acc else None
  | c :: cs' =>
      match digit_of c with
      | Some d => digits_value true cs' (10 * acc + d)%nat
      | None =>
          if is_underscore c && after_digit then digits_value false cs' acc
          else None
      end
  end.

Fixpoint drop_spaces (cs : list ascii) : list ascii :=
  match cs with
  | c :: cs' => if is_space c then drop_spaces cs' else cs
  | [] => []
  end.

Definition strip (cs : list ascii) : list ascii :=
  rev (drop_spaces (rev (drop_spaces cs))).

(** [int(s)] for a string of ASCII characters: surrounding whitespace,
    an optional sign, decimal digits.  Anything else is a [ValueError]
    (digits outside ASCII, which Python also reads, are not modelled). *)
Definition py_int (s : string) : result Z :=
  let cs := strip (list_ascii_of_string s) in
  let '(neg, ds) :=
    match cs with
    | c :: cs' =>
        if (nat_of_ascii c =? 45)%nat then (true, cs')
        else if (nat_of_ascii c =? 43)%nat then (false, cs')
        else (false, cs)
    | [] => (false, cs)
    end in
  match digits_value false ds 0 with
  | Some v => Ok (if neg then - Z.of_nat v else Z.of_nat v)
  | None => Err ValueError
  end.

(** [s[n:]] *)
Fixpoint string_from (n : nat) (s : string) : string :=
  match n, s with
  | O, _ => s
  | S n', String _ s' => string_from n' s'
  | S _, EmptyString => EmptyString
  end.

(** ** Nodes *)

(** The class of a node object: [Node] or one of its three subclasses. *)
Inductive node_class := ClsNode | ClsInputNode | ClsConditionNode | ClsOutputNode.

Definition node_class_eqb (a b : node_class) : bool :=
  match a, b with
  | ClsNode, ClsNode | ClsInputNode, ClsInputNode
  | ClsConditionNode, ClsConditionNode | ClsOutputNode, ClsOutputNode => true
  | _, _ => false
  end.

(** A shape is a tuple of integers. *)
Abbreviation shape := (list Z).

(** What [output_dims[i]] yields: one shape for an index, a list of
    shapes for a slice. *)
Inductive dims_item := OneShape (d : shape) | ShapeList (ds : list shape).

Section Nodes.
Context {tensor : Type} `{!TensorOps tensor}.
Abbreviation pyval := (pyval tensor).

(** What the graph code uses of an [InvertibleModule]: calling it, with
    or without the keyword [c], and its [output_dims]. *)
Record module_obj := {
  call : list pyval → option (list pyval) → bool → bool → result pyval;
  module_output_dims : list dims_item → result (list shape);
  is_graph_net : bool
}.

(** [module_type(input_shapes, dims_c=..., **module_args)]; [module_args]
    is part of the closure. *)
Definition module_ctor :=
  list dims_item → option (list shape) → result module_obj.

(** The attributes of a constructed node.  [inputs] holds (producer,
    output slot), the slot being the value the specification gave;
    [outputs] holds (consumer, input channel). *)
Record node_obj := {
  cls : node_class;
  name : string;
  dims : shape;
  inputs : list (node_ref * pyval);
  conditions : list node_ref;
  outputs : list (node_ref * Z);
  input_dims : list dims_item;
  condition_dims : list shape;
  output_dims : list shape;
  module : option module_obj
}.

Definition heap := node_ref → node_obj.

(** The heap with the next unused reference. *)
Record store := { fresh : node_ref; obj : heap }.

Definition set_outputs (o : node_obj) (outs : list (node_ref * Z)) : node_obj :=
  {| cls := cls o; name := name o; dims := dims o; inputs := inputs o;
     conditions := conditions o; outputs := outs;
     input_dims := input_dims o; condition_dims := condition_dims o;
     output_dims := output_dims o; module := module o |}.

Definition heap_set (h : heap) (r : node_ref) (o : node_obj) : heap :=
  λ r', if Nat.eqb r' r then o else h r'.

(** [Node.parse_inputs]: only the outer type, the length and the type
    of the first item are looked at. *)
Definition parse_inputs (self_name : string) (inputs : pyval) : result pyval :=
  match as_list_or_tuple inputs with
  | Some l =>
      match l with
      | [] => Ok inputs
      | first :: _ =>
          if bool_decide (is_Some (as_list_or_tuple first)) then Ok inputs
          else if (length l =? 2)%nat then Ok (VList [inputs])
          else Err (RuntimeError_CannotParse self_name)
      end
  | None =>
      match inputs with
      | VNode _ => Ok (VList [VTuple [inputs; VInt 0]])
      | _ => Err (AssertionError InvalidInputType)
      end
  end.




(** The rule with the slot read as the code reads it: any value of a
    type by which a list can be indexed, that is an integer, a slice or
    a tensor. *)
Definition is_index (v : pyval) : bool :=
  match v with
  | VInt _ | VSlice _ _ _ | VTensor _ => true
  | _ => false
  end.

Definition is_index_pair (v : pyval) : bool :=
  match as_list_or_tuple v with
  | Some [VNode _; idx] => is_index idx
  | _ => false
  end.

Definition is_index_pair_list (v : pyval) : bool :=
  match as_list_or_tuple v with
  | Some items => forallb is_index_pair items
  | None => false
  end.

Definition accepted_inputs (spec : pyval) : option pyval :=
  match spec with
  | VNode n => Some (VList [VTuple [VNode n; VInt 0]])
  | _ =>
      if is_index_pair spec then Some (VList [spec])
      else if is_index_pair_list spec then Some spec
      else None
  end.

(** [v.output_dims] for an arbitrary value: only nodes have it. *)
Definition attr_output_dims (h : heap) (v : pyval) : result (list shape) :=
  match v with
  | VNode n => Ok (output_dims (h n))
  | _ => Err (AttributeError "output_dims")
  end.

(** [ds[i]] where the index is an arbitrary value: an integer, a tensor
    that converts to one, or a slice; anything else is a [TypeError]. *)
Definition py_getitem (ds : list shape) (i : pyval) : result dims_item :=
  match i with
  | VInt z => do d <- py_index ds z; Ok (OneShape d)
  | VTensor t =>
      match tensor_index t with
      | Some z => do d <- py_index ds z; Ok (OneShape d)
      | None => Err TypeError
      end
  | VSlice start stop step =>
      do l <- py_slice ds start stop step; Ok (ShapeList l)
  | _ => Err TypeError
  end.

(** One item of the comprehension over [self.inputs]:
    [input_node, node_out_idx = item] and
    [input_node.output_dims[node_out_idx]]. *)
Definition resolve_input (h : heap) (item : pyval)
  : result (node_ref * pyval * dims_item) :=
  do (input_node, node_out_idx) <- py_unpack2 item;
  do ds <- attr_output_dims h input_node;
  do d <- py_getitem ds node_out_idx;
  match input_node with
  | VNode n => Ok (n, node_out_idx, d)
  | _ => Err TypeError
  end.

Definition resolve_inputs (h : heap) (inputs : pyval)
  : result (list (node_ref * pyval * dims_item)) :=
  do items <- py_iter inputs;
  mapM (resolve_input h) items.

(** [conditions] normalised as in [__init__]. *)
Definition normalize_conditions (conditions : pyval) : list pyval :=
  match conditions with
  | VNone => []
  | VList l | VTuple l => l
  | c => [c]
  end.

Definition resolve_condition (h : heap) (c : pyval) : result (node_ref * shape) :=
  do ds <- attr_output_dims h c;
  do d <- py_index ds 0;
  match c with
  | VNode n => Ok (n, d)
  | _ => Err TypeError
  end.

(** [build_module], dispatched on the class. *)
Definition build_module (c : node_class) (self_dims : shape)
    (module_type : option module_ctor) (n_conditions : nat)
    (condition_shapes : list shape) (input_shapes : list dims_item)
  : result (option module_obj * list shape) :=
  match c with
  | ClsNode =>
      match module_type with
      | None => Err TypeError
      | Some ctor =>
          do m <- ctor input_shapes
                    (if (0 <? n_conditions)%nat then Some condition_shapes else None);
          do ods <- module_output_dims m input_shapes;
          Ok (Some m, ods)
      end
  | ClsInputNode | ClsConditionNode =>
      if (0 <? length condition_shapes)%nat then Err ValueError_NoConditions
      else if negb (length input_shapes =? 0)%nat
           then Err (AssertionError ForbiddenByConstructor)
           else Ok (None, [self_dims])
  | ClsOutputNode =>
      if (0 <? length condition_shapes)%nat then Err ValueError_NoConditions
      else Ok (None, [])
  end.

(** [in_node.outputs.append((self, in_idx))] for every input, in order. *)
Fixpoint notify_producers (h : heap) (self : node_ref) (in_idx : nat)
    (ins : list (node_ref * pyval)) : heap :=
  match ins with
  | [] => h
  | (in_node, _) :: rest =>
      let o := h in_node in
      let h' := heap_set h in_node
                  (set_outputs o (outputs o ++ [(self, Z.of_nat in_idx)])) in
      notify_producers h' self (S in_idx) rest
  end.

(** [Node.__init__].  [id_name] is [hex(id(self))[-6:]], taken when no
    non-empty name is given. *)
Definition Node_init (s : store) (c : node_class) (self_dims : shape)
    (inputs_spec : pyval) (module_type : option module_ctor)
    (conditions_spec : pyval) (name_arg : option string) (id_name : string)
  : result (store * node_ref) :=
  let self := fresh s in
  let self_name :=
    match name_arg with
    | Some (String a b) => String a b
    | _ => id_name
    end in
  do parsed <- parse_inputs self_name inputs_spec;
  let conds := normalize_conditions conditions_spec in
  do ins <- resolve_inputs (obj s) parsed;
  do cs <- mapM (resolve_condition (obj s)) conds;
  let input_shapes := map snd ins in
  let condition_shapes := map snd cs in
  do (m, ods) <- build_module c self_dims module_type (length conds)
                    condition_shapes input_shapes;
  let me := {| cls := c; name := self_name; dims := self_dims;
               inputs := map fst ins; conditions := map fst cs;
               outputs := []; input_dims := input_shapes;
               condition_dims := condition_shapes; output_dims := ods;
               module := m |} in
  let h := notify_producers (heap_set (obj s) self me) self 0 (map fst ins) in
  Ok ({| fresh := S self; obj := h |}, self).

(** The three subclasses pass fixed arguments to [Node.__init__]. *)
Definition InputNode_init (s : store) (self_dims : shape)
    (name_arg : option string) (id_name : string) :=
  Node_init s ClsInputNode self_dims (VList []) None VNone name_arg id_name.

Definition ConditionNode_init (s : store) (self_dims : shape)
    (name_arg : option string) (id_name : string) :=
  Node_init s ClsConditionNode self_dims (VList []) None VNone name_arg id_name.

Definition OutputNode_init (s : store) (inputs_spec : pyval)
    (name_arg : option string) (id_name : string) :=
  Node_init s ClsOutputNode [] inputs_spec None VNone name_arg id_name.
End Nodes.
Arguments module_obj : clear implicits.
Arguments module_ctor : clear implicits.
Arguments node_obj : clear implicits.
Arguments heap : clear implicits.
Arguments store : clear implicits.

(** ** Attribute access on a node *)

Section Attributes.
Context {tensor : Type} `{!TensorOps tensor}.
Abbreviation pyval := (pyval tensor).

Definition reify_shape (s : shape) : pyval := VTuple (map VInt s).

Definition reify_dims (d : dims_item) : pyval :=
  match d with
  | OneShape s => reify_shape s
  | ShapeList ds => VList (map reify_shape ds)
  end.

Definition reify_inputs (l : list (node_ref * pyval)) : pyval :=
  VList (map (λ e, VTuple [VNode (fst e); snd e]) l).

Definition reify_edges (l : list (node_ref * Z)) : pyval :=
  VList (map (λ e, VTuple [VNode (fst e); VInt (snd e)]) l).

(** ['out{0}'.format(k)] *)
Definition out_name (k : nat) : string := String.append "out" (py_str_nat k).

(** The pair [(n, k)] *)
Definition edge_ref (n : node_ref) (k : nat) : pyval :=
  VTuple [VNode n; VInt (Z.of_nat k)].

(** The loop [for i in range(256): exec('self.out{0} = (self, {0})'.format(i))]
    acting on the instance dictionary. *)
Definition exec_out_attrs (self : node_ref) (d : gmap string pyval)
  : gmap string pyval :=
  fold_left (λ d i, <[ out_name i := edge_ref self i ]> d) (seq 0 256) d.

(** The instance dictionary [__init__] leaves behind, assignments in
    source order.  Modules, module types and argument dictionaries are
    opaque objects. *)
Definition instance_dict (h : heap tensor) (self : node_ref)
  : gmap string pyval :=
  let o := h self in
  let opaque (present : bool) (what : string) : pyval :=
    if present then VObject what else VNone in
  let d0 : gmap string pyval :=
    match cls o with
    | ClsInputNode | ClsConditionNode => {[ "dims" := reify_shape (dims o) ]}
    | _ => ∅
    end in
  let d1 := <[ "name" := VStr (name o) ]> d0 in
  let d2 := exec_out_attrs self d1 in
  let d3 := <[ "inputs" := reify_inputs (inputs o) ]> d2 in
  let d4 := <[ "conditions" := VList (map VNode (conditions o)) ]> d3 in
  let d5 := <[ "outputs" := reify_edges (outputs o) ]> d4 in
  let d6 := <[ "module_type" := opaque (node_class_eqb (cls o) ClsNode) "module_type" ]> d5 in
  let d7 := <[ "module_args" := VObject "dict" ]> d6 in
  let d8 := <[ "input_dims" := VList (map reify_dims (input_dims o)) ]> d7 in
  let d9 := <[ "condition_dims" := VList (map reify_shape (condition_dims o)) ]> d8 in
  let d10 := <[ "module" := opaque (bool_decide (is_Some (module o))) "module" ]> d9 in
  <[ "output_dims" := VList (map reify_shape (output_dims o)) ]> d10.

(** [Node.__getattr__], called when the ordinary lookup finds nothing. *)
Definition Node_getattr (self : node_ref) (item : string) : result pyval :=
  if String.prefix "out" item then
    do k <- py_int (string_from 3 item);
    Ok (VTuple [VNode self; VInt k])
  else Err (AttributeError item).

(** [n.item]: the instance dictionary first, then [__getattr__].  (The
    methods defined on the class are not attributes of interest here and
    are left out.) *)
Definition Node_getattribute (h : heap tensor) (self : node_ref) (item : string)
  : result pyval :=
  match instance_dict h self !! item with
  | Some v => Ok v
  | None => Node_getattr self item
  end.
End Attributes.

(** ** The scheduler: [topological_order] *)

Section Scheduler.
Context {tensor : Type} `{!TensorOps tensor}.

(** The order in which a Python [set] of nodes is iterated.  It depends
    on the hashes of the node identities; the scheduler is defined for
    any order, and [elements] is one. *)
Variable set_iter : gset node_ref → list node_ref.
Variable h : heap tensor.

(** A dict from nodes to sets of nodes. *)
Abbreviation edge_map := (gmap node_ref (gset node_ref)).

(** [{node_a for node_a, out_idx in node_b.inputs}] *)
Definition producers (node_b : node_ref) : gset node_ref :=
  list_to_set (map fst (inputs (h node_b))).

(** [node_b] takes one of its inputs from [node_a]: a dependency edge. *)
Definition consumes (node_b node_a : node_ref) : Prop :=
  node_a ∈ producers node_b.

(** There is a path of dependency edges from one of [out_nodes] back to
    [node]. *)
Definition connected_to_output (out_nodes : list node_ref) (node : node_ref) : Prop :=
  ∃ out_node, out_node ∈ out_nodes ∧ rtc consumes out_node node.

(** [node] lies on a dependency cycle. *)
Definition on_cycle (node : node_ref) : Prop := tc consumes node node.

(** The dict comprehension over [all_nodes + out_nodes]. *)
Definition build_out_to_in (keys : list node_ref) : edge_map :=
  fold_left (λ m node_b, <[node_b := producers node_b]> m) keys ∅.

(** Reading a [defaultdict(set)]. *)
Definition dd_get (m : edge_map) (k : node_ref) : gset node_ref :=
  default ∅ (m !! k).

(** [edges_in_to_out[node_in].add(node_out)] *)
Definition dd_add (m : edge_map) (node_in node_out : node_ref) : edge_map :=
  <[node_in := {[node_out]} ∪ dd_get m node_in]> m.

(** The mirror map, filled from the items of [edges_out_to_in]. *)
Definition build_in_to_out (out_to_in : edge_map) : edge_map :=
  fold_left
    (λ m item, fold_left (λ m' node_in, dd_add m' node_in (fst item))
                 (set_iter (snd item)) m)
    (map_to_list out_to_in) ∅.

(** [s.remove(x)]: a [KeyError] when [x] is not in [s]. *)
Definition set_remove (s : gset node_ref) (x : node_ref) : result (gset node_ref) :=
  if bool_decide (x ∈ s) then Ok (s ∖ {[x]}) else Err KeyError.

(** [d[k]] on a plain dict. *)
Definition dict_get (m : edge_map) (k : node_ref) : result (gset node_ref) :=
  match m !! k with
  | Some s => Ok s
  | None => Err KeyError
  end.

Record kahn_state := {
  edges_out_to_in : edge_map;
  edges_in_to_out : edge_map;
  sorted_nodes : list node_ref;
  no_pending_edges : list node_ref
}.

(** The body of [for in_node in list(edges_out_to_in[node])]. *)
Definition release_edge (node : node_ref) (st : kahn_state) (in_node : node_ref)
  : result kahn_state :=
  do s1 <- dict_get (edges_out_to_in st) node;
  do s1' <- set_remove s1 in_node;
  do s2' <- set_remove (dd_get (edges_in_to_out st) in_node) node;
  Ok {| edges_out_to_in := <[node := s1']> (edges_out_to_in st);
        edges_in_to_out := <[in_node := s2']> (edges_in_to_out st);
        sorted_nodes := sorted_nodes st;
        no_pending_edges :=
          if (size s2' =? 0)%nat then no_pending_edges st ++ [in_node]
          else no_pending_edges st |}.

(** One iteration of the [while] loop, [node] just taken from the left of
    the queue [rest]. *)
Definition kahn_step (st : kahn_state) (node : node_ref) (rest : list node_ref)
  : result kahn_state :=
  let st1 := {| edges_out_to_in := edges_out_to_in st;
                edges_in_to_out := edges_in_to_out st;
                sorted_nodes := sorted_nodes st ++ [node];
                no_pending_edges := rest |} in
  do ins <- dict_get (edges_out_to_in st1) node;
  foldM (release_edge node) (set_iter ins) st1.

(** [while len(no_pending_edges) > 0].  The fuel bounds the number of
    iterations; [kahn_fuel] below is always enough. *)
Fixpoint kahn (fuel : nat) (st : kahn_state) : result kahn_state :=
  match fuel with
  | O => Ok st
  | S fuel' =>
      match no_pending_edges st with
      | [] => Ok st
      | node :: rest => do st' <- kahn_step st node rest; kahn fuel' st'
      end
  end.

(** What the loop maintains: the keys of [edges_out_to_in] never change,
    its sets only shrink, and every node in the result or in the queue
    is a key (once taken from the queue) and satisfies [R], a property
    that passes from a node to its producers. *)
Definition kahn_inv (K : gset node_ref) (R : node_ref → Prop) (st : kahn_state) : Prop :=
  dom (edges_out_to_in st) = K
  ∧ (∀ k s, edges_out_to_in st !! k = Some s → s ⊆ producers k)
  ∧ (∀ n, n ∈ sorted_nodes st → n ∈ K ∧ R n)
  ∧ (∀ n, n ∈ no_pending_edges st → R n).

(** [sum(map(len, m.values()))] *)
Definition edge_count (m : edge_map) : nat :=
  map_fold (λ _ s acc, (size s + acc)%nat) 0%nat m.

(** Every iteration takes a node from the queue and adds at most one for
    every edge it removes from [edges_out_to_in]. *)
Definition kahn_fuel (st : kahn_state) : nat :=
  S (length (no_pending_edges st) + edge_count (edges_out_to_in st)).

(** [for in_node in in_nodes: assert in_node in sorted_nodes] *)
Definition assert_connected (in_nodes sorted : list node_ref) : result unit :=
  foldM (λ _ in_node,
           if bool_decide (in_node ∈ sorted) then Ok tt
           else Err (AssertionError (NotConnected in_node)))
        in_nodes tt.

Definition kahn_init (all_nodes out_nodes : list node_ref) : kahn_state :=
  let out_to_in := build_out_to_in (all_nodes ++ out_nodes) in
  {| edges_out_to_in := out_to_in;
     edges_in_to_out := build_in_to_out out_to_in;
     sorted_nodes := [];
     no_pending_edges := out_nodes |}.

Definition topological_order (all_nodes in_nodes out_nodes : list node_ref)
  : result (list node_ref) :=
  let st0 := kahn_init all_nodes out_nodes in
  do st <- kahn (kahn_fuel st0) st0;
  do _ <- assert_connected in_nodes (sorted_nodes st);
  if (edge_count (edges_in_to_out st) =? 0)%nat then Ok (rev (sorted_nodes st))
  else Err ValueError_Cyclic.
End Scheduler.

(** ** The graph container *)

(** A key of the edge-value table is a pair of an object and an integer;
    the object is a node or the graph net itself. *)
Inductive obj_ref := RefNode (n : node_ref) | RefSelf.

#[global] Instance obj_ref_eq_dec : EqDecision obj_ref.
Proof. solve_decision. Defined.

#[global] Instance obj_ref_countable : Countable obj_ref.
Proof.
  refine (inj_countable'
            (λ r, match r with RefNode n => Some n | RefSelf => None end)
            (λ o, match o with Some n => RefNode n | None => RefSelf end) _).
  intros []; reflexivity.
Defined.

(** The legacy arguments [ind_in] and [ind_out]: absent, one index, or a
    list of indices. *)
Inductive ind_spec := IndNone | IndInt (i : Z) | IndList (l : list Z).

Section GraphNet.
Context {tensor : Type} `{!TensorOps tensor}.
Abbreviation pyval := (pyval tensor).

(** Addition of tensors. *)
Variable tensor_add : tensor → tensor → tensor.
Variable set_iter : gset node_ref → list node_ref.
Variable h : heap tensor.

(** The attributes [__init__] assigns on the net.  [node_list] is read by
    [forward] and by the lookup helpers but is not among them: the
    attribute exists only if something else has set it. *)
Record graph_net := {
  in_nodes : list node_ref;
  condition_nodes : list node_ref;
  out_nodes : list node_ref;
  force_tuple_output : bool;
  dims_in : list shape;
  dims_c : list dims_item;
  global_out_shapes : list dims_item;
  module_list : list (option (module_obj tensor));
  node_list : option (list node_ref)
}.

(** The nodes picked by explicit indices, or else those of class [c]. *)
Definition boundary_nodes (nodes : list node_ref) (ind : ind_spec) (c : node_class)
  : result (list node_ref) :=
  match ind with
  | IndNone => Ok (filter (λ n, node_class_eqb (cls (h n)) c = true) nodes)
  | IndInt i => mapM (py_index nodes) [i]
  | IndList l => mapM (py_index nodes) l
  end.

(** [ReversibleGraphNet.__init__].  The parent constructor, which is not
    part of this file, receives the two shape lists. *)
Definition ReversibleGraphNet_init (nodes : list node_ref)
    (ind_in ind_out : ind_spec) (force_tuple : bool) : result graph_net :=
  do ins <- boundary_nodes nodes ind_in ClsInputNode;
  if negb (0 <? length ins)%nat then Err (AssertionError NoInputNodes) else
  do outs <- boundary_nodes nodes ind_out ClsOutputNode;
  if negb (0 <? length outs)%nat then Err (AssertionError NoOutputNodes) else
  let conds := filter (λ n, node_class_eqb (cls (h n)) ClsConditionNode = true) nodes in
  do sorted <- topological_order set_iter h ins nodes outs;
  do global_in_shapes <- mapM (λ n, py_index (output_dims (h n)) 0) ins;
  do global_out <- mapM (λ n, py_index (input_dims (h n)) 0) outs;
  do global_cond_shapes <- mapM (λ n, py_index (input_dims (h n)) 0) conds;
  Ok {| in_nodes := ins;
        condition_nodes := conds;
        out_nodes := outs;
        force_tuple_output := force_tuple;
        dims_in := global_in_shapes;
        dims_c := global_cond_shapes;
        global_out_shapes := global_out;
        module_list := map (λ n, module (h n)) sorted;
        node_list := None |}.

(** *** Execution *)

Abbreviation table := (gmap (obj_ref * Z) pyval).

(** [outs[k]] *)
Definition table_get (outs : table) (k : obj_ref * Z) : result pyval :=
  match outs !! k with
  | Some v => Ok v
  | None => Err KeyError
  end.

(** [outs[prev_node, channel]] for a channel that is an arbitrary
    value: every key of the table ends in an integer, so any other
    channel is a [KeyError], or a [TypeError] if it cannot be hashed. *)
Definition table_lookup (outs : table) (prev_node : node_ref) (channel : pyval)
  : result pyval :=
  match channel with
  | VInt k => table_get outs (RefNode prev_node, k)
  | _ => if hashable channel then Err KeyError else Err TypeError
  end.

(** [for tensor, node in zip(tensors, nodes): outs[node, 0] = tensor] *)
Definition seed_table (outs : table) (tensors : list pyval) (nodes : list node_ref)
  : table :=
  fold_left (λ t p, <[(RefNode (snd p), 0) := fst p]> t) (combine tensors nodes) outs.

(** The two seeding loops at the start of [forward]. *)
Definition seed (g : graph_net) (x_or_z c : list pyval) (rev : bool) : table :=
  let outs := seed_table ∅ x_or_z (if rev then out_nodes g else in_nodes g) in
  seed_table outs c (condition_nodes g).

(** [jacobian + mod_jac]: [None] has no addition, and tensors refuse it. *)
Definition py_add (a b : pyval) : result pyval :=
  match a, b with
  | VTensor x, VTensor y => Ok (VTensor (tensor_add x y))
  | _, _ => Err TypeError
  end.

(** [for out_idx, out_value in enumerate(out): outs[self, out_idx] = out_value] *)
Fixpoint write_outputs (outs : table) (out_idx : nat) (out : list pyval) : table :=
  match out with
  | [] => outs
  | out_value :: rest =>
      write_outputs (<[(RefSelf, Z.of_nat out_idx) := out_value]> outs) (S out_idx) rest
  end.

(** The checks on the Jacobian a module returned. *)
Definition check_jacobian (node : node_ref) (jac : bool) (mod_jac : pyval)
  : result unit :=
  if negb (is_tensor mod_jac) then
    if jac then Err (ValueError_Contract node JacobianNotTensor)
    else if negb jac && negb (is_none mod_jac)
         then Err (ValueError_Contract node JacobianNeitherNoneNorTensor)
         else Ok tt
  else Ok tt.

(** The body of the loop over the node list. *)
Definition visit (rev jac : bool) (st : table * pyval) (node : node_ref)
  : result (table * pyval) :=
  let '(outs, jacobian) := st in
  let o := h node in
  let has_condition := (0 <? length (conditions o))%nat in
  do mod_in <- mapM (λ e, table_lookup outs (fst e) (snd e))
                 (if rev then map (λ e, (fst e, VInt (snd e))) (outputs o)
                  else inputs o);
  do mod_c <- mapM (λ cond_node, table_get outs (RefNode cond_node, 0))
                (conditions o);
  do m <- match module o with
          | Some m => Ok m
          | None => Err TypeError
          end;
  do mod_out <- call m mod_in (if has_condition then Some mod_c else None) rev jac;
  if is_tensor mod_out then Err (ValueError_Contract node ReturnedTensorOnly) else
  do n <- py_len mod_out;
  if negb (n =? 2)%nat then Err (ValueError_Contract node (PairLengthMismatch n)) else
  do (out, mod_jac) <- py_unpack2 mod_out;
  if is_tensor out then Err (ValueError_Contract node OutputIsTensor) else
  do k <- py_len out;
  let expected := if rev then length (inputs o) else length (outputs o) in
  if negb (k =? expected)%nat
  then Err (ValueError_Contract node (OutputCountMismatch k expected)) else
  do _ <- check_jacobian node jac mod_jac;
  do items <- py_iter out;
  let outs' := write_outputs outs 0 items in
  do jacobian' <- (if jac then py_add jacobian mod_jac else Ok jacobian);
  Ok (outs', jacobian').

(** What [forward] returns. *)
Inductive forward_result :=
| ReturnTable (outs : table) (jacobian : pyval)
| ReturnSingle (out : pyval) (jacobian : pyval)
| ReturnTuple (out_list : list pyval) (jacobian : pyval).

(** [self.node_list] *)
Definition get_node_list (g : graph_net) : result (list node_ref) :=
  match node_list g with
  | Some l => Ok l
  | None => Err (AttributeError "node_list")
  end.

(** [ReversibleGraphNet.forward] *)
Definition forward (g : graph_net) (x_or_z c : list pyval)
    (rev jac intermediate_outputs : bool) : result forward_result :=
  let jacobian := VNone in
  let outs := seed g x_or_z c rev in
  do nodes <- get_node_list g;
  do (outs', jacobian') <-
     foldM (visit rev jac) (if rev then List.rev nodes else nodes) (outs, jacobian);
  if intermediate_outputs then Ok (ReturnTable outs' jacobian')
  else
    do out_list <- mapM (λ out_node, table_get outs' (RefNode out_node, 0))
                     (out_nodes g);
    match out_list with
    | [single] =>
        if negb (force_tuple_output g) then Ok (ReturnSingle single jacobian')
        else Ok (ReturnTuple out_list jacobian')
    | _ => Ok (ReturnTuple out_list jacobian')
    end.

(** [net.forward(x_or_z, c, ...)] for arbitrary argument values: each
    [zip] asks its first argument for an iterator, the first seeding
    loop running before the second [zip] is built. *)
Definition forward_call (g : graph_net) (x_or_z c : pyval)
    (rev jac intermediate_outputs : bool) : result forward_result :=
  do xs <- py_iter x_or_z;
  do cs <- py_iter c;
  forward g xs cs rev jac intermediate_outputs.
End GraphNet.
Arguments graph_net : clear implicits.
Arguments forward_result : clear implicits.

(** ** Example graphs

    Tensors are integers here, standing for scalars of floating-point
    data: they neither index a list nor iterate.  The stores are built
    with the node constructors, in the order a user would write them. *)

Module Examples.

#[export] Instance scalar_tensors : TensorOps Z :=
  {| tensor_index := λ _, None; tensor_rows := λ _, None |}.

Definition blank_node : node_obj Z :=
  {| cls := ClsNode; name := ""; dims := []; inputs := []; conditions := [];
     outputs := []; input_dims := []; condition_dims := []; output_dims := [];
     module := None |}.

Definition empty_store : store Z := {| fresh := 0%nat; obj := λ _, blank_node |}.

(** The shape inference of the example modules: the input shapes, when
    each of them is one shape. *)
Definition same_shapes (ds : list dims_item) : result (list shape) :=
  mapM (λ d, match d with
             | OneShape s => Ok s
             | ShapeList _ => Err TypeError
             end) ds.

(** Doubling a tensor, or halving it in reverse. *)
Definition scale (rev : bool) (v : pyval Z) : pyval Z :=
  match v with
  | VTensor t => VTensor (if rev then t / 2 else 2 * t)
  | _ => v
  end.

(** The scale-by-2 module: Jacobian 7 forward and -7 in reverse when
    asked for one, [None] otherwise. *)
Definition scale_module : module_obj Z :=
  {| call := λ xs _ rev jac,
       Ok (VTuple [VTuple (map (scale rev) xs);
                   if jac then VTensor (if rev then -7 else 7) else VNone]);
     module_output_dims := same_shapes;
     is_graph_net := false |}.

(** The same module returning its Jacobian whether asked or not. *)
Definition eager_module : module_obj Z :=
  {| call := λ xs _ rev _,
       Ok (VTuple [VTuple (map (scale rev) xs); VTensor (if rev then -7 else 7)]);
     module_output_dims := same_shapes;
     is_graph_net := false |}.

Definition store_of {A} (r : result (store Z * A)) : store Z :=
  match r with
  | Ok (s, _) => s
  | Err _ => empty_store
  end.

(** [a = InputNode(2); o = OutputNode(a)] *)
Definition build_direct : result (store Z * node_ref) :=
  do (s1, a) <- InputNode_init empty_store [2] (Some "a") "000000";
  OutputNode_init s1 (VNode a) (Some "o") "000001".

Definition direct_heap : heap Z := obj (store_of build_direct).

(** [a = InputNode(2); t = Node(a, m, {}); o = OutputNode(t)], references
    0, 1 and 2. *)
Definition build_chain (m : module_obj Z) : result (store Z * node_ref) :=
  do (s1, a) <- InputNode_init empty_store [2] (Some "a") "000000";
  do (s2, t) <- Node_init s1 ClsNode [] (VNode a) (Some (λ _ _, Ok m)) VNone
                  (Some "t") "000001";
  OutputNode_init s2 (VNode t) (Some "o") "000002".

Definition chain_heap : heap Z := obj (store_of (build_chain scale_module)).

(** [a = InputNode(2); b = InputNode(2); t = Node(b, m, {});
    o = OutputNode(t)]: the input [a] feeds nothing. *)
Definition build_stray : result (store Z * node_ref) :=
  do (s1, a) <- InputNode_init empty_store [2] (Some "a") "000000";
  do (s2, b) <- InputNode_init s1 [2] (Some "b") "000001";
  do (s3, t) <- Node_init s2 ClsNode [] (VNode b) (Some (λ _ _, Ok scale_module))
                  VNone (Some "t") "000002";
  OutputNode_init s3 (VNode t) (Some "o") "000003".

Definition stray_heap : heap Z := obj (store_of build_stray).

(** [a = InputNode(2); t1 = Node(a, ...); t2 = Node(t1, ...);
    o = OutputNode(t2)], after which [t1.inputs] is reassigned to
    [[(a, 0), (t2, 0)]]: the nodes 1 and 2 now feed each other. *)
Definition build_two_step : result (store Z * node_ref) :=
  do (s1, a) <- InputNode_init empty_store [2] (Some "a") "000000";
  do (s2, t1) <- Node_init s1 ClsNode [] (VNode a) (Some (λ _ _, Ok scale_module))
                   VNone (Some "t1") "000001";
  do (s3, t2) <- Node_init s2 ClsNode [] (VNode t1) (Some (λ _ _, Ok scale_module))
                   VNone (Some "t2") "000002";
  OutputNode_init s3 (VNode t2) (Some "o") "000003".

Definition set_inputs (o : node_obj Z) (ins : list (node_ref * pyval Z))
  : node_obj Z :=
  {| cls := cls o; name := name o; dims := dims o; inputs := ins;
     conditions := conditions o; outputs := outputs o;
     input_dims := input_dims o; condition_dims := condition_dims o;
     output_dims := output_dims o; module := module o |}.

Definition cyclic_heap : heap Z :=
  let h := obj (store_of build_two_step) in
  heap_set h 1%nat (set_inputs (h 1%nat) [(0%nat, VInt 0); (2%nat, VInt 0)]).

(** [a = InputNode(2); t = Node(a, ...); o = OutputNode(t);
    t1 = Node(a, ...); t2 = Node(t1, ...)], after which [t1.inputs] is
    reassigned to [[(t2, 0)]]: beside the chain from the input to the
    output, the nodes 3 and 4 feed each other. *)
Definition build_side : result (store Z * node_ref) :=
  do (s1, a) <- InputNode_init empty_store [2] (Some "a") "000000";
  do (s2, t) <- Node_init s1 ClsNode [] (VNode a) (Some (λ _ _, Ok scale_module))
                  VNone (Some "t") "000001";
  do (s3, o) <- OutputNode_init s2 (VNode t) (Some "o") "000002";
  do (s4, t1) <- Node_init s3 ClsNode [] (VNode a) (Some (λ _ _, Ok scale_module))
                   VNone (Some "t1") "000003";
  Node_init s4 ClsNode [] (VNode t1) (Some (λ _ _, Ok scale_module))
    VNone (Some "t2") "000004".

Definition side_cycle_heap : heap Z :=
  let h := obj (store_of build_side) in
  heap_set h 3%nat (set_inputs (h 3%nat) [(4%nat, VInt 0)]).

(** The net object for the chain [0 -> 1 -> 2] whose [node_list]
    attribute has been set, after construction, to [walk]. *)
Definition chain_net (h : heap Z) (walk : list node_ref) : graph_net Z :=
  {| in_nodes := [0%nat]; condition_nodes := []; out_nodes := [2%nat];
     force_tuple_output := false;
     dims_in := [[2]]; dims_c := []; global_out_shapes := [OneShape [2]];
     module_list := map (λ n, module (h n)) [0%nat; 1%nat; 2%nat];
     node_list := Some walk |}.

End Examples.

(** ** Lookup by name *)

Section Lookup.
Context {tensor : Type} `{!TensorOps tensor}.
Variable h : heap tensor.

(** [ReversibleGraphNet.get_node_by_name] *)
Definition get_node_by_name (g : graph_net tensor) (nm : string)
  : result (option node_ref) :=
  do nodes <- get_node_list g;
  Ok (List.find (λ node, String.eqb (name (h node)) nm) nodes).

(** [ReversibleGraphNet.get_module_by_name]: the lookup of the node is
    outside the [try]; [None.module] raises the [AttributeError] that the
    [except] turns into [None]. *)
Definition get_module_by_name (g : graph_net tensor) (nm : string)
  : result (option (module_obj tensor)) :=
  do node <- get_node_by_name g nm;
  match node with
  | Some n => Ok (module (h n))
  | None => Ok None
  end.
End Lookup.

(** The second component of what [forward] returns. *)
Definition returned_jacobian {tensor : Type} (r : forward_result tensor)
  : pyval tensor :=
  match r with
  | ReturnTable _ jacobian | ReturnSingle _ jacobian | ReturnTuple _ jacobian =>
      jacobian
  end.

(** ** What the scheduler's loop maintains about the order *)

Section OrderInvariants.
Context {tensor : Type} `{!TensorOps tensor}.
Variable h : heap tensor.

(** [edges_in_to_out] mirrors [edges_out_to_in]. *)
Definition mirrored (st : kahn_state) : Prop :=
  ∀ a b, b ∈ dd_get (edges_in_to_out st) a
         ↔ ∃ s, edges_out_to_in st !! b = Some s ∧ a ∈ s.

(** The nodes in the order they are or will be appended to the result. *)
Definition timeline (st : kahn_state) : list node_ref :=
  sorted_nodes st ++ no_pending_edges st.

(** [a] still has a consumer whose edge has not been removed. *)
Definition pending (st : kahn_state) (a : node_ref) : Prop :=
  dd_get (edges_in_to_out st) a ≠ ∅.

(** For the keys [K] and seeds [O]: the maps mirror each other; a key
    whose set has been touched is in the result; an edge that has been
    removed has its consumer on the timeline, with the producer later on
    the timeline or still pending; the seeds are on the timeline. *)
Definition order_inv (K : gset node_ref) (O : list node_ref) (st : kahn_state) : Prop :=
  mirrored st
  ∧ (∀ b, b ∈ K →
       edges_out_to_in st !! b = Some (producers h b) ∨ b ∈ sorted_nodes st)
  ∧ (∀ b a, b ∈ K → a ∈ producers h b →
       (∃ s, edges_out_to_in st !! b = Some s ∧ a ∈ s)
       ∨ ∃ pre post, timeline st = pre ++ b :: post ∧ (a ∈ post ∨ pending st a))
  ∧ (∀ o, o ∈ O → o ∈ timeline st).

(** The keys of the dependency map. *)
Definition key_set (all_nodes out_nodes : list node_ref) : gset node_ref :=
  list_to_set (all_nodes ++ out_nodes).

(** Everything the loop maintains when the keys are closed under
    producers: besides [kahn_inv] and [order_inv], the set of every node
    in the result is empty between iterations, and a node that some key
    consumes is pending or on the timeline. *)
Definition traversal_inv (K : gset node_ref) (O : list node_ref) (st : kahn_state) : Prop :=
  kahn_inv h K (λ n, n ∈ K) st
  ∧ order_inv K O st
  ∧ (∀ b, b ∈ sorted_nodes st → edges_out_to_in st !! b = Some ∅)
  ∧ (∀ a b, b ∈ K → a ∈ producers h b → pending st a ∨ a ∈ timeline st).

(** No node is on the timeline twice, and none on it is pending. *)
Definition once_inv (st : kahn_state) : Prop :=
  NoDup (timeline st) ∧ ∀ x, x ∈ timeline st → dd_get (edges_in_to_out st) x = ∅.
End OrderInvariants.

(** ** Stores built by the constructors *)

Section StoreInvariant.
Context {tensor : Type} `{!TensorOps tensor}.

(** A cell no constructor has written yet. *)
Definition unallocated (o : node_obj tensor) : Prop :=
  output_dims o = [] ∧ inputs o = [] ∧ outputs o = [].

(** Cells from [fresh] on are unallocated; every input refers to an
    earlier node; and the recorded consumers are exactly the inputs:
    [(c, i)] is among the outputs of [p] if and only if input [i] of [c]
    comes from [p]. *)
Definition wf_store (s : store tensor) : Prop :=
  (∀ c, (fresh s ≤ c)%nat → unallocated (obj s c))
  ∧ (∀ c e, e ∈ inputs (obj s c) → (fst e < c)%nat)
  ∧ (∀ p c i, (c, i) ∈ outputs (obj s p)
       ↔ 0 ≤ i ∧ ∃ k, inputs (obj s c) !! Z.to_nat i = Some (p, k)).

(** The nodes a value names. *)
Fixpoint node_refs (v : pyval tensor) : list node_ref :=
  match v with
  | VNode n => [n]
  | VList l | VTuple l => flat_map node_refs l
  | _ => []
  end.

(** Every node the value names has been built.  A Python value cannot
    name an object that does not exist yet. *)
Definition well_scoped (s : store tensor) (v : pyval tensor) : Prop :=
  ∀ n, n ∈ node_refs v → (n < fresh s)%nat.

(** The stores the constructors build: from a store without nodes, by
    calls of [Node.__init__] on specifications that name nodes built
    before. *)
Inductive built : store tensor → Prop :=
| built_empty s :
    fresh s = 0%nat → (∀ c, unallocated (obj s c)) → built s
| built_node s c self_dims spec mt conds nm idn s' r :
    built s → well_scoped s spec →
    Node_init s c self_dims spec mt conds nm idn = Ok (s', r) →
    built s'.

(** What the constructors establish of a node's attributes: one input
    shape for every input, and for an input node no input and exactly
    one output shape. *)
Definition attrs_ok (o : node_obj tensor) : Prop :=
  length (input_dims o) = length (inputs o)
  ∧ (cls o = ClsInputNode → inputs o = [] ∧ length (output_dims o) = 1%nat).
End StoreInvariant.

(** ** More example graphs *)

Module MoreExamples.
Import Examples.

(** The store after [a = InputNode(2)]. *)
Definition input_store : store Z :=
  store_of (InputNode_init empty_store [2] (Some "a") "000000").

(** The store after [a = InputNode(2); o = OutputNode(a)]. *)
Definition direct_store : store Z :=
  store_of (OutputNode_init input_store (VNode 0%nat) (Some "o") "000001").

(** The store after [a = InputNode(2); t = Node(a, m, {})]. *)
Definition node_store : store Z :=
  store_of (Node_init input_store ClsNode [] (VNode 0%nat)
              (Some (λ _ _, Ok scale_module)) VNone (Some "t") "000001").

(** The store of the chain [0 -> 1 -> 2]. *)
Definition chain_store : store Z :=
  store_of (OutputNode_init node_store (VNode 1%nat) (Some "o") "000002").

(** [a = InputNode(2); t = Node(a, m, {}); o = OutputNode(a)]: the node
    [t] feeds nothing. *)
Definition build_dead_end : result (store Z * node_ref) :=
  do (s1, a) <- InputNode_init empty_store [2] (Some "a") "000000";
  do (s2, t) <- Node_init s1 ClsNode [] (VNode a) (Some (λ _ _, Ok scale_module))
                  VNone (Some "t") "000001";
  OutputNode_init s2 (VNode a) (Some "o") "000002".

Definition dead_end_heap : heap Z := obj (store_of build_dead_end).

(** [a = InputNode(2); c = ConditionNode(3); t = Node(a, m, {},
    conditions=c); o = OutputNode(t)] *)
Definition build_conditioned : result (store Z * node_ref) :=
  do (s1, a) <- InputNode_init empty_store [2] (Some "a") "000000";
  do (s2, c) <- ConditionNode_init s1 [3] (Some "c") "000001";
  do (s3, t) <- Node_init s2 ClsNode [] (VNode a) (Some (λ _ _, Ok scale_module))
                  (VNode c) (Some "t") "000002";
  OutputNode_init s3 (VNode t) (Some "o") "000003".

Definition conditioned_heap : heap Z := obj (store_of build_conditioned).

End MoreExamples.

(** * Properties *)

(** ** The error monad *)

Lemma bind_Ok {A B} (m : result A) (k : A → result B) (b : B) :
  bind m k = Ok b → ∃ a, m = Ok a ∧ k a = Ok b.
Proof. destruct m as [a|e]; simpl; [eauto | discriminate]. Qed.

Lemma bind_Err {A B} (m : result A) (k : A → result B) (e : pyerr) :
  bind m k = Err e → m = Err e ∨ ∃ a, m = Ok a ∧ k a = Err e.
Proof. destruct m as [a|e']; simpl; [eauto | intros [= ->]; auto]. Qed.

Ltac inv_bind H :=
  let a := fresh "a" in
  let Ha := fresh "Ha" in
  apply bind_Ok in H as (a & Ha & H).

Lemma mapM_Ok_length {A B} (f : A → result B) xs ys :
  mapM f xs = Ok ys → length ys = length xs.
Proof.
  revert ys; induction xs as [|x xs IH]; intros ys H; simpl in H.
  - by injection H as <-.
  - inv_bind H. inv_bind H. injection H as <-. simpl. f_equal. by apply IH.
Qed.

Lemma mapM_Ok_Forall2 {A B} (f : A → result B) xs ys :
  mapM f xs = Ok ys → Forall2 (λ x y, f x = Ok y) xs ys.
Proof.
  revert ys; induction xs as [|x xs IH]; intros ys H; simpl in H.
  - injection H as <-. constructor.
  - inv_bind H. inv_bind H. injection H as <-. constructor; auto.
Qed.

Lemma mapM_Forall2_Ok {A B} (f : A → result B) xs ys :
  Forall2 (λ x y, f x = Ok y) xs ys → mapM f xs = Ok ys.
Proof.
  induction 1 as [|x y xs ys Hxy _ IH]; simpl; [done|].
  by rewrite Hxy, IH.
Qed.

(** ** [str] and [int] *)

Lemma uint_digits (d : Decimal.uint) :
  Forall is_digit (list_ascii_of_string (NilEmpty.string_of_uint d)).
Proof.
  induction d; simpl; constructor; try assumption; by eexists.
Qed.

Lemma digit_not_space c : is_digit c → is_space c = false.
Proof.
  unfold is_digit, digit_of, is_space. intros [d Hd].
  destruct (48 <=? nat_of_ascii c)%nat eqn:E1; [|discriminate].
  destruct (nat_of_ascii c <=? 57)%nat eqn:E2; [|discriminate].
  apply Nat.leb_le in E1. apply Nat.leb_le in E2.
  apply orb_false_iff; split.
  - apply Nat.eqb_neq. lia.
  - apply andb_false_iff. right. apply Nat.leb_gt. lia.
Qed.

Lemma digit_not_sign c :
  is_digit c → (nat_of_ascii c =? 45)%nat = false ∧ (nat_of_ascii c =? 43)%nat = false.
Proof.
  unfold is_digit, digit_of. intros [d Hd].
  destruct (48 <=? nat_of_ascii c)%nat eqn:E1; [|discriminate].
  apply Nat.leb_le in E1. split; apply Nat.eqb_neq; lia.
Qed.

Lemma drop_spaces_digits cs : Forall is_digit cs → drop_spaces cs = cs.
Proof.
  destruct 1 as [|c cs Hc _]; simpl; [done|].
  by rewrite (digit_not_space c Hc).
Qed.

Lemma strip_digits cs : Forall is_digit cs → strip cs = cs.
Proof.
  intros H. unfold strip. rewrite (drop_spaces_digits cs H).
  rewrite drop_spaces_digits; [apply rev_involutive|].
  apply Forall_forall. intros c Hc. apply list_elem_of_In, in_rev, list_elem_of_In in Hc.
  rewrite Forall_forall in H. auto.
Qed.

Lemma digits_value_uint (d : Decimal.uint) (b : bool) (acc : nat) :
  d ≠ Decimal.Nil ∨ b = true →
  digits_value b (list_ascii_of_string (NilEmpty.string_of_uint d)) acc
  = Some (Nat.of_uint_acc d acc).
Proof.
  revert b acc.
  induction d; intros b acc Hb;
    [ destruct Hb as [?| ->]; [done | reflexivity] | .. ];
    simpl NilEmpty.string_of_uint; simpl list_ascii_of_string;
    simpl Nat.of_uint_acc; rewrite Nat.tail_mul_spec;
    cbn [digits_value];
    match goal with
    | |- context [digit_of ?c] =>
        let v := eval vm_compute in (digit_of c) in change (digit_of c) with v
    end; cbv iota beta;
    (rewrite IHd by (by right)); f_equal; f_equal; lia.
Qed.

(** Reading back the decimal digits of [i] gives [i]. *)
Lemma py_int_str_nat (i : nat) : py_int (py_str_nat i) = Ok (Z.of_nat i).
Proof.
  unfold py_str_nat, NilZero.string_of_uint.
  pose proof (DecimalNat.Unsigned.of_to i) as Hi.
  destruct (Nat.to_uint i) as [| | | | | | | | | |] eqn:E;
    [ simpl in Hi; subst i; reflexivity | .. ];
    rewrite <- E in *; (assert (Hne : Nat.to_uint i ≠ Decimal.Nil) by (rewrite E; discriminate));
    clear E.
  all: unfold py_int.
  all: rewrite strip_digits by apply uint_digits.
  all: pose proof (uint_digits (Nat.to_uint i)) as HF.
  all: pose proof (digits_value_uint (Nat.to_uint i) false 0 (or_introl Hne)) as HV.
  all: destruct (list_ascii_of_string (NilEmpty.string_of_uint (Nat.to_uint i)))
         as [|c cs] eqn:Ecs; [simpl in HV; discriminate|].
  all: apply Forall_cons in HF as [Hc _].
  all: destruct (digit_not_sign c Hc) as [-> ->].
  all: rewrite HV; unfold Nat.of_uint in Hi; rewrite Hi; reflexivity.
Qed.

Lemma py_str_nat_inj (i j : nat) : py_str_nat i = py_str_nat j → i = j.
Proof.
  intros H. apply (f_equal py_int) in H. rewrite !py_int_str_nat in H.
  injection H as H. lia.
Qed.

(** ** Output-slot attributes *)

Section AttributeFacts.
Context {tensor : Type} `{!TensorOps tensor}.

Lemma out_name_unfold k :
  out_name k = String "o" (String "u" (String "t" (py_str_nat k))).
Proof. reflexivity. Qed.

Lemma out_name_inj i k : out_name i = out_name k → i = k.
Proof.
  rewrite !out_name_unfold. intros [= H]. by apply py_str_nat_inj.
Qed.

(** No attribute that [__init__] assigns by name is spelled like an
    output slot. *)
Lemma out_name_not_field (k : nat) (field : string) :
  field ∈ ["dims"; "name"; "inputs"; "conditions"; "outputs"; "module_type";
           "module_args"; "input_dims"; "condition_dims"; "module";
           "output_dims"] →
  field ≠ out_name k.
Proof.
  intros Hin Heq. subst field. rewrite out_name_unfold in Hin.
  repeat (apply elem_of_cons in Hin as [Hin|Hin];
          [ try discriminate Hin;
            injection Hin as Hin; apply (f_equal py_int) in Hin;
            rewrite py_int_str_nat in Hin; vm_compute in Hin; discriminate Hin
          | ]).
  by apply elem_of_nil in Hin.
Qed.

Lemma exec_out_attrs_lookup (self : node_ref) (l : list nat)
    (d : gmap string (pyval tensor)) (k : nat) (v : pyval tensor) :
  fold_left (λ d i, <[ out_name i := edge_ref self i ]> d) l d !! out_name k = Some v →
  d !! out_name k = Some v ∨ v = edge_ref self k.
Proof.
  revert d. induction l as [|i l IH]; intros d H; simpl in H; [by left|].
  apply IH in H as [H| ->]; [|by right].
  destruct (decide (i = k)) as [->|Hne].
  - rewrite lookup_insert_eq in H. injection H as <-. by right.
  - rewrite lookup_insert_ne in H; [by left|].
    intros Heq. by apply out_name_inj in Heq.
Qed.

Ltac field_name_differs :=
  apply out_name_not_field; apply list_elem_of_In; simpl; tauto.

Lemma instance_dict_out (h : heap tensor) (self : node_ref) (k : nat) (v : pyval tensor) :
  instance_dict h self !! out_name k = Some v → v = edge_ref self k.
Proof.
  unfold instance_dict, exec_out_attrs. cbv zeta.
  generalize (seq 0 256). intros l H.
  do 9 (rewrite lookup_insert_ne in H by field_name_differs).
  apply exec_out_attrs_lookup in H as [H|H]; [|done].
  rewrite lookup_insert_ne in H by field_name_differs.
  destruct (cls (h self));
    rewrite ?lookup_empty, ?lookup_singleton_ne in H by field_name_differs;
    discriminate.
Qed.

Lemma prefix_out (s : string) :
  String.prefix "out" (String "o" (String "u" (String "t" s))) = true.
Proof. destruct s; reflexivity. Qed.

Lemma Node_getattr_out (self : node_ref) (k : nat) :
  Node_getattr (tensor:=tensor) self (out_name k) = Ok (edge_ref self k).
Proof.
  unfold Node_getattr. rewrite out_name_unfold.
  rewrite prefix_out. cbn [string_from].
  by rewrite py_int_str_nat.
Qed.

(** C9.  For every node [n] of every heap and every natural number [k],
    the attribute [n.out<k>], with [k] written in decimal, evaluates to
    the pair [(n, k)].  Nothing is assumed about how many output slots
    [n] has: [output_dims (h n)] plays no part, so the pair is returned
    also when [k] is beyond the slots the node produces. *)
Theorem out_attribute_is_edge_ref (h : heap tensor) (n : node_ref) (k : nat) :
  Node_getattribute h n (out_name k) = Ok (edge_ref n k).
Proof.
  unfold Node_getattribute.
  destruct (instance_dict h n !! out_name k) as [v|] eqn:E.
  - by rewrite (instance_dict_out h n k v E).
  - apply Node_getattr_out.
Qed.
End AttributeFacts.

(** ** Canonical inputs *)

Section InputFacts.
Context {tensor : Type} `{!TensorOps tensor}.
Implicit Types (v spec item : pyval tensor) (h : heap tensor) (s : store tensor).

(** Only a list or tuple unpacks into a node and something else: the
    items of a string are strings, those of a tensor are tensors. *)
Lemma py_unpack2_node item n idx :
  py_unpack2 item = Ok (VNode n, idx) →
  as_list_or_tuple item = Some [VNode n; idx].
Proof.
  unfold py_unpack2. intros H. apply bind_Ok in H as (l & Hl & H).
  destruct l as [|x [|y [|? ?]]]; try discriminate H.
  injection H as -> ->.
  destruct item; try discriminate Hl; simpl in Hl.
  - injection Hl as Hl. destruct s as [|c1 [|c2 s]]; discriminate Hl.
  - destruct (tensor_rows t) as [[|r1 rows]|]; discriminate Hl.
  - by injection Hl as ->.
  - by injection Hl as ->.
Qed.

Lemma py_getitem_index (ds : list shape) v d :
  py_getitem ds v = Ok d → is_index v = true.
Proof. destruct v; done. Qed.

Lemma resolve_input_Ok h item n idx d :
  resolve_input h item = Ok (n, idx, d) →
  py_unpack2 item = Ok (VNode n, idx)
  ∧ py_getitem (output_dims (h n)) idx = Ok d.
Proof.
  unfold resolve_input. intros H.
  apply bind_Ok in H as ([a b] & Hu & H).
  apply bind_Ok in H as (ds & Hds & H).
  apply bind_Ok in H as (d' & Hd & H).
  destruct a; try discriminate.
  injection H as -> -> ->. injection Hds as <-. done.
Qed.

Lemma resolve_input_pair h item r :
  resolve_input h item = Ok r → is_index_pair item = true.
Proof.
  destruct r as [[n idx] d]. intros [Hu Hd]%resolve_input_Ok.
  apply py_unpack2_node in Hu. apply py_getitem_index in Hd.
  unfold is_index_pair. by rewrite Hu.
Qed.

Lemma resolve_all_pairs h items rs :
  mapM (resolve_input h) items = Ok rs → forallb is_index_pair items = true.
Proof.
  revert rs. induction items as [|item items IH]; intros rs H; [done|].
  simpl in H. apply bind_Ok in H as (r & Hr & H).
  apply bind_Ok in H as (rs' & Hrs & _).
  simpl. rewrite (resolve_input_pair h item r Hr). eauto.
Qed.

(** What [parse_inputs] returns is a list or a tuple. *)
Lemma parse_inputs_sequence nm spec parsed :
  parse_inputs nm spec = Ok parsed →
  ∃ items, as_list_or_tuple parsed = Some items ∧ py_iter parsed = Ok items.
Proof.
  unfold parse_inputs.
  destruct (as_list_or_tuple spec) as [l|] eqn:Hl.
  - assert (py_iter spec = Ok l) as Hit
      by (destruct spec; try discriminate Hl; simpl in *; congruence).
    destruct l as [|first rest].
    + intros [= <-]. eauto.
    + case_bool_decide; [intros [= <-]; eauto|].
      destruct (_ =? _)%nat; [|discriminate]. intros [= <-]. by eexists.
  - destruct spec; try discriminate. intros [= <-]. by eexists.
Qed.

(** What [__init__] goes on to do with the parsed inputs succeeds only on
    a node, a pair of a node and an index, or a sequence of such pairs. *)
Lemma resolve_parsed_accepted h nm spec parsed rs :
  parse_inputs nm spec = Ok parsed →
  resolve_inputs h parsed = Ok rs →
  is_Some (accepted_inputs spec).
Proof.
  intros Hp Hr. unfold accepted_inputs.
  assert (Hseq : ∀ l, as_list_or_tuple spec = Some l →
            is_Some (if is_index_pair spec then Some (VList [spec])
                     else if is_index_pair_list spec then Some spec else None)).
  { intros l Hl. unfold parse_inputs in Hp. rewrite Hl in Hp.
    destruct l as [|first rest].
    - unfold is_index_pair_list. rewrite Hl. simpl.
      destruct (is_index_pair spec); by eexists.
    - case_bool_decide as Hfirst.
      + injection Hp as <-. unfold resolve_inputs in Hr.
        assert (py_iter spec = Ok (first :: rest)) as Hit
          by (destruct spec; try discriminate Hl; simpl in *; congruence).
        rewrite Hit in Hr.
        change (mapM (resolve_input h) (first :: rest) = Ok rs) in Hr.
        apply resolve_all_pairs in Hr.
        unfold is_index_pair_list. rewrite Hl, Hr.
        destruct (is_index_pair spec); by eexists.
      + destruct (length (first :: rest) =? 2)%nat; [|discriminate Hp].
        injection Hp as <-. unfold resolve_inputs in Hr. simpl in Hr.
        apply bind_Ok in Hr as (r & Hr & _).
        apply resolve_input_pair in Hr. rewrite Hr. by eexists. }
  destruct spec as [| | |n| | | |l|l]; try discriminate Hp;
    [by eexists | by apply (Hseq l) | by apply (Hseq l)].
Qed.

Lemma is_index_pair_inv v :
  is_index_pair v = true →
  ∃ n idx, as_list_or_tuple v = Some [VNode n; idx].
Proof.
  unfold is_index_pair. destruct (as_list_or_tuple v) as [l|]; [|done].
  destruct l as [|[] [|? [|? ?]]]; try done. eauto.
Qed.

Lemma parse_inputs_pair nm v :
  is_index_pair v = true → parse_inputs nm v = Ok (VList [v]).
Proof.
  intros (n & k & Hl)%is_index_pair_inv. unfold parse_inputs. rewrite Hl.
  rewrite bool_decide_false; [done|]. by intros [? [=]].
Qed.

Lemma parse_inputs_pair_list nm v :
  is_index_pair_list v = true → parse_inputs nm v = Ok v.
Proof.
  unfold is_index_pair_list, parse_inputs.
  destruct (as_list_or_tuple v) as [[|first rest]|]; [done| |done].
  simpl. intros [(n & k & Hl)%is_index_pair_inv _]%andb_true_iff.
  rewrite bool_decide_true; [done|]. rewrite Hl. by eexists.
Qed.

Lemma parse_inputs_accepted nm spec parsed :
  accepted_inputs spec = Some parsed → parse_inputs nm spec = Ok parsed.
Proof.
  unfold accepted_inputs. intros Hc.
  destruct (is_index_pair spec) eqn:Hpair;
    [|destruct (is_index_pair_list spec) eqn:Hlist].
  - rewrite (parse_inputs_pair nm spec Hpair).
    destruct spec; by injection Hc as <-.
  - rewrite (parse_inputs_pair_list nm spec Hlist).
    destruct spec; by injection Hc as <-.
  - destruct spec; try discriminate Hc. by injection Hc as <-.
Qed.



(** The appends of [notify_producers]: only [outputs] change, and each
    node gets one entry per input that names it, after what it had. *)
Lemma notify_producers_spec (self : node_ref) (es : list (node_ref * pyval tensor)) :
  ∀ h (i0 : nat) n,
    let h' := notify_producers h self i0 es in
    set_outputs (h' n) [] = set_outputs (h n) []
    ∧ ∃ added, outputs (h' n) = outputs (h n) ++ added
        ∧ ∀ e, e ∈ added ↔
            ∃ (j : nat) k, es !! j = Some (n, k) ∧ e = (self, Z.of_nat (i0 + j)).
Proof.
  induction es as [|[p k] es IH]; intros h i0 n; simpl.
  - split; [done|]. exists []. split; [by rewrite app_nil_r|].
    intros e. split; [by intros ?%elem_of_nil|].
    intros (j & k & Hj & _). by rewrite lookup_nil in Hj.
  - set (h1 := heap_set h p _).
    destruct (IH h1 (S i0) n) as (Hf & added & Ho & Ha).
    assert (Hh1 : set_outputs (h1 n) [] = set_outputs (h n) []).
    { unfold h1, heap_set. destruct (n =? p)%nat eqn:E; [|done].
      apply Nat.eqb_eq in E as ->. done. }
    split; [congruence|].
    exists ((if (n =? p)%nat then [(self, Z.of_nat i0)] else []) ++ added).
    split.
    + rewrite Ho. unfold h1, heap_set.
      destruct (n =? p)%nat eqn:E; simpl.
      * apply Nat.eqb_eq in E as ->. by rewrite <- app_assoc.
      * done.
    + intros e. rewrite elem_of_app, Ha. split.
      * intros [He|(j & k' & Hj & ->)].
        -- destruct (n =? p)%nat eqn:E; [|by apply elem_of_nil in He].
           apply Nat.eqb_eq in E as ->.
           apply list_elem_of_singleton in He as ->.
           exists 0%nat, k. split; [done|]. by rewrite Nat.add_0_r.
        -- exists (S j), k'. split; [done|]. do 2 f_equal. lia.
      * intros ([|j] & k' & Hj & ->).
        -- injection Hj as -> ->. left. rewrite Nat.eqb_refl.
           rewrite Nat.add_0_r. by apply list_elem_of_singleton.
        -- right. exists j, k'. split; [done|]. do 2 f_equal. lia.
Qed.

Lemma set_outputs_fields (o o' : node_obj tensor) :
  set_outputs o [] = set_outputs o' [] →
  cls o = cls o' ∧ name o = name o' ∧ dims o = dims o'
  ∧ inputs o = inputs o' ∧ conditions o = conditions o'
  ∧ input_dims o = input_dims o' ∧ condition_dims o = condition_dims o'
  ∧ output_dims o = output_dims o' ∧ module o = module o'.
Proof. unfold set_outputs. intros [=]. by repeat split. Qed.

Lemma heap_set_eq h r (o : node_obj tensor) : heap_set h r o r = o.
Proof. unfold heap_set. by rewrite Nat.eqb_refl. Qed.

Lemma heap_set_ne h r (o : node_obj tensor) n : n ≠ r → heap_set h r o n = h n.
Proof. unfold heap_set. intros Hn. by apply Nat.eqb_neq in Hn as ->. Qed.

(** What a successful [Node.__init__] did. *)
Lemma Node_init_Ok s c self_dims spec mt conds nm idn s' r :
  Node_init s c self_dims spec mt conds nm idn = Ok (s', r) →
  ∃ parsed ins cs m ods self_name,
    parse_inputs self_name spec = Ok parsed
    ∧ resolve_inputs (obj s) parsed = Ok ins
    ∧ mapM (resolve_condition (obj s)) (normalize_conditions conds) = Ok cs
    ∧ build_module c self_dims mt (length (normalize_conditions conds))
        (map snd cs) (map snd ins) = Ok (m, ods)
    ∧ r = fresh s
    ∧ s' = {| fresh := S (fresh s);
              obj := notify_producers
                       (heap_set (obj s) (fresh s)
                          {| cls := c; name := self_name; dims := self_dims;
                             inputs := map fst ins; conditions := map fst cs;
                             outputs := []; input_dims := map snd ins;
                             condition_dims := map snd cs; output_dims := ods;
                             module := m |})
                       (fresh s) 0 (map fst ins) |}.
Proof.
  unfold Node_init. intros H.
  apply bind_Ok in H as (parsed & Hp & H).
  apply bind_Ok in H as (ins & Hi & H).
  apply bind_Ok in H as (cs & Hc & H).
  apply bind_Ok in H as ([m ods] & Hb & H).
  injection H as <- <-. eexists parsed, ins, cs, m, ods, _.
  repeat split; eassumption.
Qed.

(** The inputs a successful [Node.__init__] stores are the (node, index)
    pairs of the parsed specification, in order. *)
Lemma Node_init_inputs s c self_dims spec mt conds nm idn s' r :
  Node_init s c self_dims spec mt conds nm idn = Ok (s', r) →
  ∃ parsed items,
    accepted_inputs spec = Some parsed
    ∧ as_list_or_tuple parsed = Some items
    ∧ Forall2 (λ item e, as_list_or_tuple item = Some [VNode (fst e); snd e])
        items (inputs (obj s' r)).
Proof.
  intros H.
  apply Node_init_Ok in H
    as (parsed & ins & cs & m & ods & sn & Hp & Hi & Hc & Hb & -> & ->).
  simpl.
  match goal with |- context [heap_set _ _ ?o] => set (me := o) end.
  pose proof (notify_producers_spec (fresh s) (map fst ins)
                (heap_set (obj s) (fresh s) me) 0 (fresh s)) as [Hf _].
  rewrite heap_set_eq in Hf.
  apply set_outputs_fields in Hf as (_ & _ & _ & -> & _).
  destruct (resolve_parsed_accepted _ _ _ _ _ Hp Hi) as [parsed' Hacc].
  pose proof (parse_inputs_accepted sn _ _ Hacc) as Hp'.
  rewrite Hp in Hp'. injection Hp' as <-.
  destruct (parse_inputs_sequence _ _ _ Hp) as (items & Hitems & Hit).
  exists parsed, items. split; [done|]. split; [done|].
  unfold resolve_inputs in Hi. rewrite Hit in Hi. simpl in Hi.
  apply mapM_Ok_Forall2 in Hi. simpl.
  apply Forall2_fmap_r. eapply Forall2_impl; [exact Hi|].
  intros item [[n idx] d] [Hu _]%resolve_input_Ok. simpl.
  by apply py_unpack2_node.
Qed.


(** By itself [parse_inputs] lets a two-item sequence through whatever
    its items are; the error then comes when the constructor reads the
    producer's shapes. *)
Remark parse_inputs_alone_is_lax (nm : string) :
  parse_inputs (tensor:=tensor) nm (VTuple [VInt 5; VInt 7])
  = Ok (VList [VTuple [VInt 5; VInt 7]]).
Proof. reflexivity. Qed.
End InputFacts.

(** ** Seeding the edge-value table *)

Section SeedFacts.
Context {tensor : Type} `{!TensorOps tensor}.
Implicit Types (outs : gmap (obj_ref * Z) (pyval tensor))
  (tensors : list (pyval tensor)) (nodes : list nat).

Lemma combine_matched {A B} (xs : list A) (ys : list B) :
  combine xs ys = combine (take (length ys) xs) (take (length xs) ys).
Proof.
  revert ys. induction xs as [|x xs IH]; intros [|y ys]; simpl; f_equal; auto.
Qed.

Lemma seed_table_matched outs tensors nodes :
  seed_table outs tensors nodes
  = seed_table outs (take (length nodes) tensors) (take (length tensors) nodes).
Proof. unfold seed_table. by rewrite <- combine_matched. Qed.

(** A key other than those of the matched nodes keeps its entry. *)
Lemma seed_table_other outs tensors nodes (k : obj_ref * Z) :
  (∀ n, n ∈ take (length tensors) nodes → k ≠ (RefNode n, 0)) →
  seed_table outs tensors nodes !! k = outs !! k.
Proof.
  revert outs nodes.
  induction tensors as [|t tensors IH]; intros outs [|n nodes] Hk; try done.
  change (seed_table (<[(RefNode n, 0):=t]> outs) tensors nodes !! k = outs !! k).
  rewrite IH.
  - apply lookup_insert_ne. intros <-. apply (Hk n); [|done]. simpl. left.
  - intros n' Hn'. apply Hk. simpl. by right.
Qed.

(** With no node listed twice, the [i]-th tensor is the entry of the
    [i]-th node. *)
Lemma seed_table_matched_entry outs tensors nodes (i : nat) t n :
  NoDup nodes → tensors !! i = Some t → nodes !! i = Some n →
  seed_table outs tensors nodes !! (RefNode n, 0) = Some t.
Proof.
  revert outs nodes i.
  induction tensors as [|t0 tensors IH]; intros outs [|n0 nodes] i Hnd Ht Hn;
    try done.
  change (seed_table (<[(RefNode n0, 0):=t0]> outs) tensors nodes
            !! (RefNode n, 0) = Some t).
  apply NoDup_cons in Hnd as [Hn0 Hnd].
  destruct i as [|i]; simpl in Ht, Hn.
  - injection Ht as ->. injection Hn as ->.
    rewrite seed_table_other; [apply lookup_insert_eq|].
    intros n' Hn' [= ->]. apply Hn0.
    apply elem_of_take in Hn' as (j & Hj & _). by eapply list_elem_of_lookup_2.
  - eapply IH; eauto.
Qed.

(** C10.  Seeding never compares the number of tensors with the number
    of boundary nodes and raises nothing: [seed] is a total function of
    its arguments, whatever their lengths.  Only the pairwise-matched
    prefix is written; tensors beyond the boundary nodes are ignored and
    boundary nodes beyond the tensors have no entry.  With an empty walk
    [forward] hands back exactly that table. *)
Theorem seeding_ignores_counts (tensor_add : tensor → tensor → tensor)
    (h : heap tensor) (g : graph_net tensor)
    (x_or_z c : list (pyval tensor)) (rev : bool) :
  let starts := if rev then out_nodes g else in_nodes g in
  let conds := condition_nodes g in
  seed g x_or_z c rev
  = seed_table
      (seed_table ∅ (take (length starts) x_or_z) (take (length x_or_z) starts))
      (take (length conds) c) (take (length c) conds)
  ∧ (∀ n, n ∉ take (length x_or_z) starts → n ∉ take (length c) conds →
       seed g x_or_z c rev !! (RefNode n, 0) = None)
  ∧ (∀ i t n, NoDup starts → x_or_z !! i = Some t → starts !! i = Some n →
       n ∉ take (length c) conds →
       seed g x_or_z c rev !! (RefNode n, 0) = Some t)
  ∧ (∀ i t n, NoDup conds → c !! i = Some t → conds !! i = Some n →
       seed g x_or_z c rev !! (RefNode n, 0) = Some t)
  ∧ (∀ jac, node_list g = Some [] →
       forward tensor_add h g x_or_z c rev jac true
       = Ok (ReturnTable (seed g x_or_z c rev) VNone)).
Proof.
  intros starts conds. unfold seed. fold starts. fold conds.
  repeat split.
  - by rewrite <- !seed_table_matched.
  - intros n Hs Hc. rewrite !seed_table_other; [done|..];
      intros n' Hn' [= ->]; auto.
  - intros i t n Hnd Ht Hn Hc. rewrite seed_table_other.
    + by eapply seed_table_matched_entry.
    + intros n' Hn' [= ->]. auto.
  - intros i t n Hnd Ht Hn. by eapply seed_table_matched_entry.
  - intros jac Hnl. unfold forward, get_node_list. rewrite Hnl. simpl.
    by destruct rev.
Qed.
End SeedFacts.

(** ** The scheduler *)

Section SchedulerFacts.
Context {tensor : Type} `{!TensorOps tensor}.
Variable set_iter : gset nat → list nat.
Variable h : heap tensor.

Lemma edge_count_remove (m : gmap nat (gset nat)) k s x :
  m !! k = Some s → x ∈ s →
  (edge_count (<[k := s ∖ {[x]}]> m) + 1 = edge_count m)%nat.
Proof.
  intros Hk Hx. unfold edge_count.
  rewrite (map_fold_delete_L _ _ k s m); [|intros; lia|done].
  rewrite <- (insert_delete_eq m).
  rewrite map_fold_insert_L; [|intros; lia|apply lookup_delete_eq].
  rewrite size_difference by set_solver. rewrite size_singleton.
  assert (size s ≠ 0)%nat; [|lia].
  intros Hz. apply size_empty_inv in Hz. set_solver.
Qed.

(** What one released edge changes. *)
Lemma release_edge_Ok node st x st' :
  release_edge node st x = Ok st' →
  ∃ s1, edges_out_to_in st !! node = Some s1 ∧ x ∈ s1
    ∧ node ∈ dd_get (edges_in_to_out st) x
    ∧ edges_out_to_in st' = <[node := s1 ∖ {[x]}]> (edges_out_to_in st)
    ∧ edges_in_to_out st'
      = <[x := dd_get (edges_in_to_out st) x ∖ {[node]}]> (edges_in_to_out st)
    ∧ sorted_nodes st' = sorted_nodes st
    ∧ (no_pending_edges st' = no_pending_edges st
       ∨ no_pending_edges st' = no_pending_edges st ++ [x]).
Proof.
  unfold release_edge, dict_get, set_remove. intros H.
  destruct (edges_out_to_in st !! node) as [s1|] eqn:E1; [|discriminate H].
  simpl in H. case_bool_decide as Hx; [|discriminate H]. simpl in H.
  case_bool_decide as Hn; [|discriminate H]. simpl in H.
  injection H as <-. exists s1. simpl. repeat split; try done.
  destruct (size _ =? 0)%nat; auto.
Qed.

Lemma release_edge_Err node st x e :
  release_edge node st x = Err e → e = KeyError.
Proof.
  unfold release_edge, dict_get, set_remove. intros H.
  destruct (edges_out_to_in st !! node) as [s1|]; [|by injection H]. simpl in H.
  case_bool_decide; [|by injection H]. simpl in H.
  case_bool_decide; [|by injection H]. discriminate H.
Qed.

Lemma foldM_Err_kind {A S} (body : S → A → result S) (P : pyerr → Prop) xs s e :
  (∀ s x e, body s x = Err e → P e) → foldM body xs s = Err e → P e.
Proof.
  intros Hbody. revert s. induction xs as [|x xs IH]; intros s H; [discriminate|].
  simpl in H. apply bind_Err in H as [H|(s' & _ & H)]; eauto.
Qed.

Lemma foldM_invariant {A S} (body : S → A → result S) (P : S → Prop) xs s s' :
  (∀ s x s', P s → body s x = Ok s' → P s') →
  P s → foldM body xs s = Ok s' → P s'.
Proof.
  intros Hbody. revert s. induction xs as [|x xs IH]; intros s Hs H.
  - by injection H as <-.
  - simpl in H. apply bind_Ok in H as (s1 & H1 & H). eauto.
Qed.

(** The measure that the fuel bounds. *)
Lemma release_edge_measure node st x st' :
  release_edge node st x = Ok st' →
  (length (no_pending_edges st') + edge_count (edges_out_to_in st')
   ≤ length (no_pending_edges st) + edge_count (edges_out_to_in st))%nat.
Proof.
  intros (s1 & H1 & Hx & _ & -> & _ & _ & Hq)%release_edge_Ok.
  pose proof (edge_count_remove _ _ _ _ H1 Hx).
  destruct Hq as [-> | ->]; rewrite ?length_app; simpl; lia.
Qed.

Lemma kahn_step_measure st node rest st' :
  no_pending_edges st = node :: rest →
  kahn_step set_iter st node rest = Ok st' →
  (length (no_pending_edges st') + edge_count (edges_out_to_in st')
   < length (no_pending_edges st) + edge_count (edges_out_to_in st))%nat.
Proof.
  intros Hq H. unfold kahn_step in H. apply bind_Ok in H as (ins & _ & H).
  apply (foldM_invariant _
           (λ s, length (no_pending_edges s) + edge_count (edges_out_to_in s)
                 ≤ length rest + edge_count (edges_out_to_in st))%nat) in H.
  - rewrite Hq. simpl. lia.
  - intros s x s' Hs Hr. apply release_edge_measure in Hr. lia.
  - simpl. lia.
Qed.

(** With [kahn_fuel] the loop stops because the queue is empty, never
    because the fuel is used up. *)
Lemma kahn_runs_to_completion fuel st st' :
  (length (no_pending_edges st) + edge_count (edges_out_to_in st) < fuel)%nat →
  kahn set_iter fuel st = Ok st' → no_pending_edges st' = [].
Proof.
  revert st. induction fuel as [|fuel IH]; intros st Hlt H; [lia|].
  simpl in H. destruct (no_pending_edges st) as [|node rest] eqn:Hq.
  - by injection H as <-.
  - apply bind_Ok in H as (st1 & Hstep & H).
    apply IH in H; [done|].
    pose proof (kahn_step_measure st node rest st1 Hq Hstep) as Hm.
    rewrite Hq in Hm. simpl in *. lia.
Qed.

Lemma kahn_Err fuel st e : kahn set_iter fuel st = Err e → e = KeyError.
Proof.
  revert st. induction fuel as [|fuel IH]; intros st H; [discriminate|].
  simpl in H. destruct (no_pending_edges st) as [|node rest]; [discriminate|].
  apply bind_Err in H as [H|(st1 & _ & H)]; [|eauto].
  unfold kahn_step in H. apply bind_Err in H as [H|(ins & _ & H)].
  - unfold dict_get in H. simpl in H.
    destruct (edges_out_to_in st !! node); [discriminate|by injection H].
  - eapply (foldM_Err_kind _ (λ e, e = KeyError)); [|exact H].
    intros ???. apply release_edge_Err.
Qed.

(** *** The loop invariant *)

Section Invariant.
Variable K : gset nat.
Variable R : nat → Prop.
Hypothesis R_producers : ∀ b a, R b → a ∈ producers h b → R a.

Lemma release_edge_inv node st x st' :
  kahn_inv h K R st ∧ node ∈ sorted_nodes st →
  release_edge node st x = Ok st' →
  kahn_inv h K R st' ∧ node ∈ sorted_nodes st'.
Proof.
  intros [(Hdom & Hsub & Hsorted & Hqueue) Hnode].
  intros (s1 & H1 & Hx & _ & Ho & _ & Hs & Hq)%release_edge_Ok.
  rewrite Hs. split; [|done]. unfold kahn_inv. rewrite Hs, Ho.
  split; [|split; [|split]].
  - rewrite dom_insert_lookup_L; [done|by eexists].
  - intros k s. rewrite lookup_insert. case_decide as Hk.
    + subst k. intros [= <-]. specialize (Hsub _ _ H1). set_solver.
    + apply Hsub.
  - done.
  - intros n Hn. destruct Hq as [Hq|Hq]; rewrite Hq in Hn; [by apply Hqueue|].
    apply elem_of_app in Hn as [Hn|Hn]; [by apply Hqueue|].
    apply list_elem_of_singleton in Hn as ->.
    apply (R_producers node); [by apply Hsorted|]. by apply (Hsub _ _ H1).
Qed.

Lemma kahn_step_inv st node rest st' :
  kahn_inv h K R st → no_pending_edges st = node :: rest →
  kahn_step set_iter st node rest = Ok st' → kahn_inv h K R st'.
Proof.
  intros (Hdom & Hsub & Hsorted & Hqueue) Hq H. unfold kahn_step in H.
  apply bind_Ok in H as (ins & Hins & H). simpl in Hins.
  unfold dict_get in Hins.
  destruct (edges_out_to_in st !! node) as [s|] eqn:E; [|discriminate Hins].
  apply (foldM_invariant _ (λ s, kahn_inv h K R s ∧ node ∈ sorted_nodes s)) in H.
  - apply H.
  - intros s0 x s' Hs Hr. by eapply release_edge_inv.
  - split; [|simpl; set_solver]. unfold kahn_inv. simpl.
    split; [done|]. split; [done|]. split.
    + intros n [Hn| ->%list_elem_of_singleton]%elem_of_app; [by apply Hsorted|].
      split; [rewrite <- Hdom; by eapply elem_of_dom_2|].
      apply Hqueue. rewrite Hq. left.
    + intros n Hn. apply Hqueue. rewrite Hq. by right.
Qed.

Lemma kahn_inv_preserved fuel st st' :
  kahn_inv h K R st → kahn set_iter fuel st = Ok st' → kahn_inv h K R st'.
Proof.
  revert st. induction fuel as [|fuel IH]; intros st Hinv H.
  - by injection H as <-.
  - simpl in H. destruct (no_pending_edges st) as [|node rest] eqn:Hq.
    + by injection H as <-.
    + apply bind_Ok in H as (st1 & Hstep & H).
      eapply IH; [|exact H]. by eapply kahn_step_inv.
Qed.
End Invariant.

Lemma build_out_to_in_lookup keys (m : gmap nat (gset nat)) k s :
  fold_left (λ m node_b, <[node_b := producers h node_b]> m) keys m !! k = Some s →
  m !! k = Some s ∨ (k ∈ keys ∧ s = producers h k).
Proof.
  revert m. induction keys as [|b keys IH]; intros m H; [by left|].
  simpl in H. apply IH in H as [H|[Hk ->]].
  - rewrite lookup_insert in H. case_decide as Hb.
    + subst b. injection H as <-. right. split; [left|done].
    + by left.
  - right. split; [by right|done].
Qed.

Lemma build_out_to_in_dom keys (m : gmap nat (gset nat)) :
  dom (fold_left (λ m node_b, <[node_b := producers h node_b]> m) keys m)
  = list_to_set keys ∪ dom m.
Proof.
  revert m. induction keys as [|b keys IH]; intros m; simpl; [set_solver|].
  rewrite IH, dom_insert_L. set_solver.
Qed.

Lemma kahn_init_inv all_nodes out_nodes :
  kahn_inv h (list_to_set (all_nodes ++ out_nodes))
    (connected_to_output h out_nodes)
    (kahn_init set_iter h all_nodes out_nodes).
Proof.
  unfold kahn_inv. simpl. split; [|split; [|split]].
  - unfold build_out_to_in. rewrite build_out_to_in_dom, dom_empty_L. set_solver.
  - intros k s Hk. apply build_out_to_in_lookup in Hk as [Hk|[_ ->]]; [|done].
    by rewrite lookup_empty in Hk.
  - intros n Hn. by apply elem_of_nil in Hn.
  - intros n Hn. exists n. split; [done|apply rtc_refl].
Qed.

Lemma connected_producers out_nodes b a :
  connected_to_output h out_nodes b → a ∈ producers h b →
  connected_to_output h out_nodes a.
Proof.
  intros (o & Ho & Hpath) Ha. exists o. split; [done|].
  eapply rtc_r; [exact Hpath|exact Ha].
Qed.

Lemma assert_connected_Ok in_nodes sorted :
  assert_connected in_nodes sorted = Ok tt ↔ ∀ a, a ∈ in_nodes → a ∈ sorted.
Proof.
  unfold assert_connected. induction in_nodes as [|a in_nodes IH]; simpl.
  - split; [intros _ a Ha; by apply elem_of_nil in Ha|done].
  - case_bool_decide as Ha; simpl.
    + rewrite IH. split; [intros H x [->|?]%elem_of_cons; auto|].
      intros H x Hx. apply H. by right.
    + split; [discriminate|]. intros H. destruct Ha. apply H. left.
Qed.

Lemma assert_connected_Err in_nodes sorted e :
  assert_connected in_nodes sorted = Err e →
  ∃ n, e = AssertionError (NotConnected n) ∧ n ∈ in_nodes ∧ n ∉ sorted.
Proof.
  unfold assert_connected. induction in_nodes as [|a in_nodes IH]; simpl;
    [discriminate|].
  case_bool_decide as Ha; simpl.
  - intros (n & -> & Hn & Hns)%IH. exists n. repeat split; [by right|done].
  - intros [= <-]. exists a. repeat split; [left|done].
Qed.

Lemma elem_of_rev_list {A} (x : A) (l : list A) : x ∈ rev l ↔ x ∈ l.
Proof. rewrite !list_elem_of_In. symmetry. apply in_rev. Qed.

(** What a returned order is made of. *)
Lemma topological_order_Ok all_nodes in_nodes out_nodes order :
  topological_order set_iter h all_nodes in_nodes out_nodes = Ok order →
  ∃ st, kahn set_iter (kahn_fuel (kahn_init set_iter h all_nodes out_nodes))
          (kahn_init set_iter h all_nodes out_nodes) = Ok st
    ∧ no_pending_edges st = []
    ∧ order = rev (sorted_nodes st)
    ∧ edge_count (edges_in_to_out st) = 0%nat
    ∧ (∀ a, a ∈ in_nodes → a ∈ order)
    ∧ (∀ n, n ∈ order →
         (n ∈ all_nodes ∨ n ∈ out_nodes) ∧ connected_to_output h out_nodes n).
Proof.
  unfold topological_order. intros H.
  apply bind_Ok in H as (st & Hk & H).
  apply bind_Ok in H as ([] & Ha & H).
  destruct (edge_count (edges_in_to_out st) =? 0)%nat eqn:Hc; [|discriminate H].
  injection H as <-. exists st.
  split; [done|]. split; [|split; [done|]; split; [|split]].
  - eapply kahn_runs_to_completion; [|exact Hk]. unfold kahn_fuel. lia.
  - by apply Nat.eqb_eq.
  - intros a Ha'. rewrite elem_of_rev_list.
    by apply (proj1 (assert_connected_Ok _ _) Ha).
  - intros n Hn. rewrite elem_of_rev_list in Hn.
    pose proof (kahn_inv_preserved _ _ (connected_producers out_nodes) _ _ _
                  (kahn_init_inv all_nodes out_nodes) Hk) as (_ & _ & Hs & _).
    apply Hs in Hn as [Hn ?]. split; [set_solver|done].
Qed.
(** Called as its signature says, the scheduler never returns an order
    when one of [in_nodes] is not connected to an output: the traversal
    fails on a lookup or the connection assertion fires. *)
Lemma scheduler_rejects_unconnected all_nodes in_nodes out_nodes a :
  a ∈ in_nodes → ¬ connected_to_output h out_nodes a →
  topological_order set_iter h all_nodes in_nodes out_nodes = Err KeyError
  ∨ ∃ n, n ∈ in_nodes
      ∧ topological_order set_iter h all_nodes in_nodes out_nodes
        = Err (AssertionError (NotConnected n)).
Proof.
  intros Ha Hnc.
  destruct (topological_order set_iter h all_nodes in_nodes out_nodes)
    as [order|e] eqn:E.
  - apply topological_order_Ok in E as (st & _ & _ & _ & _ & Hin & Hreach).
    destruct Hnc. by apply Hreach, Hin.
  - unfold topological_order in E.
    apply bind_Err in E as [E|(st & Hk & E)];
      [left; f_equal; by apply kahn_Err in E|].
    apply bind_Err in E as [E|([] & Hok & E)].
    + right. apply assert_connected_Err in E as (n & -> & Hn & _). eauto.
    + pose proof (kahn_inv_preserved _ _ (connected_producers out_nodes) _ _ _
                    (kahn_init_inv all_nodes out_nodes) Hk) as (_ & _ & Hs & _).
      destruct Hnc. apply Hs. by apply (proj1 (assert_connected_Ok _ _) Hok).
Qed.
End SchedulerFacts.

(** ** Construction of the graph net *)

Section ConstructionFacts.
Context {tensor : Type} `{!TensorOps tensor}.
Variable set_iter : gset nat → list nat.
Variable h : heap tensor.

Lemma py_index_elem {A} (xs : list A) (i : Z) (x : A) :
  py_index xs i = Ok x → x ∈ xs.
Proof.
  unfold py_index. destruct (_ || _)%bool; [discriminate|].
  destruct (xs !! _) eqn:E; [|discriminate]. intros [= <-].
  by eapply list_elem_of_lookup_2.
Qed.

Lemma mapM_py_index_elem {A} (xs : list A) (idxs : list Z) (l : list A) :
  mapM (py_index xs) idxs = Ok l → ∀ x, x ∈ l → x ∈ xs.
Proof.
  intros H%mapM_Ok_Forall2. induction H as [|i y idxs l Hy _ IH].
  - intros x Hx. by apply elem_of_nil in Hx.
  - intros x [->|Hx]%elem_of_cons; [by eapply py_index_elem|auto].
Qed.

(** Boundary nodes are taken from the node list. *)
Lemma boundary_nodes_subset nodes ind c l :
  boundary_nodes h nodes ind c = Ok l → ∀ n, n ∈ l → n ∈ nodes.
Proof.
  destruct ind as [|i|idxs]; simpl.
  - intros [= <-] n Hn. by apply list_elem_of_filter in Hn as [_ Hn].
  - intros H. by eapply (mapM_py_index_elem nodes [i]).
  - apply mapM_py_index_elem.
Qed.

(** What a successful construction went through. *)
Lemma ReversibleGraphNet_init_Ok nodes ind_in ind_out force g :
  ReversibleGraphNet_init set_iter h nodes ind_in ind_out force = Ok g →
  ∃ ins outs order,
    boundary_nodes h nodes ind_in ClsInputNode = Ok ins
    ∧ boundary_nodes h nodes ind_out ClsOutputNode = Ok outs
    ∧ topological_order set_iter h ins nodes outs = Ok order
    ∧ in_nodes g = ins ∧ out_nodes g = outs
    ∧ module_list g = map (λ n, module (h n)) order
    ∧ node_list g = None.
Proof.
  unfold ReversibleGraphNet_init. intros H.
  apply bind_Ok in H as (ins & Hins & H).
  destruct (negb _); [discriminate|].
  apply bind_Ok in H as (outs & Houts & H).
  destruct (negb _); [discriminate|].
  apply bind_Ok in H as (order & Horder & H).
  apply bind_Ok in H as (gi & _ & H).
  apply bind_Ok in H as (go & _ & H).
  apply bind_Ok in H as (gc & _ & H).
  injection H as <-. exists ins, outs, order. by repeat split.
Qed.

(** A net is built only from node lists all of whose nodes are input or
    output boundary nodes connected to an output. *)
Lemma accepted_nodes_are_boundary nodes ind_in ind_out force g n :
  ReversibleGraphNet_init set_iter h nodes ind_in ind_out force = Ok g →
  n ∈ nodes →
  (n ∈ in_nodes g ∨ n ∈ out_nodes g) ∧ connected_to_output h (out_nodes g) n.
Proof.
  intros (ins & outs & order & _ & _ & Ho & <- & <- & _)%ReversibleGraphNet_init_Ok Hn.
  apply topological_order_Ok in Ho as (st & _ & _ & _ & _ & Hall & Hkeys).
  apply Hkeys, Hall, Hn.
Qed.

Lemma edge_count_zero (m : gmap nat (gset nat)) :
  edge_count m = 0%nat ↔ ∀ k s, m !! k = Some s → s = ∅.
Proof.
  unfold edge_count.
  apply (map_fold_weak_ind
           (λ acc m, acc = 0%nat ↔ ∀ k s, m !! k = Some s → s = ∅)).
  - split; [|done]. intros _ k s Hk. by rewrite lookup_empty in Hk.
  - intros k s m' acc Hk IH. split.
    + intros Hz k' s'. rewrite lookup_insert. case_decide as E.
      * intros [= <-]. apply leibniz_equiv, size_empty_inv. lia.
      * apply IH. lia.
    + intros Hall.
      assert (s = ∅) as -> by (apply (Hall k); by rewrite lookup_insert_eq).
      rewrite size_empty. simpl. apply IH. intros k' s' Hk'.
      apply (Hall k'). rewrite lookup_insert_ne; [done|]. intros ->. congruence.
Qed.

Lemma mapM_Err_kind {A B} (f : A → result B) (P : pyerr → Prop) xs e :
  (∀ x e, f x = Err e → P e) → mapM f xs = Err e → P e.
Proof.
  intros Hf. induction xs as [|x xs IH]; intros H; [discriminate|].
  simpl in H. apply bind_Err in H as [H|(y & _ & H)]; [eauto|].
  apply bind_Err in H as [H|(ys & _ & H)]; [eauto|discriminate].
Qed.

Lemma py_index_Err {A} (xs : list A) i e : py_index xs i = Err e → e = IndexError.
Proof.
  unfold py_index. destruct (_ || _)%bool; [by intros [= <-]|].
  destruct (xs !! _); [discriminate|by intros [= <-]].
Qed.

(** With automatic detection the constructor never raises the cycle
    error for a node list that holds a transformation node, cyclic or
    not: the traversal or the connection assertion fails first, since
    the node is no key of the dependency map. *)
Lemma cycle_error_out_of_reach nodes force n :
  n ∈ nodes → cls (h n) = ClsNode →
  ReversibleGraphNet_init set_iter h nodes IndNone IndNone force
  ≠ Err ValueError_Cyclic.
Proof.
  intros Hn Hcls H. unfold ReversibleGraphNet_init in H. simpl in H.
  set (ins := filter (λ n, node_class_eqb (cls (h n)) ClsInputNode = true) nodes) in *.
  set (outs := filter (λ n, node_class_eqb (cls (h n)) ClsOutputNode = true) nodes) in *.
  destruct (negb (0 <? length ins)%nat); [discriminate|].
  destruct (negb (0 <? length outs)%nat); [discriminate|].
  apply bind_Err in H as [H|(order & _ & H)].
  - unfold topological_order in H.
    apply bind_Err in H as [H|(st & Hk & H)]; [by apply kahn_Err in H|].
    apply bind_Err in H as [H|([] & Ha & H)];
      [by apply assert_connected_Err in H as (? & [=] & _)|].
    pose proof (kahn_inv_preserved _ _ _ _ (connected_producers _ outs) _ _ _
                  (kahn_init_inv _ _ ins outs) Hk) as (_ & _ & Hs & _).
    apply (proj1 (assert_connected_Ok _ _) Ha), Hs in Hn as [Hn _].
    apply elem_of_list_to_set, elem_of_app in Hn as [Hn|Hn];
      apply list_elem_of_filter in Hn as [Hn _]; rewrite Hcls in Hn;
      discriminate Hn.
  - apply bind_Err in H as [H|(gi & _ & H)].
    { eapply (mapM_Err_kind _ (λ e, e = IndexError)) in H; [discriminate H|].
      intros x e. apply py_index_Err. }
    apply bind_Err in H as [H|(go & _ & H)].
    { eapply (mapM_Err_kind _ (λ e, e = IndexError)) in H; [discriminate H|].
      intros x e. apply py_index_Err. }
    apply bind_Err in H as [H|(gc & _ & H)]; [|discriminate H].
    eapply (mapM_Err_kind _ (λ e, e = IndexError)) in H; [discriminate H|].
    intros x e. apply py_index_Err.
Qed.
End ConstructionFacts.

(** ** Execution *)

Section ExecutionFacts.
Context {tensor : Type} `{!TensorOps tensor}.
Variable tensor_add : tensor → tensor → tensor.
Variable h : heap tensor.
Implicit Types (outs : gmap (obj_ref * Z) (pyval tensor)) (g : graph_net tensor).

(** The walk writes under the key of the net object only. *)
Lemma write_outputs_node_entry outs out_idx items (n : nat) (k : Z) :
  write_outputs outs out_idx items !! (RefNode n, k) = outs !! (RefNode n, k).
Proof.
  revert outs out_idx. induction items as [|v items IH]; intros outs out_idx;
    [done|].
  simpl. rewrite IH. by apply lookup_insert_ne.
Qed.

Lemma write_outputs_self_entry outs out_idx items (i : nat) v :
  items !! i = Some v →
  write_outputs outs out_idx items !! (RefSelf, Z.of_nat (out_idx + i)) = Some v.
Proof.
  revert outs out_idx i. induction items as [|v0 items IH];
    intros outs out_idx i Hi; [done|].
  destruct i as [|i]; simpl in *.
  - injection Hi as ->. rewrite Nat.add_0_r.
    assert (Hkeep : ∀ its (o : gmap (obj_ref * Z) (pyval tensor)) j,
              (out_idx < j)%nat →
              write_outputs o j its !! (RefSelf, Z.of_nat out_idx)
              = o !! (RefSelf, Z.of_nat out_idx)).
    { induction its as [|w its IHi]; intros o j Hj; [done|]. simpl.
      rewrite IHi by lia. apply lookup_insert_ne. intros [=]. lia. }
    rewrite Hkeep by lia. apply lookup_insert_eq.
  - replace (out_idx + S i)%nat with (S out_idx + i)%nat by lia. by apply IH.
Qed.



(** With tracking enabled the first visit cannot succeed: the running
    total starts as [None], to which nothing can be added. *)
Lemma visit_tracking_from_None (rev : bool) outs node r :
  visit tensor_add h rev true (outs, VNone) node ≠ Ok r.
Proof.
  unfold visit. intros H.
  apply bind_Ok in H as (mod_in & _ & H).
  apply bind_Ok in H as (mod_c & _ & H).
  apply bind_Ok in H as (m & _ & H).
  apply bind_Ok in H as (mod_out & _ & H).
  destruct (is_tensor mod_out); [discriminate|].
  apply bind_Ok in H as (n & _ & H).
  destruct (negb _); [discriminate|].
  apply bind_Ok in H as ([out mod_jac] & _ & H).
  destruct (is_tensor out); [discriminate|].
  apply bind_Ok in H as (k & _ & H).
  destruct (negb _); [discriminate|].
  apply bind_Ok in H as ([] & Hj & H).
  apply bind_Ok in H as (items & _ & H).
  apply bind_Ok in H as (j' & Hadd & _).
  unfold check_jacobian in Hj. destruct mod_jac; discriminate.
Qed.

Lemma forward_tracking_fails g x_or_z c (rev io : bool) node rest r :
  node_list g = Some (node :: rest) →
  forward tensor_add h g x_or_z c rev true io ≠ Ok r.
Proof.
  intros Hnl H. unfold forward, get_node_list in H. rewrite Hnl in H.
  apply bind_Ok in H as (nodes & [= <-] & H).
  apply bind_Ok in H as ([outs' j'] & Hwalk & _).
  assert (∃ n l, (if rev then List.rev (node :: rest) else node :: rest) = n :: l)
    as (n & l & Hl).
  { destruct rev; [|eauto]. destruct (List.rev (node :: rest)) eqn:E; [|eauto].
    apply (f_equal (@length _)) in E. rewrite length_rev in E. discriminate E. }
  rewrite Hl in Hwalk. simpl in Hwalk.
  apply bind_Ok in Hwalk as (s1 & Hv & _).
  by apply visit_tracking_from_None in Hv.
Qed.

(** The walk leaves the entries keyed by nodes as the seeding made them. *)
Lemma visit_node_entries (rev jac : bool) outs jacobian node outs' jacobian' (n : nat) (k : Z) :
  visit tensor_add h rev jac (outs, jacobian) node = Ok (outs', jacobian') →
  outs' !! (RefNode n, k) = outs !! (RefNode n, k).
Proof.
  unfold visit. intros H.
  apply bind_Ok in H as (mod_in & _ & H).
  apply bind_Ok in H as (mod_c & _ & H).
  apply bind_Ok in H as (m & _ & H).
  apply bind_Ok in H as (mod_out & _ & H).
  destruct (is_tensor mod_out); [discriminate|].
  apply bind_Ok in H as (len & _ & H).
  destruct (negb _); [discriminate|].
  apply bind_Ok in H as ([out mod_jac] & _ & H).
  destruct (is_tensor out); [discriminate|].
  apply bind_Ok in H as (cnt & _ & H).
  destruct (negb _); [discriminate|].
  apply bind_Ok in H as ([] & _ & H).
  apply bind_Ok in H as (items & _ & H).
  apply bind_Ok in H as (j' & _ & H).
  injection H as <- <-. apply write_outputs_node_entry.
Qed.

Lemma walk_node_entries (rev jac : bool) nodes outs jacobian outs' jacobian' (n : nat) (k : Z) :
  foldM (visit tensor_add h rev jac) nodes (outs, jacobian) = Ok (outs', jacobian') →
  outs' !! (RefNode n, k) = outs !! (RefNode n, k).
Proof.
  revert outs jacobian. induction nodes as [|node nodes IH];
    intros outs jacobian H.
  - by injection H as <- <-.
  - simpl in H. apply bind_Ok in H as ([o1 j1] & Hv & H).
    rewrite (IH _ _ H). by eapply visit_node_entries.
Qed.

(** Whatever the direction, the tensors [forward] returns are the entries
    that seeding made for the output nodes. *)
Lemma forward_returns_seeded_outputs g x_or_z c (rev jac : bool) r :
  forward tensor_add h g x_or_z c rev jac false = Ok r →
  ∃ out_list jacobian,
    (r = ReturnSingle (default VNone (head out_list)) jacobian
     ∨ r = ReturnTuple out_list jacobian)
    ∧ mapM (λ out_node, table_get (seed g x_or_z c rev) (RefNode out_node, 0))
        (out_nodes g) = Ok out_list.
Proof.
  unfold forward. intros H.
  apply bind_Ok in H as (nodes & _ & H).
  apply bind_Ok in H as ([outs' j'] & Hwalk & H).
  apply bind_Ok in H as (out_list & Hl & H).
  exists out_list, j'. split.
  - destruct out_list as [|v [|? ?]]; [| |]; try (injection H as <-; by right).
    destruct (negb _); injection H as <-; [by left|by right].
  - apply mapM_Forall2_Ok. apply mapM_Ok_Forall2 in Hl.
    eapply Forall2_impl; [exact Hl|]. intros out_node v. simpl.
    unfold table_get. by rewrite (walk_node_entries _ _ _ _ _ _ _ _ _ Hwalk).
Qed.
End ExecutionFacts.

(** ** The example graphs *)

Section ExampleFacts.
Import Examples.

Lemma examples_built :
  is_ok build_direct = true ∧ is_ok (build_chain scale_module) = true
  ∧ is_ok (build_chain eager_module) = true ∧ is_ok build_stray = true
  ∧ is_ok build_two_step = true ∧ is_ok build_side = true.
Proof. by vm_compute. Qed.

Lemma producers_elem (h : heap Z) (b a : nat) (l : list nat) :
  map fst (inputs (h b)) = l → a ∈ producers h b ↔ a ∈ l.
Proof. intros <-. unfold producers. apply elem_of_list_to_set. Qed.

Ltac path_step H y :=
  let Hy := fresh "Hy" in
  apply rtc_inv in H as [H|(y & Hy & H)]; [discriminate H|];
  unfold consumes in Hy;
  erewrite producers_elem in Hy by (vm_compute; reflexivity).

Lemma stray_input_unconnected : ¬ connected_to_output stray_heap [3%nat] 0%nat.
Proof.
  intros (o & Ho & Hpath). apply list_elem_of_singleton in Ho as ->.
  path_step Hpath y1. apply list_elem_of_singleton in Hy as ->.
  path_step Hpath y2. apply list_elem_of_singleton in Hy as ->.
  path_step Hpath y3. by apply elem_of_nil in Hy.
Qed.

Lemma cyclic_heap_cycle : on_cycle cyclic_heap 1%nat.
Proof.
  unfold on_cycle. apply tc_l with (y := 2%nat).
  - unfold consumes. erewrite producers_elem by (vm_compute; reflexivity).
    set_solver.
  - apply tc_once. unfold consumes.
    erewrite producers_elem by (vm_compute; reflexivity). set_solver.
Qed.

(** C1.  The chain [InputNode -> Node -> OutputNode] is a well-formed
    graph, which the scheduler orders when its arguments come in the
    order of its signature.  The constructor passes the input nodes where
    all nodes are expected, so the dependency map has keys for the input
    and output nodes only and the traversal fails on the transformation
    node: construction raises [KeyError]. *)
Theorem chain_rejected_by_constructor :
  ReversibleGraphNet_init elements chain_heap [0; 1; 2]%nat IndNone IndNone false
  = Err KeyError
  ∧ topological_order elements chain_heap [0; 1; 2]%nat [0%nat] [2%nat]
    = Ok [0; 1; 2]%nat.
Proof. split; vm_compute; reflexivity. Qed.

(** C7.  In the graph with inputs [a] and [b], where only [b] leads to
    the output, [a] is not connected to the output.  The scheduler called
    as its signature says reports exactly that; the constructor's call
    raises [KeyError] instead, at the transformation node. *)
Theorem stray_input_raises_key_error :
  ¬ connected_to_output stray_heap [3%nat] 0%nat
  ∧ ReversibleGraphNet_init elements stray_heap [0; 1; 2; 3]%nat IndNone IndNone false
    = Err KeyError
  ∧ topological_order elements stray_heap [0; 1; 2; 3]%nat [0; 1]%nat [3%nat]
    = Err (AssertionError (NotConnected 0)).
Proof.
  split; [apply stray_input_unconnected|]. split; vm_compute; reflexivity.
Qed.

Lemma side_cycle : on_cycle side_cycle_heap 3%nat.
Proof.
  unfold on_cycle. apply tc_l with (y := 4%nat).
  - unfold consumes. erewrite producers_elem by (vm_compute; reflexivity).
    set_solver.
  - apply tc_once. unfold consumes.
    erewrite producers_elem by (vm_compute; reflexivity). set_solver.
Qed.

(** C6.  Beside the chain from the input 0 over the node 1 to the
    output 2, the transformation nodes 3 and 4 feed each other.  The
    scheduler called as its signature says empties its frontier, finds
    the edges of the cycle unconsumed and raises the cycle error.  The
    constructor passes the input nodes where all nodes are expected, so
    that the traversal fails on the node 1, which is no key of the
    dependency map: construction raises [KeyError], not the cycle
    error.  Nor can it raise the cycle error for any other node list
    that holds a transformation node. *)
Theorem side_cycle_raises_key_error :
  on_cycle side_cycle_heap 3%nat
  ∧ ReversibleGraphNet_init elements side_cycle_heap [0; 1; 2; 3; 4]%nat
      IndNone IndNone false = Err KeyError
  ∧ topological_order elements side_cycle_heap [0; 1; 2; 3; 4]%nat [0%nat] [2%nat]
    = Err ValueError_Cyclic
  ∧ ∀ (h : heap Z) nodes force n,
      n ∈ nodes → cls (h n) = ClsNode →
      ReversibleGraphNet_init elements h nodes IndNone IndNone force
      ≠ Err ValueError_Cyclic.
Proof.
  split; [apply side_cycle|]. split; [vm_compute; reflexivity|].
  split; [vm_compute; reflexivity|].
  intros h nodes force n. apply cycle_error_out_of_reach.
Qed.

(** A cycle on the way from the output back to the input is reported
    differently even by the scheduler called as its signature says: the
    traversal never reaches the input, and the connection assertion
    comes before the check for remaining edges. *)
Remark blocking_cycle_raises_assertion :
  on_cycle cyclic_heap 1%nat
  ∧ topological_order elements cyclic_heap [0; 1; 2; 3]%nat [0%nat] [3%nat]
    = Err (AssertionError (NotConnected 0)).
Proof. split; [apply cyclic_heap_cycle|]. vm_compute; reflexivity. Qed.


(** C2.  A net built by the constructor has no [node_list] attribute, so
    [forward] raises [AttributeError] when it comes to the walk.  On a net
    object that has been given the attribute, the tensor the node 1
    produces is written under the key (net, 0): the table has no entry
    (node 1, 0). *)
Theorem outputs_written_under_net_key :
  (∃ g, ReversibleGraphNet_init elements direct_heap [0; 1]%nat IndNone IndNone false
        = Ok g
        ∧ forward Z.add direct_heap g [VTensor 5] [] false false false
          = Err (AttributeError "node_list"))
  ∧ ∃ outs,
      forward Z.add chain_heap (chain_net chain_heap [1%nat]) [VTensor 5] []
        false false true = Ok (ReturnTable outs VNone)
      ∧ outs !! (RefSelf, 0) = Some (VTensor 10)
      ∧ outs !! (RefNode 1, 0) = None.
Proof.
  split.
  - eexists. split; vm_compute; reflexivity.
  - eexists. split; [vm_compute; reflexivity|]. split; vm_compute; reflexivity.
Qed.

(** C3.  Running backward from the latent 10, the scale-by-2 chain
    should hand back the tensor of its input node, 5.  [forward] reads
    the entries of the output nodes in both directions and returns the
    latent it was given; running forward it finds no entry for the
    output node and raises [KeyError]. *)
Theorem backward_returns_output_entries :
  forward Z.add chain_heap (chain_net chain_heap [1%nat]) [VTensor 10] []
    true false false = Ok (ReturnSingle (VTensor 10) VNone)
  ∧ forward Z.add chain_heap (chain_net chain_heap [1%nat]) [VTensor 5] []
      false false false = Err KeyError.
Proof. split; vm_compute; reflexivity. Qed.

(** C4.  With tracking enabled the walk over the one transformation
    node, whose module returns the Jacobian 7, raises [TypeError]: the
    accumulator starts as [None]. *)
Theorem tracked_walk_raises_type_error :
  call scale_module [VTensor 5] None false true
  = Ok (VTuple [VTuple [VTensor 10]; VTensor 7])
  ∧ forward Z.add chain_heap (chain_net chain_heap [1%nat]) [VTensor 5] []
      false true true = Err TypeError.
Proof. split; vm_compute; reflexivity. Qed.


End ExampleFacts.

(** ** More on the scheduler *)

Section OrderFacts.
Context {tensor : Type} `{!TensorOps tensor}.
Variable set_iter : gset nat → list nat.
Variable h : heap tensor.

Lemma dd_get_insert (m : gmap nat (gset nat)) k s a :
  dd_get (<[k := s]> m) a = if decide (k = a) then s else dd_get m a.
Proof. unfold dd_get. rewrite lookup_insert. by case_decide. Qed.

Lemma dd_add_elem (m : gmap nat (gset nat)) x b a b' :
  b' ∈ dd_get (dd_add m x b) a ↔ b' ∈ dd_get m a ∨ (a = x ∧ b' = b).
Proof.
  unfold dd_add. rewrite dd_get_insert. case_decide as E.
  - subst. set_solver.
  - split; [by left|]. intros [?|[-> _]]; [done|by destruct E].
Qed.

Lemma dd_add_all_elem xs (m : gmap nat (gset nat)) b a b' :
  b' ∈ dd_get (fold_left (λ m' x, dd_add m' x b) xs m) a
  ↔ b' ∈ dd_get m a ∨ (a ∈ xs ∧ b' = b).
Proof.
  revert m. induction xs as [|x xs IH]; intros m; simpl.
  - split; [by left|]. intros [?|[H _]]; [done|]. by apply elem_of_nil in H.
  - rewrite IH, dd_add_elem, elem_of_cons. naive_solver.
Qed.

Lemma fill_mirror_elem items (m : gmap nat (gset nat)) a b' :
  b' ∈ dd_get
         (fold_left
            (λ m item, fold_left (λ m' node_in, dd_add m' node_in (fst item))
                         (set_iter (snd item)) m)
            items m) a
  ↔ b' ∈ dd_get m a ∨ ∃ s, (b', s) ∈ items ∧ a ∈ set_iter s.
Proof.
  revert m. induction items as [|[b s] items IH]; intros m; simpl.
  - split; [by left|]. intros [?|(s & H & _)]; [done|].
    by apply elem_of_nil in H.
  - rewrite IH, dd_add_all_elem. split.
    + intros [[?|[? ->]]|(s' & ? & ?)]; [by left| |].
      * right. exists s. split; [left|done].
      * right. exists s'. split; [by right|done].
    + intros [?|(s' & [[= -> ->]|?]%elem_of_cons & ?)]; [by left; left| |].
      * left. by right.
      * right. eauto.
Qed.

(** The mirror map holds [b] under [a] exactly when the set of [b] is
    iterated to yield [a]. *)
Lemma build_in_to_out_elem (out_to_in : gmap nat (gset nat)) a b :
  b ∈ dd_get (build_in_to_out set_iter out_to_in) a
  ↔ ∃ s, out_to_in !! b = Some s ∧ a ∈ set_iter s.
Proof.
  unfold build_in_to_out. rewrite fill_mirror_elem.
  unfold dd_get at 1. rewrite lookup_empty. simpl. split.
  - intros [H|(s & H & ?)]; [set_solver|].
    apply elem_of_map_to_list in H. eauto.
  - intros (s & H & ?). right. exists s. by rewrite elem_of_map_to_list.
Qed.

Lemma build_out_to_in_Some keys k :
  k ∈ keys → build_out_to_in h keys !! k = Some (producers h k).
Proof.
  unfold build_out_to_in. intros Hk.
  assert (∀ m : gmap nat (gset nat), (k ∈ keys ∨ m !! k = Some (producers h k)) →
            fold_left (λ m node_b, <[node_b := producers h node_b]> m) keys m !! k
            = Some (producers h k)) as H; [|apply H; by left].
  clear Hk. induction keys as [|b keys IH]; intros m [Hk|Hm]; simpl.
  - by apply elem_of_nil in Hk.
  - done.
  - apply elem_of_cons in Hk as [->|Hk]; apply IH; [right|by left].
    apply lookup_insert_eq.
  - apply IH. right. rewrite lookup_insert. by case_decide; subst.
Qed.

Lemma release_edge_queue node st x st' :
  release_edge node st x = Ok st' →
  no_pending_edges st'
  = if (size (dd_get (edges_in_to_out st) x ∖ {[node]}) =? 0)%nat
    then no_pending_edges st ++ [x] else no_pending_edges st.
Proof.
  unfold release_edge, dict_get, set_remove. intros H.
  destruct (edges_out_to_in st !! node) as [s1|]; [|discriminate H].
  simpl in H. case_bool_decide; [|discriminate H]. simpl in H.
  case_bool_decide; [|discriminate H]. simpl in H. by injection H as <-.
Qed.

Lemma kahn_preserves (P : kahn_state → Prop) :
  (∀ st node rest st', P st → no_pending_edges st = node :: rest →
     kahn_step set_iter st node rest = Ok st' → P st') →
  ∀ fuel st st', P st → kahn set_iter fuel st = Ok st' → P st'.
Proof.
  intros Hstep. induction fuel as [|fuel IH]; intros st st' HP H.
  - by injection H as <-.
  - simpl in H. destruct (no_pending_edges st) as [|node rest] eqn:Hq.
    + by injection H as <-.
    + apply bind_Ok in H as (st1 & H1 & H). eauto.
Qed.

(** A step keeps any property kept by releasing an edge of a node that is
    in the result, provided the property only looks at the timeline and
    the maps. *)
Lemma kahn_step_preserves (P : kahn_state → Prop) st node rest st' :
  (∀ s x s', P s → node ∈ sorted_nodes s → release_edge node s x = Ok s' → P s') →
  P {| edges_out_to_in := edges_out_to_in st;
       edges_in_to_out := edges_in_to_out st;
       sorted_nodes := sorted_nodes st ++ [node];
       no_pending_edges := rest |} →
  kahn_step set_iter st node rest = Ok st' → P st'.
Proof.
  intros Hrel HP H. unfold kahn_step in H.
  apply bind_Ok in H as (ins & _ & H).
  apply (foldM_invariant _ (λ s, P s ∧ node ∈ sorted_nodes s)) in H; [apply H| |].
  - intros s x s' [Hs Hn] Hr. split; [eauto|].
    apply release_edge_Ok in Hr as (_ & _ & _ & _ & _ & _ & -> & _). done.
  - split; [done|]. simpl. apply elem_of_app. right. left.
Qed.

Lemma release_edge_timeline node st x st' :
  release_edge node st x = Ok st' →
  timeline st' = timeline st
  ∨ (timeline st' = timeline st ++ [x] ∧ dd_get (edges_in_to_out st') x = ∅).
Proof.
  intros H. pose proof (release_edge_queue _ _ _ _ H) as Hq.
  apply release_edge_Ok in H as (s1 & _ & _ & _ & _ & Hi & Hs & _).
  unfold timeline. rewrite Hs, Hq.
  destruct (size _ =? 0)%nat eqn:E; [right|by left].
  split; [by rewrite app_assoc|].
  rewrite Hi, dd_get_insert. rewrite decide_True by done.
  apply Nat.eqb_eq in E. by apply leibniz_equiv, size_empty_inv.
Qed.

Lemma release_edge_mirrored node st x st' :
  mirrored st → release_edge node st x = Ok st' → mirrored st'.
Proof.
  intros Hmir (s1 & H1 & Hx & Hn & Ho & Hi & _)%release_edge_Ok a b.
  rewrite Hi, Ho, dd_get_insert, lookup_insert.
  specialize (Hmir a b).
  destruct (decide (x = a)) as [->|Ha], (decide (node = b)) as [->|Hb].
  - split; [set_solver|]. intros (s & [= <-] & ?). set_solver.
  - rewrite <- Hmir. set_solver.
  - rewrite Hmir, H1. split.
    + intros (s & [= <-] & ?). exists (s1 ∖ {[x]}). split; [done|set_solver].
    + intros (s & [= <-] & ?). exists s1. split; [done|set_solver].
  - done.
Qed.

Lemma release_edge_order_inv K O node st x st' :
  order_inv h K O st → node ∈ sorted_nodes st →
  release_edge node st x = Ok st' → order_inv h K O st'.
Proof.
  intros (Hmir & Htouch & Hrel & Hseed) Hnode H.
  pose proof (release_edge_timeline _ _ _ _ H) as Htl.
  pose proof H as (s1 & H1 & Hx & Hn & Ho & Hi & Hs & _)%release_edge_Ok.
  split; [|split; [|split]].
  - by eapply release_edge_mirrored.
  - intros b Hb. rewrite Hs, Ho, lookup_insert.
    destruct (decide (node = b)) as [->|Hne]; [by right|]. by apply Htouch.
  - intros b a Hb Ha.
    assert (Hlater : ∀ pre post, timeline st = pre ++ b :: post →
              a ∈ post ∨ pending st a ∨ a = x →
              ∃ pre' post', timeline st' = pre' ++ b :: post'
                            ∧ (a ∈ post' ∨ pending st' a)).
    { intros pre post Hpp Hcase.
      destruct Htl as [Htl|[Htl Hempty]].
      - exists pre, post. rewrite Htl. split; [done|].
        destruct Hcase as [?|[Hp| ->]]; [by left| |].
        + right. unfold pending in *. rewrite Hi, dd_get_insert.
          case_decide as E; [|done]. subst a.
          intros Hz. (* the queue would have grown *)
          pose proof (release_edge_queue _ _ _ _ H) as Hq.
          rewrite Hz, size_empty in Hq. simpl in Hq.
          unfold timeline in Htl. rewrite Hs, Hq in Htl.
          apply (f_equal (@length _)) in Htl. rewrite !length_app in Htl.
          simpl in Htl. lia.
        + right. unfold pending. intros Hz.
          pose proof (release_edge_queue _ _ _ _ H) as Hq.
          rewrite Hi, dd_get_insert, decide_True in Hz by done.
          rewrite Hz, size_empty in Hq. simpl in Hq.
          unfold timeline in Htl. rewrite Hs, Hq in Htl.
          apply (f_equal (@length _)) in Htl. rewrite !length_app in Htl.
          simpl in Htl. lia.
      - exists pre, (post ++ [x]). rewrite Htl, Hpp, <- app_assoc. simpl.
        split; [done|].
        destruct Hcase as [?|[Hp| ->]]; [left; set_solver| |left; set_solver].
        destruct (decide (a = x)) as [->|Hne]; [left; set_solver|].
        right. unfold pending in *. rewrite Hi, dd_get_insert.
        by rewrite decide_False by done. }
    destruct (Hrel b a Hb Ha) as [(s & Hbs & Has)|(pre & post & Hpp & Hcase)].
    + destruct (decide (node = b ∧ a = x)) as [[-> ->]|Hne].
      * right. apply list_elem_of_split in Hnode as (pre & post & Hsp).
        apply (Hlater pre (post ++ no_pending_edges st)).
        -- unfold timeline. rewrite Hsp, <- app_assoc. done.
        -- by right; right.
      * left. rewrite Ho, lookup_insert. case_decide as E.
        -- subst b. rewrite H1 in Hbs. injection Hbs as <-.
           exists (s1 ∖ {[x]}). split; [done|].
           apply elem_of_difference. split; [done|].
           intros ->%elem_of_singleton. by destruct Hne.
        -- eauto.
    + right. apply (Hlater pre post Hpp). destruct Hcase; auto.
  - intros o Ho'. specialize (Hseed o Ho').
    destruct Htl as [->|[-> _]]; [done|]. apply elem_of_app. by left.
Qed.

Lemma kahn_step_order_inv K O st node rest st' :
  order_inv h K O st → no_pending_edges st = node :: rest →
  kahn_step set_iter st node rest = Ok st' → order_inv h K O st'.
Proof.
  intros Hinv Hq.
  apply kahn_step_preserves.
  - intros s x s' Hs Hn. by apply release_edge_order_inv.
  - destruct Hinv as (Hmir & Htouch & Hrel & Hseed).
    assert (Htl : timeline {| edges_out_to_in := edges_out_to_in st;
                               edges_in_to_out := edges_in_to_out st;
                               sorted_nodes := sorted_nodes st ++ [node];
                               no_pending_edges := rest |} = timeline st).
    { unfold timeline. simpl. rewrite Hq, <- app_assoc. done. }
    split; [|split; [|split]].
    + exact Hmir.
    + intros b Hb. simpl. destruct (Htouch b Hb); [by left|right; set_solver].
    + intros b a Hb Ha. rewrite Htl. apply (Hrel b a Hb Ha).
    + intros o Ho. rewrite Htl. by apply Hseed.
Qed.

Lemma kahn_order_inv K O fuel st st' :
  order_inv h K O st → kahn set_iter fuel st = Ok st' → order_inv h K O st'.
Proof. apply kahn_preserves. apply kahn_step_order_inv. Qed.
End OrderFacts.

Section OrderTheorems.
Context {tensor : Type} `{!TensorOps tensor}.
Variable set_iter : gset nat → list nat.
Variable h : heap tensor.

(** Iterating a set yields exactly its elements. *)
Hypothesis set_iter_elem : ∀ s x, x ∈ set_iter s ↔ x ∈ s.

Lemma kahn_init_order_inv all_nodes out_nodes :
  order_inv h (list_to_set (all_nodes ++ out_nodes)) out_nodes
    (kahn_init set_iter h all_nodes out_nodes).
Proof.
  split; [|split; [|split]].
  - intros a b. simpl. rewrite build_in_to_out_elem.
    by setoid_rewrite set_iter_elem.
  - intros b Hb. left. simpl. apply build_out_to_in_Some. set_solver.
  - intros b a Hb Ha. left. exists (producers h b). split; [|done].
    simpl. apply build_out_to_in_Some. set_solver.
  - intros o Ho. unfold timeline. simpl. done.
Qed.

Lemma traversal_inv_init all_nodes out_nodes :
  traversal_inv h (key_set all_nodes out_nodes) out_nodes
    (kahn_init set_iter h all_nodes out_nodes).
Proof.
  split; [|split; [|split]].
  - unfold kahn_inv. simpl. split; [|split; [|split]].
    + unfold build_out_to_in. rewrite build_out_to_in_dom, dom_empty_L.
      unfold key_set. set_solver.
    + intros k s Hk. apply build_out_to_in_lookup in Hk as [Hk|[_ ->]]; [|done].
      by rewrite lookup_empty in Hk.
    + intros n Hn. by apply elem_of_nil in Hn.
    + intros n Hn. unfold key_set. set_solver.
  - by apply kahn_init_order_inv.
  - intros b Hb. by apply elem_of_nil in Hb.
  - intros a b Hb Ha. left. unfold pending. simpl.
    assert (b ∈ dd_get (build_in_to_out set_iter
                          (build_out_to_in h (all_nodes ++ out_nodes))) a) as Hin.
    { apply build_in_to_out_elem. exists (producers h b).
      split; [|by apply set_iter_elem].
      apply build_out_to_in_Some. unfold key_set in Hb. set_solver. }
    set_solver.
Qed.

Lemma no_edges_no_pending (m : gmap nat (gset nat)) a :
  edge_count m = 0%nat → dd_get m a = ∅.
Proof.
  intros Hz. unfold dd_get. destruct (m !! a) as [s|] eqn:E; [|done].
  simpl. by apply (proj1 (edge_count_zero m) Hz a).
Qed.

(** What holds of the final state of a call that returned. *)
Lemma topological_order_final all_nodes in_nodes out_nodes order :
  topological_order set_iter h all_nodes in_nodes out_nodes = Ok order →
  ∃ st, order = rev (sorted_nodes st)
    ∧ timeline st = sorted_nodes st
    ∧ (∀ a, dd_get (edges_in_to_out st) a = ∅)
    ∧ order_inv h (list_to_set (all_nodes ++ out_nodes)) out_nodes st
    ∧ (∀ n, n ∈ sorted_nodes st → n ∈ all_nodes ++ out_nodes).
Proof.
  intros H.
  pose proof H as (st & Hk & Hq & -> & Hz & _ & Hmem)%topological_order_Ok.
  exists st. split; [done|]. split; [|split; [|split]].
  - unfold timeline. rewrite Hq. apply app_nil_r.
  - intros a. by apply no_edges_no_pending.
  - eapply kahn_order_inv; [|exact Hk]. apply kahn_init_order_inv.
  - intros n Hn. rewrite <- elem_of_rev_list in Hn.
    apply Hmem in Hn as [Hn _]. set_solver.
Qed.

(** X2.  What a returned order contains: every output node, every node
    the connection assertion checks, and every node of the dependency
    map that has an input; and nothing but nodes of the dependency map
    that are connected to an output. *)
Theorem returned_order_members all_nodes in_nodes out_nodes order :
  topological_order set_iter h all_nodes in_nodes out_nodes = Ok order →
  (∀ o, o ∈ out_nodes → o ∈ order)
  ∧ (∀ a, a ∈ in_nodes → a ∈ order)
  ∧ (∀ b a, b ∈ all_nodes ++ out_nodes → consumes h b a → b ∈ order)
  ∧ (∀ n, n ∈ order →
       n ∈ all_nodes ++ out_nodes ∧ connected_to_output h out_nodes n).
Proof.
  intros H.
  pose proof H as (st & -> & Htl & Hnone & (Hmir & Htouch & _ & Hseed) & _)%topological_order_final.
  pose proof H as (_ & _ & _ & _ & _ & Hin & Hmem)%topological_order_Ok.
  split; [|split; [|split]].
  - intros o Ho. rewrite elem_of_rev_list, <- Htl. by apply Hseed.
  - exact Hin.
  - intros b a Hb Ha. rewrite elem_of_rev_list.
    destruct (Htouch b) as [Hs|?]; [set_solver| |done].
    assert (b ∈ dd_get (edges_in_to_out st) a) as Hba by (apply Hmir; eauto).
    rewrite Hnone in Hba. set_solver.
  - intros n Hn. apply Hmem in Hn as [Hn ?]. split; [set_solver|done].
Qed.

(** X3.  A node of the dependency map that has an input but leads to no
    output makes the scheduler fail, whatever else the graph holds. *)
Theorem dead_end_rejected all_nodes in_nodes out_nodes b a :
  b ∈ all_nodes ++ out_nodes → consumes h b a →
  ¬ connected_to_output h out_nodes b →
  ∃ e, topological_order set_iter h all_nodes in_nodes out_nodes = Err e.
Proof.
  intros Hb Ha Hnc.
  destruct (topological_order _ _ _ _ _) as [order|e] eqn:E; [|by eexists].
  pose proof E as (st & -> & _ & Hnone & (Hmir & Htouch & _) & _)%topological_order_final.
  apply topological_order_Ok in E as (_ & _ & _ & _ & _ & _ & Hmem).
  destruct Hnc. apply Hmem. rewrite elem_of_rev_list.
  destruct (Htouch b) as [Hs|?]; [set_solver| |done].
  assert (b ∈ dd_get (edges_in_to_out st) a) as Hba by (apply Hmir; eauto).
  rewrite Hnone in Hba. set_solver.
Qed.

Lemma release_edge_once_inv node st x st' :
  once_inv st → release_edge node st x = Ok st' → once_inv st'.
Proof.
  intros [Hnd Hidle] H.
  pose proof (release_edge_timeline _ _ _ _ H) as Htl.
  apply release_edge_Ok in H as (s1 & _ & _ & Hn & _ & Hi & _ & _).
  assert (Hx : x ∉ timeline st).
  { intros Hx. rewrite (Hidle x Hx) in Hn. set_solver. }
  assert (Hkeep : ∀ y, y ∈ timeline st → dd_get (edges_in_to_out st') y = ∅).
  { intros y Hy. rewrite Hi, dd_get_insert. case_decide; [by subst|auto]. }
  unfold once_inv. destruct Htl as [->|[-> Hempty]]; split; try done.
  - apply NoDup_app. split; [done|]. split; [|apply NoDup_singleton].
    intros y Hy ->%list_elem_of_singleton. done.
  - intros y [Hy| ->%list_elem_of_singleton]%elem_of_app; auto.
Qed.

Lemma kahn_once_inv fuel st st' :
  once_inv st → kahn set_iter fuel st = Ok st' → once_inv st'.
Proof.
  apply kahn_preserves. clear st st'. intros st node rest st' Hinv Hq.
  apply kahn_step_preserves.
  - intros s x s' Hs _. by apply release_edge_once_inv.
  - unfold once_inv, timeline in *. simpl. rewrite Hq in Hinv.
    by rewrite <- app_assoc.
Qed.

Lemma kahn_init_once_inv all_nodes out_nodes :
  NoDup out_nodes →
  (∀ o b, o ∈ out_nodes → b ∈ all_nodes ++ out_nodes → ¬ consumes h b o) →
  once_inv (kahn_init set_iter h all_nodes out_nodes).
Proof.
  intros Hnd Hsink. split; [done|]. intros o Ho. simpl in *.
  apply elem_of_equiv_empty_L. intros b Hb.
  apply build_in_to_out_elem in Hb as (s & Hs & Hos).
  apply build_out_to_in_lookup in Hs as [Hs|[Hb ->]];
    [by rewrite lookup_empty in Hs|].
  apply set_iter_elem in Hos. by apply (Hsink o b).
Qed.

(** X4.  When no output node is listed twice and none of them feeds a
    node of the dependency map, no node occurs twice in a returned
    order. *)
Theorem returned_order_NoDup all_nodes in_nodes out_nodes order :
  NoDup out_nodes →
  (∀ o b, o ∈ out_nodes → b ∈ all_nodes ++ out_nodes → ¬ consumes h b o) →
  topological_order set_iter h all_nodes in_nodes out_nodes = Ok order →
  NoDup order.
Proof.
  intros Hnd Hsink H.
  pose proof H as (st & Hk & Hq & -> & _)%topological_order_Ok.
  apply NoDup_ListNoDup, List.NoDup_rev, NoDup_ListNoDup.
  pose proof (kahn_init_once_inv all_nodes out_nodes Hnd Hsink) as Hinit.
  apply (kahn_once_inv _ _ _ Hinit) in Hk as [Hk _].
  unfold timeline in Hk. by rewrite Hq, app_nil_r in Hk.
Qed.
End OrderTheorems.

Section Completeness.
Context {tensor : Type} `{!TensorOps tensor}.
Variable set_iter : gset nat → list nat.
Variable h : heap tensor.

Hypothesis set_iter_elem : ∀ s x, x ∈ set_iter s ↔ x ∈ s.
Hypothesis set_iter_NoDup : ∀ s, NoDup (set_iter s).

Lemma release_edge_succeeds node st x s1 :
  edges_out_to_in st !! node = Some s1 → x ∈ s1 → mirrored st →
  ∃ st', release_edge node st x = Ok st'.
Proof.
  intros H1 Hx Hmir. unfold release_edge, dict_get, set_remove.
  rewrite H1. simpl. rewrite bool_decide_true by done. simpl.
  rewrite bool_decide_true; [by eexists|]. apply Hmir. eauto.
Qed.

Lemma release_all_succeed node xs st s0 :
  NoDup xs → (∀ x, x ∈ xs → x ∈ s0) →
  edges_out_to_in st !! node = Some s0 → mirrored st →
  ∃ st', foldM (release_edge node) xs st = Ok st'.
Proof.
  revert st s0. induction xs as [|x xs IH]; intros st s0 Hnd Hin H0 Hmir;
    [by eexists|].
  apply NoDup_cons in Hnd as [Hx Hnd].
  destruct (release_edge_succeeds node st x s0 H0) as [st1 H1];
    [apply Hin; left|done|].
  simpl. rewrite H1. simpl.
  pose proof H1 as (s1 & Hs1 & _ & _ & Ho & _)%release_edge_Ok.
  rewrite H0 in Hs1. injection Hs1 as <-.
  apply (IH st1 (s0 ∖ {[x]})); [done| | |by eapply release_edge_mirrored].
  - intros y Hy. apply elem_of_difference. split; [apply Hin; by right|].
    intros ->%elem_of_singleton. done.
  - rewrite Ho. apply lookup_insert_eq.
Qed.

Lemma release_all_result node xs st st' s0 :
  foldM (release_edge node) xs st = Ok st' →
  edges_out_to_in st !! node = Some s0 →
  edges_out_to_in st' = <[node := s0 ∖ list_to_set xs]> (edges_out_to_in st).
Proof.
  revert st s0. induction xs as [|x xs IH]; intros st s0 H H0.
  - injection H as <-. simpl. rewrite difference_empty_L.
    symmetry. by apply insert_id.
  - simpl in H. apply bind_Ok in H as (st1 & H1 & H).
    pose proof H1 as (s1 & Hs1 & _ & _ & Ho & _)%release_edge_Ok.
    rewrite H0 in Hs1. injection Hs1 as <-.
    rewrite (IH st1 (s0 ∖ {[x]}) H); [|rewrite Ho; apply lookup_insert_eq].
    rewrite Ho, insert_insert_eq. f_equal. set_solver.
Qed.

(** Between iterations, the set of every node in the result is empty. *)
Lemma kahn_step_drained st node rest st' :
  (∀ b, b ∈ sorted_nodes st → edges_out_to_in st !! b = Some ∅) →
  kahn_step set_iter st node rest = Ok st' →
  ∀ b, b ∈ sorted_nodes st' → edges_out_to_in st' !! b = Some ∅.
Proof.
  intros Hinv H. unfold kahn_step in H.
  apply bind_Ok in H as (ins & Hins & H). simpl in Hins.
  unfold dict_get in Hins.
  destruct (edges_out_to_in st !! node) as [s0|] eqn:E; [|discriminate Hins].
  injection Hins as <-.
  pose proof (release_all_result _ _ _ _ s0 H E) as Ho. simpl in Ho.
  assert (sorted_nodes st' = sorted_nodes st ++ [node]) as Hs.
  { apply (foldM_invariant _ (λ s, sorted_nodes s = sorted_nodes st ++ [node]))
      in H; [done| |done].
    intros s x s' Hs (_ & _ & _ & _ & _ & _ & -> & _)%release_edge_Ok. done. }
  intros b Hb. rewrite Ho, lookup_insert. case_decide as Eb.
  - f_equal. apply elem_of_equiv_empty_L. intros x.
    rewrite elem_of_difference, elem_of_list_to_set, set_iter_elem. tauto.
  - rewrite Hs in Hb. apply elem_of_app in Hb as [Hb|Hb%list_elem_of_singleton];
      [auto|congruence].
Qed.

(** A node that some key consumes is pending or on the timeline. *)
Lemma release_edge_awaited (K : gset nat) node st x st' :
  (∀ a b, b ∈ K → a ∈ producers h b → pending st a ∨ a ∈ timeline st) →
  release_edge node st x = Ok st' →
  ∀ a b, b ∈ K → a ∈ producers h b → pending st' a ∨ a ∈ timeline st'.
Proof.
  intros Hinv H a b Hb Ha.
  pose proof (release_edge_timeline _ _ _ _ H) as Htl.
  pose proof (release_edge_queue _ _ _ _ H) as Hq.
  pose proof H as (s1 & _ & _ & _ & _ & Hi & Hs & _)%release_edge_Ok.
  destruct (decide (a = x)) as [->|Hne].
  - destruct (size (dd_get (edges_in_to_out st) x ∖ {[node]}) =? 0)%nat eqn:E.
    + right. unfold timeline. rewrite Hq, Hs. set_solver.
    + left. unfold pending. rewrite Hi, dd_get_insert, decide_True by done.
      intros Hz. rewrite Hz, size_empty in E. discriminate E.
  - destruct (Hinv a b Hb Ha) as [Hp|Ht].
    + left. unfold pending in *. by rewrite Hi, dd_get_insert, decide_False.
    + right. destruct Htl as [->|[-> _]]; set_solver.
Qed.

Section Closed.
Variables all_nodes in_nodes out_nodes : list nat.
Local Abbreviation K := (key_set all_nodes out_nodes).

(** The dependency map is closed under producers. *)
Hypothesis closed : ∀ b a, b ∈ all_nodes ++ out_nodes → consumes h b a →
                           a ∈ all_nodes ++ out_nodes.

Local Abbreviation J := (traversal_inv h K out_nodes).

Lemma keys_closed b a : b ∈ K → a ∈ producers h b → a ∈ K.
Proof. unfold key_set. rewrite !elem_of_list_to_set. intros. by eapply closed. Qed.

Lemma path_in_keys o p : rtc (consumes h) o p → o ∈ K → p ∈ K.
Proof. induction 1; [done|]. intros. apply IHrtc. by eapply keys_closed. Qed.

Lemma J_step st node rest :
  J st → no_pending_edges st = node :: rest →
  ∃ st', kahn_step set_iter st node rest = Ok st' ∧ J st'.
Proof.
  intros (Hk & Ho & Hd & Ha) Hq.
  assert (∃ st', kahn_step set_iter st node rest = Ok st') as [st' Hstep].
  { destruct Hk as (Hdom & _ & _ & Hqueue).
    assert (node ∈ K) as Hn by (apply Hqueue; rewrite Hq; left).
    rewrite <- Hdom in Hn. apply elem_of_dom in Hn as [s0 Hs0].
    unfold kahn_step, dict_get. simpl. rewrite Hs0. simpl.
    apply (release_all_succeed node _ _ s0); try done.
    - intros x. apply set_iter_elem.
    - apply Ho. }
  exists st'. split; [done|]. split; [|split; [|split]].
  - eapply kahn_step_inv; [|exact Hk|exact Hq|exact Hstep].
    intros b a. apply keys_closed.
  - by eapply kahn_step_order_inv.
  - by eapply kahn_step_drained.
  - revert Hstep.
    apply (kahn_step_preserves set_iter
             (λ s, ∀ a b, b ∈ K → a ∈ producers h b → pending s a ∨ a ∈ timeline s)).
    + intros s x s' Hs _ Hr. by eapply release_edge_awaited.
    + intros a b Hb Hab. destruct (Ha a b Hb Hab) as [?|Ht]; [by left|right].
      unfold timeline in *. simpl. by rewrite Hq, <- app_assoc in *.
Qed.

Lemma J_kahn fuel st :
  J st → ∃ st', kahn set_iter fuel st = Ok st' ∧ J st'.
Proof.
  revert st. induction fuel as [|fuel IH]; intros st HJ; [by eexists|].
  simpl. destruct (no_pending_edges st) as [|node rest] eqn:Hq; [by eexists|].
  destruct (J_step st node rest HJ Hq) as (st1 & -> & HJ1). simpl. by apply IH.
Qed.

Section Live.
(** Inputs come from earlier nodes, as in a store built by the
    constructors; every node of the dependency map that has an input
    leads to an output; and so does every node the connection assertion
    checks. *)
Hypothesis earlier : ∀ b a, b ∈ all_nodes ++ out_nodes → consumes h b a → (a < b)%nat.
Hypothesis live : ∀ b a, b ∈ all_nodes ++ out_nodes → consumes h b a →
                         connected_to_output h out_nodes b.
Hypothesis inputs_connected : ∀ a, a ∈ in_nodes → connected_to_output h out_nodes a.

(** Once the queue is empty, every key with an input is in the result. *)
Lemma no_key_left st b a :
  J st → no_pending_edges st = [] → b ∈ K → a ∈ producers h b →
  b ∈ sorted_nodes st.
Proof.
  intros (Hk & (Hmir & _ & _ & Hseed) & Hd & Ha) Hq.
  assert (Htl : timeline st = sorted_nodes st)
    by (unfold timeline; rewrite Hq; apply app_nil_r).
  destruct Hk as (Hdom & Hsub & _ & _).
  set (N := S (list_max (all_nodes ++ out_nodes))).
  assert (Hbound : ∀ x, x ∈ K → (x < N)%nat).
  { intros x Hx. unfold key_set in Hx. apply elem_of_list_to_set in Hx.
    pose proof (proj1 (list_max_le (all_nodes ++ out_nodes) _) (le_n _)) as HF.
    rewrite List.Forall_forall in HF. apply list_elem_of_In, HF in Hx.
    unfold N. lia. }
  assert (Hind : ∀ n b, (N - b ≤ n)%nat → b ∈ K → (∃ a, a ∈ producers h b) →
                        b ∈ sorted_nodes st).
  { induction n as [|n IH]; intros c Hn Hc [a' Ha'].
    - specialize (Hbound c Hc). lia.
    - destruct (decide (c ∈ sorted_nodes st)) as [|Hnot]; [done|]. exfalso.
      assert (connected_to_output h out_nodes c) as (o & Hoo & Hpath).
      { apply (live c a'); [|done]. unfold key_set in Hc. set_solver. }
      apply rtc_inv_r in Hpath as [->|(p & Hpath & Hpc)].
      { apply Hnot. rewrite <- Htl. by apply Hseed. }
      assert (p ∈ K) as Hp.
      { apply (path_in_keys o p Hpath). unfold key_set. set_solver. }
      destruct (Ha c p Hp Hpc) as [Hpend|Ht]; [|by rewrite Htl in Ht].
      apply set_choose_L in Hpend as [c2 Hc2].
      apply Hmir in Hc2 as (s & Hs & Hcs).
      assert (c2 ∈ K) as Hc2K by (rewrite <- Hdom; by eapply elem_of_dom_2).
      assert (c ∈ producers h c2) as Hcons by (by apply (Hsub c2 s)).
      assert (c2 ∈ sorted_nodes st) as Hin.
      { apply IH; [|done|eauto].
        assert (c < c2)%nat as Hlt
          by (apply earlier; [unfold key_set in Hc2K; set_solver|done]).
        specialize (Hbound c2 Hc2K). lia. }
      apply Hd in Hin. rewrite Hs in Hin. injection Hin as ->. set_solver. }
  intros Hb Hab. apply (Hind (N - b)%nat); eauto.
Qed.

(** Under these hypotheses the scheduler returns an order. *)
Lemma topological_order_succeeds :
  ∃ order, topological_order set_iter h all_nodes in_nodes out_nodes = Ok order.
Proof.
  destruct (J_kahn (kahn_fuel (kahn_init set_iter h all_nodes out_nodes))
              _ (traversal_inv_init set_iter h set_iter_elem all_nodes out_nodes))
    as (st & Hk & HJ).
  assert (Hq : no_pending_edges st = []).
  { eapply kahn_runs_to_completion; [|exact Hk]. unfold kahn_fuel. lia. }
  pose proof HJ as (Hki & (Hmir & _ & _ & Hseed) & Hd & Ha).
  assert (Htl : timeline st = sorted_nodes st)
    by (unfold timeline; rewrite Hq; apply app_nil_r).
  assert (Hnone : ∀ a, dd_get (edges_in_to_out st) a = ∅).
  { intros a. apply elem_of_equiv_empty_L. intros b Hb.
    apply Hmir in Hb as (s & Hs & Has).
    destruct Hki as (Hdom & Hsub & _ & _).
    assert (b ∈ sorted_nodes st) as Hin.
    { apply (no_key_left st b a HJ Hq).
      - rewrite <- Hdom. by eapply elem_of_dom_2.
      - by apply (Hsub b s). }
    apply Hd in Hin. rewrite Hs in Hin. injection Hin as ->. set_solver. }
  exists (rev (sorted_nodes st)). unfold topological_order. rewrite Hk. simpl.
  assert (assert_connected in_nodes (sorted_nodes st) = Ok tt) as ->.
  { apply assert_connected_Ok. intros a Hain.
    destruct (inputs_connected a Hain) as (o & Hoo & Hpath).
    apply rtc_inv_r in Hpath as [->|(p & Hpath & Hpc)].
    - rewrite <- Htl. by apply Hseed.
    - assert (p ∈ K) as Hp.
      { apply (path_in_keys o p Hpath). unfold key_set. set_solver. }
      destruct (Ha a p Hp Hpc) as [Hpend|Ht]; [|by rewrite Htl in Ht].
      by destruct Hpend. }
  simpl.
  assert (edge_count (edges_in_to_out st) = 0%nat) as ->; [|done].
  apply edge_count_zero. intros k s Hks. specialize (Hnone k).
  unfold dd_get in Hnone. by rewrite Hks in Hnone.
Qed.
End Live.
End Closed.
End Completeness.

Section SchedulerOutcomes.
Context {tensor : Type} `{!TensorOps tensor}.
Variable set_iter : gset nat → list nat.
Variable h : heap tensor.

Lemma kahn_fuel_irrelevant fuel1 fuel2 st :
  (length (no_pending_edges st) + edge_count (edges_out_to_in st) < fuel1)%nat →
  (length (no_pending_edges st) + edge_count (edges_out_to_in st) < fuel2)%nat →
  kahn set_iter fuel1 st = kahn set_iter fuel2 st.
Proof.
  revert fuel2 st. induction fuel1 as [|fuel1 IH]; intros [|fuel2] st H1 H2;
    try lia.
  simpl. destruct (no_pending_edges st) as [|node rest] eqn:Hq; [done|].
  destruct (kahn_step set_iter st node rest) as [st1|e] eqn:Hstep; [|done].
  simpl. pose proof (kahn_step_measure _ _ _ _ _ Hq Hstep) as Hm.
  rewrite Hq in Hm. simpl in *. apply IH; lia.
Qed.

(** X5.  The traversal loop terminates: it makes at most one iteration
    per queued node and per dependency edge. Allowing more iterations
    than that changes nothing, and the loop is left with an empty queue. *)
Theorem traversal_terminates fuel st :
  (kahn_fuel st ≤ fuel)%nat →
  kahn set_iter fuel st = kahn set_iter (kahn_fuel st) st
  ∧ ∀ st', kahn set_iter fuel st = Ok st' → no_pending_edges st' = [].
Proof.
  intros Hle. unfold kahn_fuel in *. split.
  - apply kahn_fuel_irrelevant; lia.
  - intros st' H. eapply kahn_runs_to_completion; [|exact H]. lia.
Qed.


Section Faithful.
Hypothesis set_iter_elem : ∀ s x, x ∈ set_iter s ↔ x ∈ s.
Lemma order_indices all_nodes in_nodes out_nodes order b a (j : nat) :
  topological_order set_iter h all_nodes in_nodes out_nodes = Ok order →
  NoDup order → order !! j = Some b → consumes h b a →
  ∃ i : nat, (i < j)%nat ∧ order !! i = Some a.
Proof.
  intros H Hnd Hj Hba.
  pose proof H as (st & -> & Htl & Hnone & (Hmir & _ & Hrel & _) & Hkeys)%topological_order_final;
    [|done].
  assert (b ∈ sorted_nodes st) as Hb.
  { rewrite <- elem_of_rev_list. by eapply list_elem_of_lookup_2. }
  destruct (Hrel b a) as [(s & Hs & Has)|(pre & post & Hpp & [Hpost|Hpend])].
  - apply Hkeys in Hb. set_solver.
  - exact Hba.
  - assert (b ∈ dd_get (edges_in_to_out st) a) as Hin by (apply Hmir; eauto).
    rewrite Hnone in Hin. set_solver.
  - apply list_elem_of_split in Hpost as (p1 & p2 & ->).
    rewrite Htl in Hpp.
    assert (rev (sorted_nodes st) = rev p2 ++ a :: rev p1 ++ b :: rev pre) as Hrev.
    { rewrite Hpp, rev_app_distr. simpl. rewrite rev_app_distr. simpl.
      by rewrite <- !app_assoc. }
    rewrite Hrev in *.
    assert ((rev p2 ++ a :: rev p1 ++ b :: rev pre)
              !! (length (rev p2 ++ a :: rev p1)) = Some b) as Hjb.
    { replace (rev p2 ++ a :: rev p1 ++ b :: rev pre)
        with ((rev p2 ++ a :: rev p1) ++ b :: rev pre)
        by (by rewrite <- app_assoc).
      apply list_lookup_middle. done. }
    pose proof (NoDup_lookup _ _ _ _ Hnd Hj Hjb) as ->.
    exists (length (rev p2)). split.
    + rewrite length_app. simpl. lia.
    + by apply list_lookup_middle.
  - by destruct Hpend.
Qed.

(** X1.  Topological validity: when no output node is listed twice and
    none of them feeds a node of the dependency map, every node of a
    returned order comes after each of the producers of its inputs:
    wherever the node stands, each producer stands at an earlier
    position. *)
Theorem order_respects_dependencies all_nodes in_nodes out_nodes order b a (j : nat) :
  NoDup out_nodes →
  (∀ o b, o ∈ out_nodes → b ∈ all_nodes ++ out_nodes → ¬ consumes h b o) →
  topological_order set_iter h all_nodes in_nodes out_nodes = Ok order →
  order !! j = Some b → consumes h b a →
  ∃ i : nat, (i < j)%nat ∧ order !! i = Some a.
Proof.
  intros Hnd Hsink E Hj Hba.
  assert (Hnodup : NoDup order).
  { pose proof E as (st & Hk & Hq & -> & _)%topological_order_Ok.
    apply NoDup_ListNoDup, List.NoDup_rev, NoDup_ListNoDup.
    pose proof (kahn_init_once_inv set_iter h set_iter_elem
                  all_nodes out_nodes Hnd Hsink) as Hinit.
    apply (kahn_once_inv set_iter set_iter_elem _ _ _ Hinit) in Hk as [Hk _].
    unfold timeline in Hk. by rewrite Hq, app_nil_r in Hk. }
  by eapply order_indices.
Qed.

(** X7.  Cycle detection: when the output nodes are distinct and feed no
    node of the dependency map, a node of the map that lies on a
    dependency cycle makes the scheduler fail. *)
Theorem cycle_rejected all_nodes in_nodes out_nodes n :
  NoDup out_nodes →
  (∀ o b, o ∈ out_nodes → b ∈ all_nodes ++ out_nodes → ¬ consumes h b o) →
  n ∈ all_nodes ++ out_nodes → on_cycle h n →
  ∃ e, topological_order set_iter h all_nodes in_nodes out_nodes = Err e.
Proof.
  intros Hnd Hsink Hn Hcycle.
  destruct (topological_order _ _ _ _ _) as [order|e] eqn:E; [|by eexists].
  exfalso.
  assert (Hnodup : NoDup order).
  { pose proof E as (st & Hk & Hq & -> & _)%topological_order_Ok.
    apply NoDup_ListNoDup, List.NoDup_rev, NoDup_ListNoDup.
    pose proof (kahn_init_once_inv set_iter h set_iter_elem
                  all_nodes out_nodes Hnd Hsink) as Hinit.
    apply (kahn_once_inv set_iter set_iter_elem _ _ _ Hinit) in Hk as [Hk _].
    unfold timeline in Hk. by rewrite Hq, app_nil_r in Hk. }
  assert (Hwalk : ∀ x y, tc (consumes h) x y → ∀ j : nat, order !! j = Some x →
                    ∃ i : nat, (i < j)%nat ∧ order !! i = Some y).
  { induction 1 as [x y Hxy|x y z Hxy _ IH]; intros j Hj.
    - by eapply order_indices.
    - destruct (order_indices _ _ _ _ _ _ _ E Hnodup Hj Hxy) as (i & Hi & Hy).
      destruct (IH i Hy) as (k & Hk & Hz). exists k. split; [lia|done]. }
  assert (n ∈ order) as Hin.
  {     pose proof E as (st & -> & _ & Hnone & (Hmir & Htouch & _) & _)%topological_order_final;
      [|done].
    rewrite elem_of_rev_list.
    assert (∃ a, consumes h n a) as [a Ha].
    { unfold on_cycle in *. inversion Hcycle; eauto. }
    destruct (Htouch n) as [Hs|?]; [set_solver| |done].
    assert (n ∈ dd_get (edges_in_to_out st) a) as Hna by (apply Hmir; eauto).
    rewrite Hnone in Hna. set_solver. }
  apply list_elem_of_lookup in Hin as [j Hj].
  destruct (Hwalk n n Hcycle j Hj) as (i & Hi & Hi').
  pose proof (NoDup_lookup _ _ _ _ Hnodup Hj Hi'). lia.
Qed.

Section Distinct.
Hypothesis set_iter_NoDup : ∀ s, NoDup (set_iter s).

(** X8.  When the producers of every node of the dependency map are in
    it as well, no lookup fails. *)
Theorem closed_map_no_lookup_failure all_nodes in_nodes out_nodes :
  (∀ b a, b ∈ all_nodes ++ out_nodes → consumes h b a →
          a ∈ all_nodes ++ out_nodes) →
  topological_order set_iter h all_nodes in_nodes out_nodes ≠ Err KeyError.
Proof.
  intros Hclosed.
  destruct (J_kahn set_iter h set_iter_elem set_iter_NoDup all_nodes out_nodes
              Hclosed (kahn_fuel (kahn_init set_iter h all_nodes out_nodes)) _
              (traversal_inv_init set_iter h set_iter_elem all_nodes out_nodes))
    as (st & Hk & _).
  unfold topological_order. rewrite Hk. simpl. intros H.
  apply bind_Err in H as [H|([] & _ & H)].
  - by apply assert_connected_Err in H as (n & [=] & _).
  - destruct (_ =? _)%nat; discriminate H.
Qed.
End Distinct.
End Faithful.
End SchedulerOutcomes.

(** ** More on the constructor of the net *)

Section ConstructorOutcomes.
Context {tensor : Type} `{!TensorOps tensor}.
Variable tensor_add : tensor → tensor → tensor.
Variable set_iter : gset nat → list nat.
Variable h : heap tensor.

Lemma node_class_eqb_eq a b : node_class_eqb a b = true ↔ a = b.
Proof. destruct a, b; simpl; split; congruence. Qed.

Lemma mapM_all_Ok {A B} (f : A → result B) (xs : list A) :
  (∀ x, x ∈ xs → ∃ y, f x = Ok y) → ∃ ys, mapM f xs = Ok ys.
Proof.
  induction xs as [|x xs IH]; intros H; [by eexists|].
  destruct (H x) as [y Hy]; [left|].
  destruct IH as [ys Hys]; [intros; apply H; by right|].
  exists (y :: ys). simpl. by rewrite Hy, Hys.
Qed.

Lemma mapM_Err_at {A B} (f : A → result B) (xs : list A) x :
  x ∈ xs → (∀ y, f x ≠ Ok y) → ∀ ys, mapM f xs ≠ Ok ys.
Proof.
  intros Hx Hf ys H. apply mapM_Ok_Forall2 in H.
  apply list_elem_of_lookup in Hx as [i Hi].
  destruct (Forall2_lookup_l _ _ _ _ _ H Hi) as (y & _ & Hy). by eapply Hf.
Qed.

Lemma py_index_first {A} (xs : list A) x rest :
  xs = x :: rest → py_index xs 0 = Ok x.
Proof. intros ->. reflexivity. Qed.

(** X9.  With automatic detection the constructor accepts no node list
    that holds anything but input and output nodes. *)
Theorem detected_lists_hold_boundary_nodes_only nodes force g n :
  ReversibleGraphNet_init set_iter h nodes IndNone IndNone force = Ok g →
  n ∈ nodes →
  cls (h n) = ClsInputNode ∨ cls (h n) = ClsOutputNode.
Proof.
  intros H Hn.
  destruct (accepted_nodes_are_boundary _ _ _ _ _ _ _ n H Hn) as [Hb _].
  apply ReversibleGraphNet_init_Ok in H as (ins & outs & ? & Hi & Ho & _ & Hgi & Hgo & _).
  rewrite Hgi, Hgo in Hb. simpl in Hi, Ho. injection Hi as <-. injection Ho as <-.
  destruct Hb as [Hb|Hb]; apply list_elem_of_filter in Hb as [Hb _];
    apply node_class_eqb_eq in Hb; auto.
Qed.

(** X10.  A node list with a condition node is never accepted, with or
    without explicit indices: the shape of a condition is read from its
    inputs, of which it has none. *)
Theorem condition_node_rejected nodes ind_in ind_out force n :
  n ∈ nodes → cls (h n) = ClsConditionNode → input_dims (h n) = [] →
  ∃ e, ReversibleGraphNet_init set_iter h nodes ind_in ind_out force = Err e.
Proof.
  intros Hn Hc Hd.
  destruct (ReversibleGraphNet_init _ _ _ _ _ _) as [g|e] eqn:E; [|by eexists].
  exfalso. unfold ReversibleGraphNet_init in E.
  apply bind_Ok in E as (ins & _ & E). destruct (negb _); [discriminate|].
  apply bind_Ok in E as (outs & _ & E). destruct (negb _); [discriminate|].
  apply bind_Ok in E as (order & _ & E).
  apply bind_Ok in E as (gi & _ & E).
  apply bind_Ok in E as (go & _ & E).
  apply bind_Ok in E as (gc & Hgc & _).
  eapply (mapM_Err_at _ _ n); [| |exact Hgc].
  - apply list_elem_of_filter. split; [|done]. by rewrite Hc.
  - intros y. cbv beta. rewrite Hd. discriminate.
Qed.

(** X11.  Without an input node the constructor raises "No input nodes
    specified", whatever else the list holds, the empty list included;
    with one but without an output node it raises "No output nodes
    specified". *)
Theorem missing_boundary_rejected nodes force :
  ((∀ n, n ∈ nodes → cls (h n) ≠ ClsInputNode) →
   ReversibleGraphNet_init set_iter h nodes IndNone IndNone force
   = Err (AssertionError NoInputNodes))
  ∧ ((∃ n, n ∈ nodes ∧ cls (h n) = ClsInputNode) →
     (∀ n, n ∈ nodes → cls (h n) ≠ ClsOutputNode) →
     ReversibleGraphNet_init set_iter h nodes IndNone IndNone force
     = Err (AssertionError NoOutputNodes)).
Proof.
  assert (Hnone : ∀ c, (∀ n, n ∈ nodes → cls (h n) ≠ c) →
            filter (λ n, node_class_eqb (cls (h n)) c = true) nodes = []).
  { intros c Hc. induction nodes as [|x l IH]; [done|].
    rewrite filter_cons. rewrite decide_False.
    - apply IH. intros n Hn'. apply Hc. by right.
    - intros Hx%node_class_eqb_eq. apply (Hc x); [left|done]. }
  split.
  - intros Hno. unfold ReversibleGraphNet_init. simpl. by rewrite (Hnone _ Hno).
  - intros (n & Hn & Hc) Hno. unfold ReversibleGraphNet_init. simpl.
    destruct (filter _ nodes) as [|x l] eqn:E.
    + assert (n ∈ filter (λ n, node_class_eqb (cls (h n)) ClsInputNode = true) nodes)
        as Hin by (apply list_elem_of_filter; by rewrite Hc).
      rewrite E in Hin. by apply elem_of_nil in Hin.
    + simpl. by rewrite (Hnone _ Hno).
Qed.

(** X12.  A net as the constructor leaves it cannot be run or searched.
    [forward] raises for every argument: [TypeError] when [x_or_z] or
    [c] cannot be iterated, as [None] cannot, and else [AttributeError]
    for [node_list]; both lookup helpers raise that [AttributeError]. *)
Theorem constructed_net_has_no_node_list nodes ind_in ind_out force g
    (x_or_z c : pyval tensor) (rev jac intermediate_outputs : bool) nm :
  ReversibleGraphNet_init set_iter h nodes ind_in ind_out force = Ok g →
  forward_call tensor_add h g x_or_z c rev jac intermediate_outputs
  = (if is_ok (py_iter x_or_z) && is_ok (py_iter c)
     then Err (AttributeError "node_list") else Err TypeError)
  ∧ (∀ xs cs, forward tensor_add h g xs cs rev jac intermediate_outputs
              = Err (AttributeError "node_list"))
  ∧ get_node_by_name h g nm = Err (AttributeError "node_list")
  ∧ get_module_by_name h g nm = Err (AttributeError "node_list").
Proof.
  intros (_ & _ & _ & _ & _ & _ & _ & _ & _ & Hnl)%ReversibleGraphNet_init_Ok.
  assert (Hfwd : ∀ xs cs, forward tensor_add h g xs cs rev jac intermediate_outputs
                          = Err (AttributeError "node_list")).
  { intros xs cs. unfold forward, get_node_list. by rewrite Hnl. }
  split; [|split; [done|]].
  - unfold forward_call.
    assert (Hiter : ∀ v : pyval tensor, (∃ l, py_iter v = Ok l) ∨ py_iter v = Err TypeError).
    { intros v. destruct v; simpl; eauto. destruct (tensor_rows t); eauto. }
    destruct (Hiter x_or_z) as [[xs ->]| ->]; [|done]. simpl.
    destruct (Hiter c) as [[cs ->]| ->]; [|done]. simpl. apply Hfwd.
  - unfold get_module_by_name, get_node_by_name, get_node_list.
    by rewrite Hnl.
Qed.

Lemma no_inputs_no_producers b a : inputs (h b) = [] → ¬ consumes h b a.
Proof. unfold consumes, producers. intros ->. set_solver. Qed.

Lemma py_index_nonempty {A} (xs : list A) : xs ≠ [] → ∃ x, py_index xs 0 = Ok x.
Proof. destruct xs as [|x rest]; [done|]. by exists x. Qed.

(** The lists the constructor accepts, in terms of the attributes of
    the nodes. *)
Lemma boundary_lists_accepted nodes force :
  (∀ s x, x ∈ set_iter s ↔ x ∈ s) → (∀ s, NoDup (set_iter s)) →
  (∀ n, n ∈ nodes → cls (h n) = ClsInputNode ∨ cls (h n) = ClsOutputNode) →
  (∃ n, n ∈ nodes ∧ cls (h n) = ClsInputNode) →
  (∃ n, n ∈ nodes ∧ cls (h n) = ClsOutputNode) →
  (∀ n, n ∈ nodes → cls (h n) = ClsInputNode →
        inputs (h n) = [] ∧ output_dims (h n) ≠ []) →
  (∀ o, o ∈ nodes → cls (h o) = ClsOutputNode →
        input_dims (h o) ≠ []
        ∧ ∀ a, consumes h o a → a ∈ nodes ∧ cls (h a) = ClsInputNode) →
  (∀ n, n ∈ nodes → cls (h n) = ClsInputNode →
        ∃ o, o ∈ nodes ∧ cls (h o) = ClsOutputNode ∧ consumes h o n) →
  (∀ b a, b ∈ nodes → consumes h b a → (a < b)%nat) →
  ∃ g, ReversibleGraphNet_init set_iter h nodes IndNone IndNone force = Ok g
       ∧ in_nodes g
         = filter (λ n, node_class_eqb (cls (h n)) ClsInputNode = true) nodes
       ∧ out_nodes g
         = filter (λ n, node_class_eqb (cls (h n)) ClsOutputNode = true) nodes.
Proof.
  intros Helem Hnodup Hcls (i0 & Hi0 & Hci0) (o0 & Ho0 & Hco0) Hsrc Hsink Hused Hearlier.
  set (ins := filter (λ n, node_class_eqb (cls (h n)) ClsInputNode = true) nodes).
  set (outs := filter (λ n, node_class_eqb (cls (h n)) ClsOutputNode = true) nodes).
  assert (Hins : ∀ n, n ∈ ins ↔ n ∈ nodes ∧ cls (h n) = ClsInputNode).
  { intros n. unfold ins. rewrite list_elem_of_filter, node_class_eqb_eq. tauto. }
  assert (Houts : ∀ n, n ∈ outs ↔ n ∈ nodes ∧ cls (h n) = ClsOutputNode).
  { intros n. unfold outs. rewrite list_elem_of_filter, node_class_eqb_eq. tauto. }
  assert (Hkey : ∀ b, b ∈ ins ++ outs → b ∈ nodes).
  { intros b [Hb|Hb]%elem_of_app; [apply Hins in Hb|apply Houts in Hb]; tauto. }
  assert (Hout_only : ∀ b a, b ∈ ins ++ outs → consumes h b a → b ∈ outs).
  { intros b a [Hb|Hb]%elem_of_app Hba; [|done].
    apply Hins in Hb as [Hb Hc]. destruct (Hsrc b Hb Hc) as [Hno _].
    by destruct (no_inputs_no_producers b a Hno). }
  destruct (topological_order_succeeds set_iter h Helem Hnodup ins nodes outs) as [order Horder].
  - intros b a Hb Hba. pose proof (Hout_only b a Hb Hba) as Hbo.
    apply Houts in Hbo as [Hbn Hbc]. destruct (Hsink b Hbn Hbc) as [_ Hfed].
    apply elem_of_app. left. apply Hins. by apply Hfed.
  - intros b a Hb. apply Hearlier. by apply Hkey.
  - intros b a Hb Hba. exists b. split; [by eapply Hout_only|apply rtc_refl].
  - intros a Ha. destruct (Hcls a Ha) as [Hc|Hc].
    + destruct (Hused a Ha Hc) as (o & Ho & Hoc & Hoa). exists o.
      split; [by apply Houts|by apply rtc_once].
    + exists a. split; [by apply Houts|apply rtc_refl].
  - assert (∃ gi, mapM (λ n, py_index (output_dims (h n)) 0) ins = Ok gi)
      as [gi Hgi].
    { apply mapM_all_Ok. intros n [Hn Hc]%Hins.
      apply py_index_nonempty. by apply Hsrc. }
    assert (∃ go, mapM (λ n, py_index (input_dims (h n)) 0) outs = Ok go)
      as [go Hgo].
    { apply mapM_all_Ok. intros n [Hn Hc]%Houts.
      apply py_index_nonempty. by apply Hsink. }
    assert (filter (λ n, node_class_eqb (cls (h n)) ClsConditionNode = true) nodes
            = []) as Hconds.
    { clear -Hcls. induction nodes as [|x l IH]; [done|].
      rewrite filter_cons, decide_False.
      - apply IH. intros n Hn. apply Hcls. by right.
      - intros Hx%node_class_eqb_eq. destruct (Hcls x); [left|congruence..]. }
    eexists. unfold ReversibleGraphNet_init. simpl boundary_nodes.
    fold ins. fold outs. simpl bind at 1.
    assert ((0 <? length ins)%nat = true) as ->.
    { apply Nat.ltb_lt. assert (i0 ∈ ins) as Hin by (by apply Hins).
      apply list_elem_of_split in Hin as (l1 & l2 & E).
      rewrite E, length_app. simpl. lia. }
    simpl.
    assert ((0 <? length outs)%nat = true) as ->.
    { apply Nat.ltb_lt. assert (o0 ∈ outs) as Hin by (by apply Houts).
      apply list_elem_of_split in Hin as (l1 & l2 & E).
      rewrite E, length_app. simpl. lia. }
    simpl. rewrite Horder. simpl. rewrite Hgi. simpl. rewrite Hgo. simpl.
    rewrite Hconds. simpl. done.
Qed.
End ConstructorOutcomes.

(** ** More on execution and lookup *)

Section ExecutionOutcomes.
Context {tensor : Type} `{!TensorOps tensor}.
Variable tensor_add : tensor → tensor → tensor.
Variable h : heap tensor.
Implicit Types (outs : gmap (obj_ref * Z) (pyval tensor)) (g : graph_net tensor).

Lemma foldM_stops_at {A S} (body : S → A → result S) (xs : list A) x s :
  x ∈ xs → (∀ s s', body s x ≠ Ok s') → ∀ s', foldM body xs s ≠ Ok s'.
Proof.
  intros Hx Hbody. revert s. induction xs as [|y xs IH]; intros s s' H.
  - by apply elem_of_nil in Hx.
  - simpl in H. apply bind_Ok in H as (s1 & H1 & H).
    apply elem_of_cons in Hx as [->|Hx]; [by eapply Hbody|by eapply IH].
Qed.

Lemma visit_without_module (rev jac : bool) st node r :
  module (h node) = None → visit tensor_add h rev jac st node ≠ Ok r.
Proof.
  intros Hm H. destruct st as [outs jacobian]. unfold visit in H.
  apply bind_Ok in H as (mod_in & _ & H).
  apply bind_Ok in H as (mod_c & _ & H).
  rewrite Hm in H. discriminate H.
Qed.

(** X14.  A walk that comes to a node without a module, as every
    boundary node is, does not return, in either direction. *)
Theorem walk_over_boundary_node_fails g nodes node x_or_z c
    (rev jac intermediate_outputs : bool) r :
  node_list g = Some nodes → node ∈ nodes → module (h node) = None →
  forward tensor_add h g x_or_z c rev jac intermediate_outputs ≠ Ok r.
Proof.
  intros Hnl Hn Hm H. unfold forward, get_node_list in H. rewrite Hnl in H.
  apply bind_Ok in H as (ns & [= <-] & H).
  apply bind_Ok in H as ([outs' j'] & Hwalk & _).
  eapply (foldM_stops_at _ _ node); [| |exact Hwalk].
  - destruct rev; [by apply elem_of_rev_list|done].
  - intros s s'. by apply visit_without_module.
Qed.

Lemma visit_untracked_jacobian (rev : bool) outs jacobian node outs' jacobian' :
  visit tensor_add h rev false (outs, jacobian) node = Ok (outs', jacobian') →
  jacobian' = jacobian.
Proof.
  unfold visit. intros H.
  apply bind_Ok in H as (mod_in & _ & H).
  apply bind_Ok in H as (mod_c & _ & H).
  apply bind_Ok in H as (m & _ & H).
  apply bind_Ok in H as (mod_out & _ & H).
  destruct (is_tensor mod_out); [discriminate|].
  apply bind_Ok in H as (n & _ & H).
  destruct (negb _); [discriminate|].
  apply bind_Ok in H as ([out mod_jac] & _ & H).
  destruct (is_tensor out); [discriminate|].
  apply bind_Ok in H as (k & _ & H).
  destruct (negb _); [discriminate|].
  apply bind_Ok in H as ([] & _ & H).
  apply bind_Ok in H as (items & _ & H). simpl in H. by injection H as _ <-.
Qed.

Lemma walk_jacobian_None (rev jac : bool) nodes outs outs' jacobian' :
  foldM (visit tensor_add h rev jac) nodes (outs, VNone) = Ok (outs', jacobian') →
  jacobian' = VNone.
Proof.
  destruct jac.
  - destruct nodes as [|node nodes]; [by intros [= _ <-]|].
    simpl. intros H. apply bind_Ok in H as (s1 & Hv & _).
    by apply visit_tracking_from_None in Hv.
  - revert outs. induction nodes as [|node nodes IH]; intros outs H.
    + by injection H as _ <-.
    + simpl in H. apply bind_Ok in H as ([o1 j1] & Hv & H).
      apply visit_untracked_jacobian in Hv as ->. by eapply IH.
Qed.

(** X15.  Whenever [forward] returns, the Jacobian it returns is [None],
    tracking enabled or not. *)
Theorem returned_jacobian_is_None g x_or_z c (rev jac intermediate_outputs : bool) r :
  forward tensor_add h g x_or_z c rev jac intermediate_outputs = Ok r →
  returned_jacobian r = VNone.
Proof.
  unfold forward. intros H.
  apply bind_Ok in H as (nodes & _ & H).
  apply bind_Ok in H as ([outs' j'] & Hwalk & H).
  apply walk_jacobian_None in Hwalk as ->.
  destruct intermediate_outputs; [by injection H as <-|].
  apply bind_Ok in H as (out_list & _ & H).
  destruct out_list as [|v [|? ?]]; try (by injection H as <-).
  destruct (negb _); by injection H as <-.
Qed.

(** X16.  The form of the result: the whole table when intermediate
    outputs are asked for; otherwise one value when the net has exactly
    one output node and a tuple is not forced, and else a tuple with one
    value for every output node. *)
Theorem result_form g x_or_z c (rev jac intermediate_outputs : bool) r :
  forward tensor_add h g x_or_z c rev jac intermediate_outputs = Ok r →
  match r with
  | ReturnTable _ _ => intermediate_outputs = true
  | ReturnSingle _ _ =>
      intermediate_outputs = false ∧ length (out_nodes g) = 1%nat
      ∧ force_tuple_output g = false
  | ReturnTuple out_list _ =>
      intermediate_outputs = false ∧ length out_list = length (out_nodes g)
      ∧ (length (out_nodes g) ≠ 1%nat ∨ force_tuple_output g = true)
  end.
Proof.
  unfold forward. intros H.
  apply bind_Ok in H as (nodes & _ & H).
  apply bind_Ok in H as ([outs' j'] & _ & H).
  destruct intermediate_outputs; [by injection H as <-|].
  apply bind_Ok in H as (out_list & Hl & H).
  apply mapM_Ok_length in Hl.
  destruct out_list as [|v [|? ?]].
  - injection H as <-. rewrite <- Hl. simpl. auto.
  - destruct (force_tuple_output g); injection H as <-; rewrite <- Hl; simpl; auto.
  - injection H as <-. rewrite <- Hl. simpl. auto.
Qed.

(** X17.  The table handed back with intermediate outputs has, under
    every key that names a node, exactly what seeding put there. *)
Theorem table_keeps_seeded_node_entries g x_or_z c (rev jac : bool) outs jacobian
    (n : nat) (k : Z) :
  forward tensor_add h g x_or_z c rev jac true = Ok (ReturnTable outs jacobian) →
  outs !! (RefNode n, k) = seed g x_or_z c rev !! (RefNode n, k).
Proof.
  unfold forward. intros H.
  apply bind_Ok in H as (nodes & _ & H).
  apply bind_Ok in H as ([outs' j'] & Hwalk & H).
  injection H as <- <-. by eapply walk_node_entries.
Qed.

(** *** Lookup by name *)

Lemma find_first {A} (f : A → bool) (xs : list A) x :
  List.find f xs = Some x
  ↔ ∃ pre post, xs = pre ++ x :: post ∧ f x = true ∧ ∀ y, y ∈ pre → f y = false.
Proof.
  induction xs as [|y xs IH]; simpl.
  - split; [discriminate|]. intros ([|??] & ? & [=] & _).
  - destruct (f y) eqn:E.
    + split.
      * intros [= ->]. exists [], xs. repeat split; [done|].
        intros z Hz. by apply elem_of_nil in Hz.
      * intros ([|z pre] & post & Hxs & Hx & Hpre).
        -- by injection Hxs as -> _.
        -- injection Hxs as -> _. rewrite (Hpre z) in E; [discriminate|left].
    + rewrite IH. split.
      * intros (pre & post & -> & Hx & Hpre). exists (y :: pre), post.
        repeat split; [done|]. intros z [->|?]%elem_of_cons; auto.
      * intros ([|z pre] & post & Hxs & Hx & Hpre).
        -- injection Hxs as -> _. congruence.
        -- injection Hxs as -> ->. exists pre, post. repeat split; [done|].
           intros w Hw. apply Hpre. by right.
Qed.

Lemma find_none {A} (f : A → bool) (xs : list A) :
  List.find f xs = None ↔ ∀ y, y ∈ xs → f y = false.
Proof.
  induction xs as [|y xs IH]; simpl.
  - split; [|done]. intros _ y Hy. by apply elem_of_nil in Hy.
  - destruct (f y) eqn:E.
    + split; [discriminate|]. intros H. rewrite (H y) in E; [discriminate|left].
    + rewrite IH. split.
      * intros H z [->|?]%elem_of_cons; auto.
      * intros H z Hz. apply H. by right.
Qed.

(** X18.  On a net that has a node list, [get_node_by_name] returns the
    first node of the list that bears the name, and [None] exactly when
    no node of the list bears it; [get_module_by_name] returns the
    module of that first node, and [None] without an error when there is
    none. *)
Theorem lookup_by_name g nodes nm :
  node_list g = Some nodes →
  (∀ n, get_node_by_name h g nm = Ok (Some n)
        ↔ ∃ pre post, nodes = pre ++ n :: post ∧ name (h n) = nm
                      ∧ ∀ m, m ∈ pre → name (h m) ≠ nm)
  ∧ (get_node_by_name h g nm = Ok None ↔ ∀ m, m ∈ nodes → name (h m) ≠ nm)
  ∧ (∀ n, get_node_by_name h g nm = Ok (Some n) →
          get_module_by_name h g nm = Ok (module (h n)))
  ∧ (get_node_by_name h g nm = Ok None → get_module_by_name h g nm = Ok None).
Proof.
  intros Hnl. unfold get_module_by_name, get_node_by_name, get_node_list.
  rewrite Hnl. simpl. split; [|split; [|split]].
  - intros n. split.
    + intros [= H]. apply find_first in H as (pre & post & -> & Hn & Hpre).
      exists pre, post. split; [done|]. split; [by apply String.eqb_eq|].
      intros m Hm. apply String.eqb_neq. by apply Hpre.
    + intros (pre & post & -> & Hn & Hpre). f_equal. apply find_first.
      exists pre, post. split; [done|]. split; [by apply String.eqb_eq|].
      intros m Hm. apply String.eqb_neq. by apply Hpre.
  - split.
    + intros [= H] m Hm. apply String.eqb_neq.
      by apply (proj1 (find_none _ _) H).
    + intros H. f_equal. apply find_none. intros m Hm.
      apply String.eqb_neq. by apply H.
  - by intros n [= ->].
  - by intros [= ->].
Qed.
End ExecutionOutcomes.

(** ** More on node construction *)

Section NodeOutcomes.
Context {tensor : Type} `{!TensorOps tensor}.
Implicit Types (s : store tensor) (h : heap tensor) (spec : pyval tensor).

(** X19.  The canonical form is a fixed point of [parse_inputs]. *)
Theorem parse_inputs_idempotent nm nm' spec parsed :
  parse_inputs nm spec = Ok parsed → parse_inputs nm' parsed = Ok parsed.
Proof.
  unfold parse_inputs at 1.
  destruct (as_list_or_tuple spec) as [[|first rest]|] eqn:E.
  - intros [= <-]. unfold parse_inputs. by rewrite E.
  - case_bool_decide as Hfirst.
    + intros [= <-]. unfold parse_inputs. rewrite E.
      by rewrite bool_decide_true.
    + destruct (_ =? _)%nat; [|discriminate]. intros [= <-].
      unfold parse_inputs. simpl. rewrite bool_decide_true; [done|].
      rewrite E. by eexists.
  - destruct spec; try discriminate. by intros [= <-].
Qed.

(** Adding a node without consumers whose inputs refer to allocated
    nodes, and registering it with its producers, keeps a store well
    formed. *)
Lemma register_wf s (me : node_obj tensor) :
  wf_store s → outputs me = [] →
  (∀ e, e ∈ inputs me → (fst e < fresh s)%nat) →
  wf_store {| fresh := S (fresh s);
              obj := notify_producers (heap_set (obj s) (fresh s) me)
                       (fresh s) 0 (inputs me) |}.
Proof.
  intros (HU & HE & HM) Hout Hlt.
  set (h0 := heap_set (obj s) (fresh s) me).
  pose proof (notify_producers_spec (fresh s) (inputs me) h0 0) as Hn.
  cbv zeta in Hn. unfold wf_store. simpl.
  set (h' := notify_producers h0 (fresh s) 0 (inputs me)) in *.
  assert (Hin : ∀ n, inputs (h' n) = inputs (h0 n)).
  { intros n. destruct (Hn n) as [Hf _].
    by apply set_outputs_fields in Hf as (_ & _ & _ & Hf & _). }
  assert (Hod : ∀ n, output_dims (h' n) = output_dims (h0 n)).
  { intros n. destruct (Hn n) as [Hf _].
    by apply set_outputs_fields in Hf as (_ & _ & _ & _ & _ & _ & _ & Hf & _). }
  assert (Hself : ∀ p k, (p, k) ∈ inputs (obj s (fresh s)) → False).
  { intros p k. destruct (HU (fresh s)) as (_ & -> & _); [lia|].
    by intros ?%elem_of_nil. }
  split; [|split].
  - intros c' Hc'.
    assert (H0 : h0 c' = obj s c') by (apply heap_set_ne; lia).
    destruct (HU c') as (H1 & H2 & H3); [lia|].
    unfold unallocated. rewrite Hod, Hin.
    destruct (Hn c') as (_ & added & -> & Ha). rewrite H0, H1, H2, H3.
    split; [done|]. split; [done|]. simpl.
    destruct added as [|e l]; [done|].
    destruct (Ha e) as [(j & k & Hj & _) _]; [left|].
    apply list_elem_of_lookup_2, Hlt in Hj. simpl in Hj. lia.
  - intros c' e. rewrite Hin. unfold h0.
    destruct (decide (c' = fresh s)) as [->|Hne].
    + rewrite heap_set_eq. apply Hlt.
    + rewrite heap_set_ne by done. apply HE.
  - intros p c' i. rewrite Hin.
    destruct (Hn p) as (_ & added & -> & Ha). rewrite elem_of_app, Ha.
    unfold h0. destruct (decide (c' = fresh s)) as [->|Hne].
    + rewrite (heap_set_eq _ _ me). split.
      * intros [Ho|(j & k & Hj & [= ->])].
        -- exfalso. destruct (decide (p = fresh s)) as [->|Hp'].
           ++ rewrite heap_set_eq, Hout in Ho. by apply elem_of_nil in Ho.
           ++ rewrite heap_set_ne in Ho by done. apply HM in Ho as (_ & k & Hk).
              apply list_elem_of_lookup_2 in Hk. by eapply Hself.
        -- split; [lia|]. exists k. by rewrite Nat2Z.id.
      * intros (Hi0 & k & Hk). right. exists (Z.to_nat i), k.
        split; [done|]. f_equal. lia.
    + rewrite (heap_set_ne _ _ _ c') by done. split.
      * intros [Ho|(j & k & _ & [= -> _])]; [|done].
        destruct (decide (p = fresh s)) as [->|Hp'].
        -- rewrite heap_set_eq, Hout in Ho. by apply elem_of_nil in Ho.
        -- rewrite heap_set_ne in Ho by done. by apply HM.
      * intros Hrhs. left. destruct (decide (p = fresh s)) as [->|Hp'].
        -- exfalso. apply HM in Hrhs.
           destruct (HU (fresh s)) as (_ & _ & Ho); [lia|].
           rewrite Ho in Hrhs. by apply elem_of_nil in Hrhs.
        -- rewrite heap_set_ne by done. by apply HM.
Qed.

(** A value names the nodes its items name. *)
Lemma node_refs_item (v item : pyval tensor) items n :
  as_list_or_tuple v = Some items → item ∈ items → n ∈ node_refs item →
  n ∈ node_refs v.
Proof.
  intros Hv Hitem Hn.
  assert (n ∈ flat_map node_refs items) as Hflat.
  { apply list_elem_of_In, in_flat_map. exists item.
    split; by apply list_elem_of_In. }
  destruct v; try discriminate Hv; injection Hv as ->; exact Hflat.
Qed.

(** The producers a new node records are named by its specification. *)
Lemma Node_init_inputs_named s c self_dims spec mt conds nm idn s' r e :
  Node_init s c self_dims spec mt conds nm idn = Ok (s', r) →
  e ∈ inputs (obj s' r) → fst e ∈ node_refs spec.
Proof.
  intros (parsed & items & Hacc & Hitems & Hall)%Node_init_inputs He.
  apply list_elem_of_lookup in He as [i Hi].
  destruct (Forall2_lookup_r _ _ _ _ _ Hall Hi) as (item & Hitem & Hpair).
  apply list_elem_of_lookup_2 in Hitem.
  assert (fst e ∈ node_refs parsed) as Hparsed.
  { apply (node_refs_item parsed item items); [done|done|].
    apply (node_refs_item item (VNode (fst e)) [VNode (fst e); snd e]);
      [done|left|by left]. }
  unfold accepted_inputs in Hacc.
  destruct (is_index_pair spec), (is_index_pair_list spec), spec;
    try discriminate Hacc; injection Hacc as <-; simpl in Hparsed;
    rewrite ?app_nil_r in Hparsed; try done.
Qed.

(** A successful [Node.__init__] adds one node without consumers and
    registers it with its producers. *)
Lemma Node_init_registers s c self_dims spec mt conds nm idn s' r :
  Node_init s c self_dims spec mt conds nm idn = Ok (s', r) →
  ∃ me, outputs me = [] ∧ inputs (obj s' r) = inputs me ∧ r = fresh s
        ∧ s' = {| fresh := S (fresh s);
                  obj := notify_producers (heap_set (obj s) (fresh s) me)
                           (fresh s) 0 (inputs me) |}.
Proof.
  intros H.
  apply Node_init_Ok in H
    as (parsed & ins & cs & m & ods & sn & Hp & Hi & Hc & Hb & -> & ->).
  match goal with |- context [heap_set _ _ ?o] => set (me := o) in * end.
  exists me. split; [done|]. split; [|done]. simpl.
  pose proof (notify_producers_spec (fresh s) (map fst ins)
                (heap_set (obj s) (fresh s) me) 0 (fresh s)) as [Hf _].
  rewrite heap_set_eq in Hf.
  by apply set_outputs_fields in Hf as (_ & _ & _ & Hf & _).
Qed.

(** X20.  [Node.__init__] keeps a store well formed and allocates the
    next reference: when the specification names nodes of the store,
    the new node's inputs refer to nodes built before it, and the
    consumers recorded in the producers are exactly the inputs. *)
Theorem Node_init_preserves_wf s c self_dims spec mt conds nm idn s' r :
  wf_store s → well_scoped s spec →
  Node_init s c self_dims spec mt conds nm idn = Ok (s', r) →
  wf_store s' ∧ r = fresh s ∧ fresh s' = S r.
Proof.
  intros Hwf Hscope H.
  pose proof (λ e, Node_init_inputs_named _ _ _ _ _ _ _ _ _ _ e H) as Hnamed.
  apply Node_init_registers in H as (me & Hout & Hin & -> & ->).
  split; [|done]. apply register_wf; [done|done|].
  intros e He. apply Hscope, Hnamed. by rewrite Hin.
Qed.

Lemma wf_store_earlier s b a : wf_store s → consumes (obj s) b a → (a < b)%nat.
Proof.
  intros (_ & HE & _) Hba. unfold consumes, producers in Hba.
  apply elem_of_list_to_set, list_elem_of_fmap in Hba as (e & -> & He).
  by apply HE.
Qed.

(** X21.  In a well-formed store every producer was built before its
    consumer, so no node lies on a dependency cycle. *)
Theorem constructed_store_acyclic s :
  wf_store s →
  (∀ b a, tc (consumes (obj s)) b a → (a < b)%nat)
  ∧ ∀ n, ¬ on_cycle (obj s) n.
Proof.
  intros Hwf.
  pose proof (λ b a, wf_store_earlier s b a Hwf) as Hstep.
  assert (Hpath : ∀ b a, tc (consumes (obj s)) b a → (a < b)%nat).
  { induction 1 as [b a Hba|b m a Hbm _ IH].
    - by apply Hstep.
    - apply Hstep in Hbm. lia. }
  split; [done|]. intros n Hn. apply Hpath in Hn. lia.
Qed.


(** X23.  The attributes of a node just built: the shape of each input
    is what indexing the producer's output shapes by the slot yields, the shape of each
    condition is the first output shape of the conditioning node, a
    plain node has the module built from these shapes and the output
    shapes the module computes from them, an input or condition node has
    no input and its own shape as only output, and an output node has no
    output at all. *)
Theorem Node_init_shapes s c self_dims spec mt conds nm idn s' r :
  Node_init s c self_dims spec mt conds nm idn = Ok (s', r) →
  let me := obj s' r in
  cls me = c
  ∧ Forall2 (λ e d, py_getitem (output_dims (obj s (fst e))) (snd e) = Ok d)
      (inputs me) (input_dims me)
  ∧ Forall2 (λ n d, py_index (output_dims (obj s n)) 0 = Ok d)
      (conditions me) (condition_dims me)
  ∧ match c with
    | ClsNode =>
        ∃ ctor m, mt = Some ctor
          ∧ ctor (input_dims me)
              (if (0 <? length (normalize_conditions conds))%nat
               then Some (condition_dims me) else None) = Ok m
          ∧ module me = Some m
          ∧ module_output_dims m (input_dims me) = Ok (output_dims me)
    | ClsInputNode | ClsConditionNode =>
        module me = None ∧ inputs me = [] ∧ conditions me = []
        ∧ output_dims me = [self_dims]
    | ClsOutputNode =>
        module me = None ∧ conditions me = [] ∧ output_dims me = []
    end.
Proof.
  intros H.
  apply Node_init_Ok in H
    as (parsed & ins & cs & m & ods & sn & Hp & Hi & Hc & Hb & -> & ->).
  simpl.
  match goal with |- context [heap_set _ _ ?o] => set (me := o) end.
  pose proof (notify_producers_spec (fresh s) (map fst ins)
                (heap_set (obj s) (fresh s) me) 0 (fresh s)) as [Hf _].
  rewrite heap_set_eq in Hf.
  apply set_outputs_fields in Hf
    as (-> & _ & _ & -> & -> & -> & -> & -> & ->).
  simpl. split; [done|].
  assert (Hins : Forall2
            (λ e d, py_getitem (output_dims (obj s (fst e))) (snd e) = Ok d)
            (map fst ins) (map snd ins)).
  { apply Forall2_fmap, Forall_Forall2_diag, Forall_forall.
    intros [[n k] d] Hx. simpl.
    unfold resolve_inputs in Hi. apply bind_Ok in Hi as (items & _ & Hi).
    apply mapM_Ok_Forall2 in Hi.
    apply list_elem_of_lookup in Hx as [i Hx].
    destruct (Forall2_lookup_r _ _ _ _ _ Hi Hx) as (item & _ & Hitem).
    by apply resolve_input_Ok in Hitem as [_ Hd]. }
  assert (Hcs : Forall2 (λ n d, py_index (output_dims (obj s n)) 0 = Ok d)
            (map fst cs) (map snd cs)).
  { apply Forall2_fmap, Forall_Forall2_diag, Forall_forall.
    intros [n d] Hx. simpl. apply mapM_Ok_Forall2 in Hc.
    apply list_elem_of_lookup in Hx as [i Hx].
    destruct (Forall2_lookup_r _ _ _ _ _ Hc Hx) as (item & _ & Hitem).
    unfold resolve_condition in Hitem.
    apply bind_Ok in Hitem as (ds & Hds & Hitem).
    apply bind_Ok in Hitem as (d' & Hd & Hitem).
    destruct item; try discriminate. injection Hitem as -> ->.
    by injection Hds as <-. }
  split; [done|]. split; [done|].
  unfold build_module in Hb. destruct c.
  - destruct mt as [ctor|]; [|discriminate].
    apply bind_Ok in Hb as (m' & Hm & Hb).
    apply bind_Ok in Hb as (ods' & Hods & Hb). injection Hb as <- <-.
    by exists ctor, m'.
  - destruct (0 <? length (map snd cs))%nat eqn:El; [discriminate|].
    destruct (length (map snd ins) =? 0)%nat eqn:Ei; [|discriminate].
    injection Hb as <- <-.
    apply Nat.eqb_eq in Ei. apply Nat.ltb_ge in El.
    rewrite length_map in Ei, El.
    destruct ins; [|discriminate]. destruct cs; [done|simpl in El; lia].
  - destruct (0 <? length (map snd cs))%nat eqn:El; [discriminate|].
    destruct (length (map snd ins) =? 0)%nat eqn:Ei; [|discriminate].
    injection Hb as <- <-.
    apply Nat.eqb_eq in Ei. apply Nat.ltb_ge in El.
    rewrite length_map in Ei, El.
    destruct ins; [|discriminate]. destruct cs; [done|simpl in El; lia].
  - destruct (0 <? length (map snd cs))%nat eqn:El; [discriminate|].
    injection Hb as <- <-. apply Nat.ltb_ge in El. rewrite length_map in El.
    destruct cs; [done|simpl in El; lia].
Qed.


(** X25.  The scheduler accepts every graph built by the constructors
    that meets what its documentation asks for: called with all nodes of
    the graph, so that the producers of a listed node are listed, every
    listed node with an input leading to an output node, and every input
    node connected to one, it returns an order. *)
Theorem scheduler_accepts (set_iter : gset nat → list nat) s
    all_nodes in_nodes out_nodes :
  (∀ X x, x ∈ set_iter X ↔ x ∈ X) → (∀ X, NoDup (set_iter X)) →
  wf_store s →
  (∀ b a, b ∈ all_nodes ++ out_nodes → consumes (obj s) b a →
          a ∈ all_nodes ++ out_nodes) →
  (∀ b a, b ∈ all_nodes ++ out_nodes → consumes (obj s) b a →
          connected_to_output (obj s) out_nodes b) →
  (∀ a, a ∈ in_nodes → connected_to_output (obj s) out_nodes a) →
  ∃ order, topological_order set_iter (obj s) all_nodes in_nodes out_nodes
           = Ok order.
Proof.
  intros Helem Hnodup Hwf Hclosed Hlive Hconn.
  apply (topological_order_succeeds set_iter (obj s) Helem Hnodup
           all_nodes in_nodes out_nodes Hclosed); [|done..].
  intros b a _. by apply wf_store_earlier.
Qed.

(** What [Node.__init__] leaves in the store: the new node has the
    attributes the constructors establish, and the other nodes keep
    theirs. *)
Lemma Node_init_attrs s c self_dims spec mt conds nm idn s' r :
  Node_init s c self_dims spec mt conds nm idn = Ok (s', r) →
  attrs_ok (obj s' r)
  ∧ ∀ n, n ≠ r → attrs_ok (obj s n) → attrs_ok (obj s' n).
Proof.
  intros H.
  apply Node_init_Ok in H
    as (parsed & ins & cs & m & ods & sn & Hp & Hi & Hc & Hb & -> & ->).
  simpl.
  match goal with |- context [heap_set _ _ ?o] => set (me := o) end.
  pose proof (notify_producers_spec (fresh s) (map fst ins)
                (heap_set (obj s) (fresh s) me) 0) as Hn.
  cbv zeta in Hn. split.
  - destruct (Hn (fresh s)) as [Hf _]. rewrite heap_set_eq in Hf.
    apply set_outputs_fields in Hf as (Hcls & _ & _ & Hin & _ & Hid & _ & Hod & _).
    unfold attrs_ok. rewrite Hcls, Hin, Hid, Hod. simpl.
    split; [by rewrite !length_map|]. intros ->.
    unfold build_module in Hb.
    destruct (0 <? length (map snd cs))%nat; [discriminate|].
    destruct (length (map snd ins) =? 0)%nat eqn:Ei; [|discriminate].
    injection Hb as <- <-. apply Nat.eqb_eq in Ei. rewrite length_map in Ei.
    by destruct ins.
  - intros n Hne. destruct (Hn n) as [Hf _]. rewrite heap_set_ne in Hf by done.
    apply set_outputs_fields in Hf as (Hcls & _ & _ & Hin & _ & Hid & _ & Hod & _).
    unfold attrs_ok. by rewrite Hcls, Hin, Hid, Hod.
Qed.

(** A store built by the constructors is well formed, and its nodes
    have the attributes the constructors establish. *)
Lemma built_facts s :
  built s → wf_store s ∧ ∀ n, (n < fresh s)%nat → attrs_ok (obj s n).
Proof.
  induction 1 as [s Hz Hblank|s c self_dims spec mt conds nm idn s' r _ [Hwf Hattr] Hscope H].
  - split; [|intros n; lia]. split; [|split].
    + intros c _. apply Hblank.
    + intros c e. destruct (Hblank c) as (_ & -> & _). by intros ?%elem_of_nil.
    + intros p c i. destruct (Hblank p) as (_ & _ & ->).
      destruct (Hblank c) as (_ & -> & _). split.
      * by intros ?%elem_of_nil.
      * intros (_ & k & Hk). by rewrite lookup_nil in Hk.
  - pose proof (Node_init_attrs _ _ _ _ _ _ _ _ _ _ H) as [Hnew Hold].
    assert (Hr : r = fresh s ∧ fresh s' = S r).
    { apply Node_init_Ok in H as (? & ? & ? & ? & ? & ? & _ & _ & _ & _ & -> & ->).
      done. }
    destruct Hr as [-> Hfresh]. split.
    + pose proof (λ e, Node_init_inputs_named _ _ _ _ _ _ _ _ _ _ e H) as Hnamed.
      apply Node_init_registers in H as (me & Hout & Hin & _ & ->).
      apply register_wf; [done|done|].
      intros e He. apply Hscope, Hnamed. by rewrite Hin.
    + intros n Hn. rewrite Hfresh in Hn.
      destruct (decide (n = fresh s)) as [->|Hne]; [done|].
      apply Hold; [done|]. apply Hattr. lia.
Qed.

(** X13.  The graphs the constructor does accept.  In a store built by
    the node constructors, take a list of nodes that holds only input
    and output nodes, at least one of each, in which every output node
    has at least one input and is fed by input nodes of the list only,
    and every input node feeds an output node of the list.  With
    automatic detection the constructor accepts the list, its input and
    output nodes being taken in list order. *)
Theorem directly_fed_outputs_accepted (set_iter : gset nat → list nat)
    s nodes force :
  (∀ X x, x ∈ set_iter X ↔ x ∈ X) → (∀ X, NoDup (set_iter X)) →
  built s →
  (∀ n, n ∈ nodes →
        (n < fresh s)%nat
        ∧ (cls (obj s n) = ClsInputNode ∨ cls (obj s n) = ClsOutputNode)) →
  (∃ n, n ∈ nodes ∧ cls (obj s n) = ClsInputNode) →
  (∃ n, n ∈ nodes ∧ cls (obj s n) = ClsOutputNode) →
  (∀ o, o ∈ nodes → cls (obj s o) = ClsOutputNode →
        inputs (obj s o) ≠ []
        ∧ ∀ a, consumes (obj s) o a → a ∈ nodes ∧ cls (obj s a) = ClsInputNode) →
  (∀ n, n ∈ nodes → cls (obj s n) = ClsInputNode →
        ∃ o, o ∈ nodes ∧ cls (obj s o) = ClsOutputNode ∧ consumes (obj s) o n) →
  ∃ g, ReversibleGraphNet_init set_iter (obj s) nodes IndNone IndNone force = Ok g
       ∧ in_nodes g
         = filter (λ n, node_class_eqb (cls (obj s n)) ClsInputNode = true) nodes
       ∧ out_nodes g
         = filter (λ n, node_class_eqb (cls (obj s n)) ClsOutputNode = true) nodes.
Proof.
  intros Helem Hnodup [Hwf Hattr]%built_facts Hnodes Hin Hout Hsink Hused.
  apply boundary_lists_accepted; try done.
  - intros n Hn. by apply Hnodes.
  - intros n Hn Hc. destruct (Hnodes n Hn) as [Hlt _].
    destruct (Hattr n Hlt) as [_ Hi]. destruct (Hi Hc) as [Hnone Hone].
    split; [done|]. intros E. by rewrite E in Hone.
  - intros o Ho Hc. destruct (Hsink o Ho Hc) as [Hsome Hfed].
    split; [|done]. destruct (Hnodes o Ho) as [Hlt _].
    destruct (Hattr o Hlt) as [Hlen _]. intros E. rewrite E in Hlen.
    by destruct (inputs (obj s o)).
  - intros b a _. by apply wf_store_earlier.
Qed.
End NodeOutcomes.

(** ** The properties at example graphs *)

Section MoreExampleFacts.
Import Examples MoreExamples.

Ltac split_or H :=
  lazymatch type of H with
  | False => destruct H
  | _ = _ ∨ _ =>
      let H' := fresh in
      destruct H as [H'|H]; [first [discriminate H'|subst]|split_or H]
  end.

Ltac split_elem H := apply list_elem_of_In in H; simpl in H; split_or H.

Ltac producers_of H :=
  unfold consumes in H;
  erewrite producers_elem in H by (vm_compute; reflexivity);
  split_elem H.

Ltac list_member := apply list_elem_of_In; simpl; tauto.

Ltac prove_consumes :=
  unfold consumes; erewrite producers_elem by (vm_compute; reflexivity);
  list_member.

Lemma order_respects_dependencies_witness :
  ∃ i : nat, (i < 2)%nat ∧ [0; 1; 2]%nat !! i = Some 1%nat.
Proof.
  apply (order_respects_dependencies elements chain_heap
           (λ X x, elem_of_elements X x)
           [0; 1; 2]%nat [0%nat] [2%nat] [0; 1; 2]%nat 2%nat 1%nat 2%nat).
  - apply NoDup_singleton.
  - intros o b Ho Hb Hc. split_elem Ho. split_elem Hb; producers_of Hc.
  - vm_compute. reflexivity.
  - reflexivity.
  - prove_consumes.
Defined.

Lemma returned_order_members_witness :
  (∀ o, o ∈ [2%nat] → o ∈ [0; 1; 2]%nat)
  ∧ (∀ a, a ∈ [0%nat] → a ∈ [0; 1; 2]%nat)
  ∧ (∀ b a, b ∈ [0; 1; 2]%nat ++ [2%nat] → consumes chain_heap b a →
            b ∈ [0; 1; 2]%nat)
  ∧ (∀ n, n ∈ [0; 1; 2]%nat →
       n ∈ [0; 1; 2]%nat ++ [2%nat] ∧ connected_to_output chain_heap [2%nat] n).
Proof.
  apply (returned_order_members elements chain_heap
           (λ X x, elem_of_elements X x) [0; 1; 2]%nat [0%nat] [2%nat]).
  vm_compute. reflexivity.
Defined.

Lemma dead_end_rejected_witness :
  ¬ connected_to_output dead_end_heap [2%nat] 1%nat
  ∧ ∃ e, topological_order elements dead_end_heap [0; 1; 2]%nat [0%nat] [2%nat]
         = Err e.
Proof.
  assert (Hnc : ¬ connected_to_output dead_end_heap [2%nat] 1%nat).
  { intros (o & Ho & Hpath). split_elem Ho.
    apply rtc_inv in Hpath as [Hpath|(y & Hy & Hpath)]; [discriminate Hpath|].
    producers_of Hy.
    apply rtc_inv in Hpath as [Hpath|(y & Hy & Hpath)]; [discriminate Hpath|].
    producers_of Hy. }
  split; [exact Hnc|].
  apply (dead_end_rejected elements dead_end_heap (λ X x, elem_of_elements X x)
           [0; 1; 2]%nat [0%nat] [2%nat] 1%nat 0%nat).
  - list_member.
  - prove_consumes.
  - exact Hnc.
Defined.

Lemma returned_order_NoDup_witness : NoDup [0; 1; 2]%nat.
Proof.
  apply (returned_order_NoDup elements chain_heap (λ X x, elem_of_elements X x)
           [0; 1; 2]%nat [0%nat] [2%nat]).
  - apply NoDup_singleton.
  - intros o b Ho Hb Hc. split_elem Ho. split_elem Hb; producers_of Hc.
  - vm_compute. reflexivity.
Defined.

Lemma traversal_terminates_witness :
  kahn elements 100 (kahn_init elements chain_heap [0; 1; 2]%nat [2%nat])
  = kahn elements (kahn_fuel (kahn_init elements chain_heap [0; 1; 2]%nat [2%nat]))
      (kahn_init elements chain_heap [0; 1; 2]%nat [2%nat])
  ∧ ∀ st', kahn elements 100 (kahn_init elements chain_heap [0; 1; 2]%nat [2%nat])
           = Ok st' → no_pending_edges st' = [].
Proof.
  apply (traversal_terminates elements 100
           (kahn_init elements chain_heap [0; 1; 2]%nat [2%nat])).
  apply Nat.leb_le. vm_compute. reflexivity.
Defined.


Lemma cycle_rejected_witness :
  on_cycle cyclic_heap 1%nat
  ∧ ∃ e, topological_order elements cyclic_heap [0; 1; 2; 3]%nat [0%nat] [3%nat]
         = Err e.
Proof.
  split; [apply cyclic_heap_cycle|].
  apply (cycle_rejected elements cyclic_heap (λ X x, elem_of_elements X x)
           [0; 1; 2; 3]%nat [0%nat] [3%nat] 1%nat).
  - apply NoDup_singleton.
  - intros o b Ho Hb Hc. split_elem Ho. split_elem Hb; producers_of Hc.
  - list_member.
  - apply cyclic_heap_cycle.
Defined.

Lemma closed_map_no_lookup_failure_witness :
  (∀ b a, b ∈ [0; 1; 2]%nat ++ [2%nat] → consumes chain_heap b a →
          a ∈ [0; 1; 2]%nat ++ [2%nat])
  ∧ topological_order elements chain_heap [0; 1; 2]%nat [0%nat] [2%nat]
    ≠ Err KeyError.
Proof.
  assert (Hclosed : ∀ b a, b ∈ [0; 1; 2]%nat ++ [2%nat] → consumes chain_heap b a →
                           a ∈ [0; 1; 2]%nat ++ [2%nat]).
  { intros b a Hb Hc. split_elem Hb; producers_of Hc; list_member. }
  split; [exact Hclosed|].
  apply (closed_map_no_lookup_failure elements chain_heap
           (λ X x, elem_of_elements X x) (λ X, NoDup_elements X)
           [0; 1; 2]%nat [0%nat] [2%nat] Hclosed).
Defined.

Lemma detected_lists_hold_boundary_nodes_only_witness :
  cls (direct_heap 0%nat) = ClsInputNode ∨ cls (direct_heap 0%nat) = ClsOutputNode.
Proof.
  eapply (detected_lists_hold_boundary_nodes_only elements direct_heap
            [0; 1]%nat false).
  - vm_compute. reflexivity.
  - list_member.
Defined.

Lemma condition_node_rejected_witness :
  ∃ e, ReversibleGraphNet_init elements conditioned_heap [0; 1; 2; 3]%nat
         IndNone IndNone false = Err e.
Proof.
  apply (condition_node_rejected elements conditioned_heap [0; 1; 2; 3]%nat
           IndNone IndNone false 1%nat).
  - list_member.
  - reflexivity.
  - reflexivity.
Defined.

Lemma missing_boundary_rejected_witness :
  ReversibleGraphNet_init elements direct_heap [1%nat] IndNone IndNone false
  = Err (AssertionError NoInputNodes).
Proof.
  apply (proj1 (missing_boundary_rejected elements direct_heap [1%nat] false)).
  intros n Hn Hc. split_elem Hn. vm_compute in Hc. discriminate Hc.
Defined.

Lemma constructed_net_has_no_node_list_witness :
  ∃ g, ReversibleGraphNet_init elements direct_heap [0; 1]%nat IndNone IndNone false
       = Ok g
       ∧ forward_call Z.add direct_heap g (VList [VTensor 5]) VNone
           false true false = Err TypeError
       ∧ (∀ xs cs, forward Z.add direct_heap g xs cs false true false
                   = Err (AttributeError "node_list"))
       ∧ get_node_by_name direct_heap g "a" = Err (AttributeError "node_list")
       ∧ get_module_by_name direct_heap g "a" = Err (AttributeError "node_list").
Proof.
  eexists. split; [vm_compute; reflexivity|].
  apply (constructed_net_has_no_node_list Z.add elements direct_heap [0; 1]%nat
           IndNone IndNone false _ (VList [VTensor 5]) VNone false true false "a").
  vm_compute. reflexivity.
Defined.

Lemma empty_store_built : built empty_store.
Proof. apply built_empty; [done|]. intros c. by repeat split. Qed.

Lemma input_store_built : built input_store.
Proof.
  apply (built_node empty_store ClsInputNode [2] (VList []) None VNone
           (Some "a") "000000" input_store 0%nat empty_store_built).
  - intros n Hn. by apply elem_of_nil in Hn.
  - reflexivity.
Qed.

Lemma direct_store_built : built direct_store.
Proof.
  apply (built_node input_store ClsOutputNode [] (VNode 0%nat) None VNone
           (Some "o") "000001" direct_store 1%nat input_store_built).
  - intros n Hn. split_elem Hn. simpl. lia.
  - reflexivity.
Qed.

Lemma directly_fed_outputs_accepted_witness :
  ∃ g, ReversibleGraphNet_init elements (obj direct_store) [0; 1]%nat
         IndNone IndNone false = Ok g
       ∧ in_nodes g
         = filter (λ n, node_class_eqb (cls (obj direct_store n)) ClsInputNode = true)
             [0; 1]%nat
       ∧ out_nodes g
         = filter (λ n, node_class_eqb (cls (obj direct_store n)) ClsOutputNode = true)
             [0; 1]%nat.
Proof.
  apply (directly_fed_outputs_accepted elements direct_store [0; 1]%nat false
           (λ X x, elem_of_elements X x) (λ X, NoDup_elements X)
           direct_store_built).
  - intros n Hn. split_elem Hn; (split; [simpl; lia|]); [left|right]; reflexivity.
  - exists 0%nat. split; [list_member|reflexivity].
  - exists 1%nat. split; [list_member|reflexivity].
  - intros o Ho Hc. split_elem Ho.
    + vm_compute in Hc. discriminate Hc.
    + split; [vm_compute; discriminate|].
      intros a Ha. producers_of Ha. split; [list_member|reflexivity].
  - intros n Hn Hc. split_elem Hn.
    + exists 1%nat. split; [list_member|]. split; [reflexivity|prove_consumes].
    + vm_compute in Hc. discriminate Hc.
Defined.

Lemma walk_over_boundary_node_fails_witness :
  module (chain_heap 0%nat) = None
  ∧ forward Z.add chain_heap (chain_net chain_heap [0; 1]%nat)
      [VTensor 5] [] false false false
    ≠ Ok (ReturnSingle (VTensor 10) VNone).
Proof.
  split; [reflexivity|].
  apply (walk_over_boundary_node_fails Z.add chain_heap
           (chain_net chain_heap [0; 1]%nat) [0; 1]%nat 0%nat).
  - reflexivity.
  - list_member.
  - reflexivity.
Defined.

Lemma returned_jacobian_is_None_witness :
  forward Z.add chain_heap (chain_net chain_heap []) [VTensor 10] [] true true false
  = Ok (ReturnSingle (VTensor 10) VNone)
  ∧ returned_jacobian (ReturnSingle (VTensor 10) VNone) = VNone (tensor := Z).
Proof.
  assert (H : forward Z.add chain_heap (chain_net chain_heap [])
                [VTensor 10] [] true true false
              = Ok (ReturnSingle (VTensor 10) VNone))
    by (vm_compute; reflexivity).
  split; [exact H|].
  apply (returned_jacobian_is_None Z.add chain_heap (chain_net chain_heap [])
           [VTensor 10] [] true true false _ H).
Defined.

Lemma result_form_witness :
  false = false
  ∧ length (out_nodes (chain_net chain_heap [])) = 1%nat
  ∧ force_tuple_output (chain_net chain_heap []) = false.
Proof.
  apply (result_form Z.add chain_heap (chain_net chain_heap [])
           [VTensor 10] [] true true false (ReturnSingle (VTensor 10) VNone)).
  vm_compute. reflexivity.
Defined.

Lemma table_keeps_seeded_node_entries_witness :
  ∃ outs, forward Z.add chain_heap (chain_net chain_heap [1%nat])
            [VTensor 5] [] false false true = Ok (ReturnTable outs VNone)
          ∧ outs !! (RefNode 0, 0)
            = seed (chain_net chain_heap [1%nat]) [VTensor 5] [] false
                !! (RefNode 0, 0).
Proof.
  eexists. split; [vm_compute; reflexivity|].
  apply (table_keeps_seeded_node_entries Z.add chain_heap
           (chain_net chain_heap [1%nat]) [VTensor 5] [] false false _ VNone).
  vm_compute. reflexivity.
Defined.

Lemma lookup_by_name_witness :
  get_node_by_name chain_heap (chain_net chain_heap [0; 1; 2]%nat) "t"
  = Ok (Some 1%nat)
  ∧ get_module_by_name chain_heap (chain_net chain_heap [0; 1; 2]%nat) "t"
    = Ok (module (chain_heap 1%nat)).
Proof.
  destruct (lookup_by_name chain_heap (chain_net chain_heap [0; 1; 2]%nat)
              [0; 1; 2]%nat "t" eq_refl) as (Hfirst & _ & Hmod & _).
  assert (H : get_node_by_name chain_heap (chain_net chain_heap [0; 1; 2]%nat) "t"
              = Ok (Some 1%nat)).
  { apply Hfirst. exists [0%nat], [2%nat]. split; [reflexivity|].
    split; [reflexivity|]. intros m Hm. split_elem Hm. vm_compute. discriminate. }
  split; [exact H|]. apply Hmod. exact H.
Defined.

Lemma parse_inputs_idempotent_witness :
  parse_inputs "b" (VList [VTuple [VNode 0%nat; VInt 0]])
  = Ok (VList [VTuple [VNode 0%nat; VInt 0]] : pyval Z).
Proof.
  apply (parse_inputs_idempotent "a" "b" (VNode 0%nat)). reflexivity.
Defined.

Lemma empty_store_wf : wf_store empty_store.
Proof.
  split; [|split].
  - intros c _. by repeat split.
  - intros c e He. simpl in He. by apply elem_of_nil in He.
  - intros p c i. simpl. split.
    + by intros ?%elem_of_nil.
    + intros (_ & k & Hk). by rewrite lookup_nil in Hk.
Qed.

Lemma input_store_wf : wf_store input_store.
Proof.
  apply (register_wf empty_store (obj input_store 0%nat) empty_store_wf eq_refl).
  intros e He. simpl in He. by apply elem_of_nil in He.
Qed.

Lemma node_store_wf : wf_store node_store.
Proof.
  apply (register_wf input_store (obj node_store 1%nat) input_store_wf eq_refl).
  intros e He. split_elem He. simpl. lia.
Qed.

Lemma chain_store_wf : wf_store chain_store.
Proof.
  apply (register_wf node_store (obj chain_store 2%nat) node_store_wf eq_refl).
  intros e He. split_elem He. simpl. lia.
Qed.

Lemma Node_init_preserves_wf_witness :
  wf_store chain_store ∧ 2%nat = fresh node_store ∧ fresh chain_store = 3%nat.
Proof.
  apply (Node_init_preserves_wf node_store ClsOutputNode [] (VNode 1%nat) None
           VNone (Some "o") "000002" chain_store 2%nat node_store_wf).
  - intros n Hn. split_elem Hn. simpl. lia.
  - reflexivity.
Defined.

Lemma constructed_store_acyclic_witness :
  (∀ b a, tc (consumes (obj chain_store)) b a → (a < b)%nat)
  ∧ ∀ n, ¬ on_cycle (obj chain_store) n.
Proof. apply (constructed_store_acyclic chain_store chain_store_wf). Defined.


Lemma Node_init_shapes_witness :
  Forall2 (λ e d, py_getitem (output_dims (obj input_store (fst e))) (snd e) = Ok d)
    (inputs (obj node_store 1%nat)) (input_dims (obj node_store 1%nat)).
Proof.
  apply (Node_init_shapes input_store ClsNode [] (VNode 0%nat)
           (Some (λ _ _, Ok scale_module)) VNone (Some "t") "000001"
           node_store 1%nat).
  reflexivity.
Defined.


Lemma scheduler_accepts_witness :
  ∃ order, topological_order elements (obj chain_store)
             [0; 1; 2]%nat [0%nat] [2%nat] = Ok order.
Proof.
  apply (scheduler_accepts elements chain_store [0; 1; 2]%nat [0%nat] [2%nat]
           (λ X x, elem_of_elements X x) (λ X, NoDup_elements X) chain_store_wf).
  - intros b a Hb Hc. split_elem Hb; producers_of Hc; list_member.
  - intros b a Hb Hc. exists 2%nat. split; [list_member|].
    split_elem Hb; producers_of Hc.
    + apply rtc_once. prove_consumes.
    + apply rtc_refl.
    + apply rtc_refl.
  - intros a Ha. split_elem Ha. exists 2%nat. split; [list_member|].
    apply (rtc_l _ _ 1%nat); [prove_consumes|]. apply rtc_once. prove_consumes.
Defined.
End MoreExampleFacts.
